(** * Self-update engine: file guard, archive locator, directory merge
      and the update flows of [utils/utilities.py],
      [utils/update_checker.py] and [utils/update_installer.py].

    The Python code is embedded shallowly.  A computation is a function
    from a state to a final state, the list of observable events it
    emitted (console prints, log lines, progress values, sleeps, dialog
    boxes, restart hooks) and either a returned value or a raised
    exception.  File-system primitives act on a finite map from paths to
    nodes and consult a fault schedule that decides which system calls
    are denied, so that locked files and truncated writes can be
    expressed. *)

From Stdlib Require Import ZArith String Ascii DecimalString Lia.
From stdpp Require Import gmap strings list fin_maps.

Open Scope string_scope.
Open Scope Z_scope.
Open Scope list_scope.
Open Scope stdpp_scope.

(** ** Exceptions *)

(** The exception classes the modelled code raises, catches or lets
    through.  [IOError] is an alias of [OSError] in Python 3 and
    [requests.exceptions.RequestException] derives from it. *)
Inductive exn_class :=
  | OSError | PermissionError | FileNotFoundError | FileExistsError
  | IsADirectoryError | NotADirectoryError
  | RequestException | HTTPError | ConnectionError | Timeout
  | CalledProcessError | ArchiveError | TclError
  | KeyError | ValueError | TypeError | OverflowError | Exception.

Record exn := mkExn { exn_cls : exn_class; exn_msg : string }.

(** [isinstance(e, (OSError, IOError, PermissionError))]. *)
Definition is_OSError (e : exn) : bool :=
  match exn_cls e with
  | OSError | PermissionError | FileNotFoundError | FileExistsError
  | IsADirectoryError | NotADirectoryError
  | RequestException | HTTPError | ConnectionError | Timeout => true
  | _ => false
  end.

(** [str(e)]. *)
Definition str_exn (e : exn) : string := exn_msg e.

(** [str(n)] for an integer. *)
Definition str_Z (n : Z) : string := NilZero.string_of_int (Z.to_int n).

(** ** Observable events *)

Inductive level := Info | Warning | Error | Success.

(** What a restart callback does once the user presses the button. *)
Inductive restart_action :=
  | RestartPython                      (* os.execl(python, python, *argv) *)
  | RestartMain (main_py : list string) (* Popen([python, main_py]); exit *)
  | RestartExe (exes : list string) (app_root : list string)
  | StartScript (bat_path : list string). (* os.startfile(bat); exit *)

Inductive flow := SourceFlow | ExeFlow.

Inductive event :=
  | Print (text : string)
  | Sleep (delay : Z)
  | Log (message : string) (lvl : level)
  | Progress (value : Z) (status : string)
  | EnableRestart (cb : restart_action)
  | ShowError (title message : string)
  | AskYesNo (title message : string)
  | TkCreate | TkWithdraw | TkDestroy
  | StartUpdate (f : flow).

(** ** The computation monad *)

Inductive outcome (A : Type) :=
  | Returned (a : A)
  | Raised (e : exn).
Arguments Returned {A} a.
Arguments Raised {A} e.

Definition M (St A : Type) : Type := St -> St * list event * outcome A.

Definition ret {St A} (a : A) : M St A := fun s => (s, [], Returned a).

Definition bind {St A B} (m : M St A) (k : A -> M St B) : M St B :=
  fun s =>
    match m s with
    | (s1, ev1, Returned a) =>
        match k a s1 with
        | (s2, ev2, r) => (s2, ev1 ++ ev2, r)
        end
    | (s1, ev1, Raised e) => (s1, ev1, Raised e)
    end.

Definition raise {St A} (e : exn) : M St A := fun s => (s, [], Raised e).

Definition emit {St} (e : event) : M St unit := fun s => (s, [e], Returned tt).

(** [try: body except <classes matched by handler>: handler e].  A handler
    that does not match re-raises by returning [raise e]. *)
Definition try_except {St A} (body : M St A) (handler : exn -> M St A) : M St A :=
  fun s =>
    match body s with
    | (s1, ev1, Returned a) => (s1, ev1, Returned a)
    | (s1, ev1, Raised e) =>
        match handler e s1 with
        | (s2, ev2, r) => (s2, ev1 ++ ev2, r)
        end
    end.

Definition get {St} : M St St := fun s => (s, [], Returned s).
Definition modify {St} (f : St -> St) : M St unit := fun s => (f s, [], Returned tt).

Declare Scope py_scope.
Delimit Scope py_scope with py.
Notation "'do' x <- m ; k" := (bind m (fun x => k))
  (at level 10, x name, m at level 100, k at level 200) : py_scope.
Notation "'do' ' p <- m ; k" := (bind m (fun x => match x with p => k end))
  (at level 10, p pattern, m at level 100, k at level 200) : py_scope.
Notation "m ;;; k" := (bind m (fun _ => k))
  (at level 100, k at level 200, right associativity) : py_scope.
Open Scope py_scope.

(** [print(text)]. *)
Definition print {St} (text : string) : M St unit := emit (Print text).

(** The argument of [time.sleep]: a finite length, counted in
    milliseconds, or one of the floats [inf], [-inf] and [nan]. *)
Inductive seconds := Millis (ms : Z) | PosInf | NegInf | NaN.
Coercion Millis : Z >-> seconds.

(** The longest sleep, in milliseconds: [time.sleep] converts the length
    to nanoseconds in a signed integer of 64 bits. *)
Definition max_sleep : Z := 9223372036854.

(** [time.sleep(delay)].  A length that is not a number is refused with
    [ValueError], one that does not fit the integer with [OverflowError]
    (whatever its sign), and a negative one that fits with
    [ValueError]. *)
Definition sleep {St} (delay : seconds) : M St unit :=
  match delay with
  | NaN => raise (mkExn ValueError "Invalid value NaN (not a number)")
  | PosInf | NegInf =>
      raise (mkExn OverflowError "timestamp too large to convert to C _PyTime_t")
  | Millis ms =>
      if (ms <? - max_sleep) || (max_sleep <? ms)
      then raise (mkExn OverflowError "timestamp too large to convert to C _PyTime_t")
      else if ms <? 0 then raise (mkExn ValueError "sleep length must be non-negative")
      else emit (Sleep ms)
  end.
Arguments sleep : simpl never.

(** Projections of a run. *)
Definition final {St A} (r : St * list event * outcome A) : St := fst (fst r).
Definition events {St A} (r : St * list event * outcome A) : list event := snd (fst r).
Definition result {St A} (r : St * list event * outcome A) : outcome A := snd r.

(** Total time slept and number of sleeps in a trace. *)
Fixpoint slept (evs : list event) : Z :=
  match evs with
  | [] => 0
  | Sleep d :: evs' => d + slept evs'
  | _ :: evs' => slept evs'
  end.

Fixpoint sleeps (evs : list event) : nat :=
  match evs with
  | [] => O
  | Sleep _ :: evs' => S (sleeps evs')
  | _ :: evs' => sleeps evs'
  end.

(** ** Paths and the file system *)

(** A path is its list of components; [os.path.join] is concatenation. *)
Abbreviation path := (list string) (only parsing).

Definition join (p : path) (name : string) : path := p ++ [name].

Definition dirname (p : path) : path := removelast p.

Definition basename (p : path) : string := List.last p "".

(** [p + suffix] on the textual path: the suffix lands on the last
    component. *)
Definition add_suffix (p : path) (suffix : string) : path :=
  match p with
  | [] => [suffix]
  | _ => dirname p ++ [basename p +:+ suffix]
  end.

(** The text of a path, as it shows in messages. *)
Definition str_path (p : path) : string := String.concat "/" p.

Inductive node := FileN (content : string) | DirN.

(** A decision of the environment for one fallible system call: it goes
    through, it is denied before any effect (a lock, a permission), or,
    for a write, it breaks after [n] bytes reached the destination. *)
Inductive fault := NoFault | Denied | Truncated (n : nat).

Record Sys := mkSys {
  fs : gmap (list string) node;   (* the file system *)
  tick : nat;                     (* fallible system calls made so far *)
  faults : nat -> fault;          (* the environment's schedule *)
  temps : nat                     (* temporary names handed out so far *)
}.

Definition set_fs (f : gmap (list string) node -> gmap (list string) node) (s : Sys) : Sys :=
  mkSys (f (fs s)) (tick s) (faults s) (temps s).

(** The decision for the next fallible system call. *)
Definition next_fault : M Sys fault :=
  fun s => (mkSys (fs s) (S (tick s)) (faults s) (temps s), [], Returned (faults s (tick s))).

Definition exists_in (m : gmap (list string) node) (p : path) : bool :=
  match m !! p with Some _ => true | None => false end.

Definition isdir_in (m : gmap (list string) node) (p : path) : bool :=
  match m !! p with Some DirN => true | _ => false end.

Definition isfile_in (m : gmap (list string) node) (p : path) : bool :=
  match m !! p with Some (FileN _) => true | _ => false end.

Definition os_path_exists (p : path) : M Sys bool :=
  fun s => (s, [], Returned (exists_in (fs s) p)).

Definition os_path_isdir (p : path) : M Sys bool :=
  fun s => (s, [], Returned (isdir_in (fs s) p)).

(** [open(p, 'r+b')] followed by closing the file again. *)
Definition open_rw (p : path) : M Sys unit :=
  do s <- get;
  match fs s !! p with
  | None => raise (mkExn FileNotFoundError "No such file or directory")
  | Some DirN => raise (mkExn IsADirectoryError "Is a directory")
  | Some (FileN _) =>
      do f <- next_fault;
      match f with
      | NoFault => ret tt
      | _ => raise (mkExn PermissionError "Permission denied")
      end
  end.

(** [for x in l: body x]. *)
Fixpoint for_each {St X} (l : list X) (body : X -> M St unit) : M St unit :=
  match l with
  | [] => ret tt
  | x :: l' => body x ;;; for_each l' body
  end.

(** Turns the outcome of an external collaborator into a computation. *)
Definition lift {St A} (r : outcome A) : M St A :=
  match r with
  | Returned a => ret a
  | Raised e => raise e
  end.

(** *** Strings *)

Definition lower_ascii (c : ascii) : ascii :=
  let n := nat_of_ascii c in
  if ((65 <=? n) && (n <=? 90))%nat then ascii_of_nat (n + 32) else c.

(** [s.lower()] on the ASCII letters. *)
Fixpoint lower (s : string) : string :=
  match s with
  | EmptyString => EmptyString
  | String c s' => String (lower_ascii c) (lower s')
  end.

(** [s.endswith(suffix)]. *)
Definition endswith (s suffix : string) : bool :=
  let n := String.length s in
  let k := String.length suffix in
  ((k <=? n)%nat && String.eqb (String.substring (n - k) k s) suffix)%bool.

(** [needle in haystack] for a list of names. *)
Definition name_in (needle : string) (haystack : list string) : bool :=
  existsb (String.eqb needle) haystack.

(** [", ".join(names)]. *)
Definition comma_join (names : list string) : string := String.concat ", " names.

(** *** Archive and source trees

    The unpacked archive lives in a fresh temporary directory that only
    the updater writes to.  Its contents are read from the tree the
    archive decoder produced; every write of the updater goes to the
    file-system map. *)

#[local] Set Warnings "-register-all".

Inductive tree :=
  | File (content : string)
  | Dir (entries : list (string * tree)).

(** [os.listdir]. *)
Definition listdir (entries : list (string * tree)) : list string := map fst entries.

(** The entry a name resolves to. *)
Fixpoint child (entries : list (string * tree)) (name : string) : option tree :=
  match entries with
  | [] => None
  | (n, t) :: entries' => if String.eqb n name then Some t else child entries' name
  end.

Definition isdir_child (entries : list (string * tree)) (name : string) : bool :=
  match child entries name with Some (Dir _) => true | _ => false end.

Definition isfile_child (entries : list (string * tree)) (name : string) : bool :=
  match child entries name with Some (File _) => true | _ => false end.

Definition exists_child (entries : list (string * tree)) (name : string) : bool :=
  match child entries name with Some _ => true | None => false end.

(** The regular files and the sub-directories among the entries. *)
Fixpoint files_of (entries : list (string * tree)) : list (string * string) :=
  match entries with
  | [] => []
  | (n, File c) :: entries' => (n, c) :: files_of entries'
  | (_, Dir _) :: entries' => files_of entries'
  end.

Fixpoint dirs_of (entries : list (string * tree)) : list string :=
  match entries with
  | [] => []
  | (n, Dir _) :: entries' => n :: dirs_of entries'
  | (_, File _) :: entries' => dirs_of entries'
  end.

(** [os.walk(top)], top-down: one triple per directory, with the path of
    the directory relative to [top] (the empty path stands for ['.']),
    the names of its sub-directories and its files with their contents. *)
Fixpoint os_walk (rel : path) (t : tree) : list (path * list string * list (string * string)) :=
  match t with
  | File _ => []
  | Dir entries =>
      (rel, dirs_of entries, files_of entries)
        :: flat_map (fun e => os_walk (rel ++ [fst e]) (snd e)) entries
  end.

(** The nodes a tree occupies when it is unpacked at [base]. *)
Fixpoint tree_nodes (base : path) (t : tree) : list (path * node) :=
  match t with
  | File c => [(base, FileN c)]
  | Dir entries =>
      (base, DirN) :: flat_map (fun e => tree_nodes (base ++ [fst e]) (snd e)) entries
  end.

(** [archive.getnames()]. *)
Definition archive_names (entries : list (string * tree)) : list path :=
  map fst (flat_map (fun e => tree_nodes [fst e] (snd e)) entries).

Definition write_tree (base : path) (t : tree) (m : gmap (list string) node)
    : gmap (list string) node :=
  foldr (fun kv acc => <[kv.1 := kv.2]> acc) m (tree_nodes base t).

(** *** File-system primitives *)

(** The parent of a path is a directory; the empty path is the root. *)
Definition parent_is_dir (m : gmap (list string) node) (p : path) : bool :=
  match dirname p with
  | [] => true
  | d => isdir_in m d
  end.

(** One level of [os.makedirs(p, exist_ok=True)]. *)
Definition mkdir_exist_ok (p : path) (is_leaf : bool) : M Sys unit :=
  do s <- get;
  match fs s !! p with
  | Some DirN => ret tt
  | Some (FileN _) =>
      if is_leaf then raise (mkExn FileExistsError ("File exists: " +:+ str_path p))
      else raise (mkExn NotADirectoryError ("Not a directory: " +:+ str_path p))
  | None =>
      do f <- next_fault;
      match f with
      | NoFault => modify (set_fs (insert p DirN))
      | _ => raise (mkExn PermissionError ("Permission denied: " +:+ str_path p))
      end
  end.

Fixpoint makedirs_from (done : path) (todo : list string) : M Sys unit :=
  match todo with
  | [] => ret tt
  | c :: todo' =>
      mkdir_exist_ok (done ++ [c]) (match todo' with [] => true | _ => false end) ;;;
      makedirs_from (done ++ [c]) todo'
  end.

(** [os.makedirs(p, exist_ok=True)]: every missing directory on the way
    to [p] is created, from the root down. *)
Definition os_makedirs (p : path) : M Sys unit := makedirs_from [] p.

(** [shutil.copy2(src, dst)] for a source file named [src_name] holding
    [content].  A destination that is a directory receives the file
    under the source's base name.  Returns the path written. *)
Definition shutil_copy2 (src_name content : string) (dst : path) : M Sys path :=
  do s <- get;
  let target := if isdir_in (fs s) dst then join dst src_name else dst in
  match fs s !! target with
  | Some DirN => raise (mkExn IsADirectoryError ("Is a directory: " +:+ str_path target))
  | _ =>
      if negb (parent_is_dir (fs s) target)
      then raise (mkExn FileNotFoundError ("No such file or directory: " +:+ str_path target))
      else
        do f <- next_fault;
        match f with
        | NoFault => modify (set_fs (insert target (FileN content))) ;;; ret target
        | Denied => raise (mkExn PermissionError ("Permission denied: " +:+ str_path target))
        | Truncated n =>
            modify (set_fs (insert target (FileN (String.substring 0 n content)))) ;;;
            raise (mkExn OSError ("write failed: " +:+ str_path target))
        end
  end.

(** [shutil.copy2] from a path of the file-system map. *)
Definition copy2_path (src dst : path) : M Sys path :=
  do s <- get;
  match fs s !! src with
  | None => raise (mkExn FileNotFoundError ("No such file or directory: " +:+ str_path src))
  | Some DirN => raise (mkExn IsADirectoryError ("Is a directory: " +:+ str_path src))
  | Some (FileN c) => shutil_copy2 (basename src) c dst
  end.

(** [os.makedirs(p)] without [exist_ok], as [shutil.copytree] calls it. *)
Definition makedirs_new (p : path) : M Sys unit :=
  do ex <- os_path_exists p;
  if ex then raise (mkExn FileExistsError ("File exists: " +:+ str_path p))
  else os_makedirs p.

(** [shutil.copytree(src, dst)]: the destination must not exist; every
    entry is attempted, an entry that fails with an [OSError] is noted
    and the copy goes on, and a noted error is raised at the end. *)
Fixpoint shutil_copytree (src : tree) (dst : path) : M Sys unit :=
  match src with
  | File c => shutil_copy2 (basename dst) c dst ;;; ret tt
  | Dir entries =>
      makedirs_new dst ;;;
      do bad <-
        (fix each (es : list (string * tree)) : M Sys bool :=
           match es with
           | [] => ret false
           | e :: es' =>
               do b <- try_except
                         (shutil_copytree (snd e) (dst ++ [fst e]) ;;; ret false)
                         (fun ex => if is_OSError ex then ret true else raise ex);
               do b' <- each es';
               ret (b || b')
           end) entries;
      if bad then raise (mkExn OSError ("shutil.Error: " +:+ str_path dst)) else ret tt
  end.

(** [os.remove(p)]. *)
Definition os_remove (p : path) : M Sys unit :=
  do s <- get;
  match fs s !! p with
  | None => raise (mkExn FileNotFoundError ("No such file or directory: " +:+ str_path p))
  | Some DirN => raise (mkExn IsADirectoryError ("Is a directory: " +:+ str_path p))
  | Some (FileN _) =>
      do f <- next_fault;
      match f with
      | NoFault => modify (set_fs (delete p))
      | _ => raise (mkExn PermissionError ("Permission denied: " +:+ str_path p))
      end
  end.

(** [os.rename(src, dst)] for a file, with the Windows rule that an
    existing destination is refused. *)
Definition os_rename (src dst : path) : M Sys unit :=
  do s <- get;
  match fs s !! src with
  | None => raise (mkExn FileNotFoundError ("No such file or directory: " +:+ str_path src))
  | Some n =>
      if exists_in (fs s) dst
      then raise (mkExn FileExistsError ("File exists: " +:+ str_path dst))
      else
        do f <- next_fault;
        match f with
        | NoFault => modify (set_fs (fun m => <[dst := n]> (delete src m)))
        | _ => raise (mkExn PermissionError ("Permission denied: " +:+ str_path src))
        end
  end.

(** [shutil.rmtree(p, ignore_errors=True)]: the tree below [p] goes away,
    or, when the environment refuses, stays, silently. *)
Definition shutil_rmtree_ignore_errors (p : path) : M Sys unit :=
  do f <- next_fault;
  match f with
  | NoFault => modify (set_fs (filter (fun kv => ~ p `prefix_of` kv.1)))
  | _ => ret tt
  end.

(** [with open(p, "w") as f: f.write(text)]. *)
Definition write_text (p : path) (text : string) : M Sys unit :=
  do s <- get;
  match fs s !! p with
  | Some DirN => raise (mkExn IsADirectoryError ("Is a directory: " +:+ str_path p))
  | _ =>
      if negb (parent_is_dir (fs s) p)
      then raise (mkExn FileNotFoundError ("No such file or directory: " +:+ str_path p))
      else
        do f <- next_fault;
        match f with
        | NoFault => modify (set_fs (insert p (FileN text)))
        | Denied => raise (mkExn PermissionError ("Permission denied: " +:+ str_path p))
        | Truncated n =>
            modify (set_fs (insert p (FileN (String.substring 0 n text)))) ;;;
            raise (mkExn OSError ("write failed: " +:+ str_path p))
        end
  end.

(** [tempfile.gettempdir()]. *)
Definition gettempdir : path := ["tmp"].

(** [tempfile.TMP_MAX]: the number of candidate names tried. *)
Definition TMP_MAX : nat := 100 * 100.

(** The candidate name number [n] with its suffix.  The names of
    [tempfile] are random; here they are numbered. *)
Definition temp_name (n : nat) (suffix : string) : path :=
  join gettempdir ("tmp" +:+ str_Z (Z.of_nat n) +:+ suffix).

(** The loop of [tempfile._mkstemp_inner] and [tempfile.mkdtemp]: the
    node is made under the first candidate name that does not exist; a
    name that exists is passed over, and when [tries] names in a row
    exist the loop gives up. *)
Fixpoint temp_loop (tries : nat) (suffix : string) (made : node) (what : string)
    : M Sys path :=
  match tries with
  | O => raise (mkExn FileExistsError ("No usable temporary " +:+ what +:+ " name found"))
  | S tries' =>
      do s <- get;
      let file := temp_name (temps s) suffix in
      modify (fun s => mkSys (fs s) (tick s) (faults s) (S (temps s))) ;;;
      if exists_in (fs s) file then temp_loop tries' suffix made what
      else modify (set_fs (insert file made)) ;;; ret file
  end.

(** A temporary node is made in [gettempdir()], which has to be a
    directory. *)
Definition fresh_temp (suffix : string) (made : node) (what : string) : M Sys path :=
  do s <- get;
  if isdir_in (fs s) gettempdir then temp_loop TMP_MAX suffix made what
  else raise (mkExn FileNotFoundError "No usable temporary directory found").

(** [tempfile.mkdtemp()]. *)
Definition mkdtemp : M Sys path := fresh_temp "" DirN "directory".

(** [tempfile.NamedTemporaryFile(suffix=..., delete=False)]: the file
    exists, empty, from the moment it is opened. *)
Definition named_temporary_file (suffix : string) : M Sys path :=
  fresh_temp suffix (FileN "") "file".

(** [open(p, "wb")] in a directory the updater just made. *)
Definition create_file (p : path) : M Sys unit :=
  modify (set_fs (insert p (FileN ""))).

(** ** External collaborators *)

Record asset := mkAsset {
  asset_name : string;
  asset_size : Z;
  browser_download_url : string
}.

(** The release metadata; a key that is absent is [None]. *)
Record release := mkRelease {
  tag_name : option string;
  release_name : option string;
  assets : list asset;
  zipball_url : option string
}.

(** A streamed HTTP response that passed [raise_for_status]: the
    announced length, the chunks [iter_content] yields and the error that
    ends the stream early, if any. *)
Record response := mkResponse {
  content_length : Z;
  chunks : list string;
  stream_error : option exn
}.

(** What an archive decoder makes of the downloaded bytes. *)
Inductive unpacked :=
  | BadArchive (e : exn)                       (* opening the archive raises *)
  | ExtractFails (e : exn)                     (* [extractall] raises *)
  | Extracted (entries : list (string * tree)).

Record Env := mkEnv {
  is_frozen : bool;                            (* sys.frozen and sys._MEIPASS *)
  sys_executable : path;
  platform_system : string;
  updater_script : path;                       (* abspath(__file__) of the installer *)
  find_root : option path;                     (* find_root('README.md') *)
  git_available : bool;                        (* shutil.which("git") *)
  git_pull : outcome (string * string);        (* stdout and stderr of [git pull] *)
  get_latest_release_info : outcome release;
  requests_get : string -> outcome response;
  open_zip : string -> unpacked;
  open_7z : string -> unpacked;
  py7zr_available : bool;
  system_7z : string -> option (list (string * tree));
  get_file_lock_info : path -> list (string * string);
  gui_available : bool;
  time_now : Z;                                (* int(time.time()) at the backup *)
  clock_drift : nat -> nat                     (* see [Updater.elapsed] *)
}.

(** The text of a size in megabytes; the decimals of the original
    message are left out. *)
Definition str_mb (bytes : Z) : string := str_Z (bytes / 1024 / 1024).

Definition str_opt (o : option string) : string :=
  match o with Some x => x | None => "unknown" end.

(** [f.write(chunk)] on the open file [p]: the bytes are appended; a
    write the environment refuses raises [OSError], after none or the
    first [n] of the bytes reached the file. *)
Definition append_bytes (p : path) (bytes : string) : M Sys unit :=
  modify (set_fs (fun m =>
    match m !! p with
    | Some (FileN c) => <[p := FileN (c +:+ bytes)]> m
    | _ => <[p := FileN bytes]> m
    end)).

Definition file_write (p : path) (chunk : string) : M Sys unit :=
  do f <- next_fault;
  match f with
  | NoFault => append_bytes p chunk
  | Denied => raise (mkExn OSError ("write failed: " +:+ str_path p))
  | Truncated n =>
      append_bytes p (String.substring 0 n chunk) ;;;
      raise (mkExn OSError ("write failed: " +:+ str_path p))
  end.

(** The chunks written one after the other, with the progress reported
    after each non-empty chunk. *)
Fixpoint write_chunks {X} (report : Z -> string -> M Sys X) (p : path)
    (base span total_size : Z) (cs : list string) (downloaded : Z) : M Sys unit :=
  match cs with
  | [] => ret tt
  | chunk :: cs' =>
      if String.eqb chunk "" then write_chunks report p base span total_size cs' downloaded
      else
        file_write p chunk ;;;
        let downloaded' := downloaded + Z.of_nat (String.length chunk) in
        (if total_size =? 0 then ret tt
         else report (base + downloaded' * span / total_size)
                     ("Downloaded " +:+ str_mb downloaded' +:+ " MB") ;;; ret tt) ;;;
        write_chunks report p base span total_size cs' downloaded'
  end.

(** The body of a download loop on an open file [p]. *)
Definition stream_to {X} (report : Z -> string -> M Sys X) (p : path)
    (base span total_size : Z) (r : response) : M Sys unit :=
  write_chunks report p base span total_size (chunks r) 0 ;;;
  match stream_error r with
  | Some e => raise e
  | None => ret tt
  end.

(** The bytes of a file of the map. *)
Definition read_bytes (p : path) : M Sys string :=
  do s <- get;
  match fs s !! p with
  | Some (FileN c) => ret c
  | Some DirN => raise (mkExn IsADirectoryError ("Is a directory: " +:+ str_path p))
  | None => raise (mkExn FileNotFoundError ("No such file or directory: " +:+ str_path p))
  end.

(** The replacement script written beside the executable.  The batch
    text is kept to the commands that name a path. *)
Definition update_script (exe_path staged_exe : path) : string :=
  "@echo off" +:+
  " :CHECK_PROCESS tasklist " +:+ basename exe_path +:+
  " :RETRY_BACKUP move " +:+ str_path exe_path +:+ " " +:+ str_path exe_path +:+ ".backup" +:+
  " :RETRY_INSTALL move " +:+ str_path staged_exe +:+ " " +:+ str_path exe_path +:+
  " else move " +:+ str_path exe_path +:+ ".backup " +:+ str_path exe_path +:+
  " start " +:+ str_path exe_path +:+
  " del " +:+ str_path exe_path +:+ ".backup" +:+
  " :END del self".

(** ** Version strings *)

(** [c.isspace()] for the characters below 256. *)
Definition is_space (c : ascii) : bool :=
  let n := nat_of_ascii c in
  (((9 <=? n) && (n <=? 13)) || ((28 <=? n) && (n <=? 32)) || (n =? 133) || (n =? 160))%nat.

Fixpoint lstrip (s : string) : string :=
  match s with
  | EmptyString => EmptyString
  | String c s' => if is_space c then lstrip s' else s
  end.

Fixpoint rstrip (s : string) : string :=
  match s with
  | EmptyString => EmptyString
  | String c s' =>
      match rstrip s' with
      | EmptyString => if is_space c then EmptyString else String c EmptyString
      | r => String c r
      end
  end.

(** [s.strip()]. *)
Definition strip (s : string) : string := rstrip (lstrip s).

(** [a > b] on strings: the first differing character decides, by its
    code point; a proper prefix is smaller. *)
Fixpoint str_gt (a b : string) : bool :=
  match a, b with
  | EmptyString, _ => false
  | String _ _, EmptyString => true
  | String x a', String y b' =>
      if (nat_of_ascii y <? nat_of_ascii x)%nat then true
      else if (nat_of_ascii x <? nat_of_ascii y)%nat then false
      else str_gt a' b'
  end.

(** ** [utils/utilities.py]: class [Utilities] *)

(** What [raise None] raises. *)
Definition none_raised : exn := mkExn TypeError "exceptions must derive from BaseException".

Module Utilities.

Definition is_file_locked (file_path : path) : M Sys bool :=
  do ex <- os_path_exists file_path;
  if negb ex then ret false
  else
    try_except
      (open_rw file_path ;;; ret false)
      (fun e => if is_OSError e then ret true else raise e).

Fixpoint wait_loop (file_path : path) (max_attempts : Z) (delay : seconds)
    (remaining : nat) (attempt : Z) : M Sys bool :=
  match remaining with
  | O => ret false
  | S remaining' =>
      do locked <- is_file_locked file_path;
      if negb locked then ret true
      else
        print ("File " +:+ str_path file_path +:+ " is locked, waiting... (attempt "
               +:+ str_Z (attempt + 1) +:+ "/" +:+ str_Z max_attempts +:+ ")") ;;;
        sleep delay ;;;
        wait_loop file_path max_attempts delay remaining' (attempt + 1)
  end.

(** [for attempt in range(max_attempts)] runs [Z.to_nat max_attempts]
    times. *)
Definition wait_for_file_unlock (file_path : path) (max_attempts : Z) (delay : seconds)
    : M Sys bool :=
  wait_loop file_path max_attempts delay (Z.to_nat max_attempts) 0.

(** The loop of [safe_file_operation]; [last_exception] is [None] until
    an attempt failed. *)
Fixpoint safe_loop {St A} (operation : M St A) (max_attempts : Z) (delay : seconds)
    (remaining : nat) (attempt : Z) (last_exception : option exn) : M St A :=
  match remaining with
  | O =>
      match last_exception with
      | Some e => raise e
      | None => raise none_raised
      end
  | S remaining' =>
      fun s =>
        match operation s with
        | (s1, ev1, Returned a) => (s1, ev1, Returned a)
        | (s1, ev1, Raised e) =>
            if is_OSError e then
              match
                ((if attempt <? max_attempts - 1
                  then print ("File operation failed (attempt " +:+ str_Z (attempt + 1)
                              +:+ "/" +:+ str_Z max_attempts +:+ "): " +:+ str_exn e) ;;;
                       sleep delay
                  else print ("File operation failed after " +:+ str_Z max_attempts
                              +:+ " attempts: " +:+ str_exn e)) ;;;
                 safe_loop operation max_attempts delay remaining' (attempt + 1) (Some e)) s1
              with
              | (s2, ev2, r) => (s2, ev1 ++ ev2, r)
              end
            else (s1, ev1, Raised e)
        end
  end.

Definition safe_file_operation {St A} (operation : M St A) (max_attempts : Z)
    (delay : seconds) : M St A :=
  safe_loop operation max_attempts delay (Z.to_nat max_attempts) 0 None.

End Utilities.

(** ** [utils/update_checker.py]: class [UpdateChecker] *)

Module UpdateChecker.

(** The console window of a flow. *)
Definition console_log {St} (message : string) (lvl : level) : M St unit :=
  emit (Log message lvl).
Definition console_set_progress {St} (value : Z) (status : string) : M St unit :=
  emit (Progress value status).
Definition console_enable_restart {St} (cb : restart_action) : M St unit :=
  emit (EnableRestart cb).
Definition messagebox_showerror {St} (title message : string) : M St unit :=
  emit (ShowError title message).

Definition _detect_project_root (directory : list (string * tree)) : bool :=
  forallb (isdir_child directory) ["assets"; "docs"; "ImageMagick"; "setup"; "src"]
  && forallb (isfile_child directory) ["latestVersion.txt"; "LICENSE"; "README.md"].

(** The fallback scan: the first listed directory with the expected
    structure. *)
Fixpoint scan_for_root (extract_dir : path) (extracted : list (string * tree))
    (items : list string) : option (path * list (string * tree)) :=
  match items with
  | [] => None
  | item :: items' =>
      match child extracted item with
      | Some (Dir sub) =>
          if _detect_project_root sub then Some (join extract_dir item, sub)
          else scan_for_root extract_dir extracted items'
      | _ => scan_for_root extract_dir extracted items'
      end
  end.

(** Returns the root found and its entries, or [None]. *)
Definition _find_github_zipball_root (extract_dir : path)
    (extracted : list (string * tree)) : option (path * list (string * tree)) :=
  let extracted_contents := listdir extracted in
  let single :=
    match extracted_contents with
    | [only] =>
        match child extracted only with
        | Some (Dir root) =>
            let root_contents := listdir root in
            if forallb (fun item => name_in item root_contents) ["src"; "README.md"]
            then Some (join extract_dir only, root)
            else None
        | _ => None
        end
    | _ => None
    end in
  match single with
  | Some found => Some found
  | None => scan_for_root extract_dir extracted extracted_contents
  end.

(** The check before a destination file is replaced: a locked file is
    waited for, and a file that stays locked stops the update. *)
Definition wait_until_replaceable (env : Env) (dst : path) : M Sys unit :=
  do ex <- os_path_exists dst;
  do locked <- (if ex then Utilities.is_file_locked dst else ret false);
  if locked then
    console_log ("File " +:+ str_path dst +:+ " is locked, waiting for unlock...") Warning ;;;
    do unlocked <- Utilities.wait_for_file_unlock dst 10 1000;
    if negb unlocked then
      console_log ("Could not unlock " +:+ str_path dst
                   +:+ ", attempting to identify locking process...") Warning ;;;
      for_each (get_file_lock_info env dst) (fun process =>
        console_log ("File locked by process: " +:+ fst process
                     +:+ " (PID: " +:+ snd process +:+ ")") Warning) ;;;
      raise (mkExn Exception ("File " +:+ str_path dst +:+
        " is locked and cannot be replaced. Please close any applications using this file."))
    else ret tt
  else ret tt.

(** The loop of [copy_item] over [os.walk(src_item)]. *)
Definition merge_walk (env : Env) (dst_item : path)
    (steps : list (path * list string * list (string * string))) : M Sys unit :=
  for_each steps (fun step =>
    let rel_path := fst (fst step) in
    let files := snd step in
    let target_dir := match rel_path with [] => dst_item | _ => dst_item ++ rel_path end in
    os_makedirs target_dir ;;;
    console_log ("Copying files from " +:+ str_path rel_path +:+ " to "
                 +:+ str_path target_dir) Info ;;;
    for_each files (fun f =>
      let dst_file := join target_dir (fst f) in
      wait_until_replaceable env dst_file ;;;
      Utilities.safe_file_operation (shutil_copy2 (fst f) (snd f) dst_file) 3 2000 ;;;
      ret tt)).

Definition copy_item (env : Env) (src_name : string) (src_item : tree) (dst_item : path)
    : M Sys unit :=
  match src_item with
  | Dir _ =>
      do ex <- os_path_exists dst_item;
      if ex then
        console_log ("Merging directory: " +:+ src_name) Info ;;;
        merge_walk env dst_item (os_walk [] src_item)
      else
        console_log ("Copying directory: " +:+ src_name) Info ;;;
        Utilities.safe_file_operation (shutil_copytree src_item dst_item) 3 2000
  | File content =>
      console_log ("Copying file: " +:+ src_name) Info ;;;
      wait_until_replaceable env dst_item ;;;
      Utilities.safe_file_operation (shutil_copy2 src_name content dst_item) 3 2000 ;;;
      ret tt
  end.

(** The loop over [items_to_copy] in [update_source]. *)
Definition copy_items (env : Env) (root : list (string * tree)) (project_root : path)
    (items_to_copy : list string) : M Sys unit :=
  for_each items_to_copy (fun item =>
    match child root item with
    | Some src_item => copy_item env item src_item (join project_root item)
    | None => console_log ("Warning: " +:+ item +:+ " not found in source archive") Warning
    end).

(** [with zipfile.ZipFile(tmp_path) as zip_ref: extract_dir = mkdtemp();
    ...; zip_ref.extractall(extract_dir)]. *)
Definition extract_zip (env : Env) (tmp_path : path) : M Sys (path * list (string * tree)) :=
  do bytes <- read_bytes tmp_path;
  match open_zip env bytes with
  | BadArchive e => raise e
  | ExtractFails e =>
      do extract_dir <- mkdtemp;
      console_log ("Extracting to: " +:+ str_path extract_dir) Info ;;;
      raise e
  | Extracted entries =>
      do extract_dir <- mkdtemp;
      console_log ("Extracting to: " +:+ str_path extract_dir) Info ;;;
      modify (set_fs (write_tree extract_dir (Dir entries))) ;;;
      ret (extract_dir, entries)
  end.

(** The archive branch of [update_source]. *)
Definition update_from_archive (env : Env) (project_root : path) : M Sys unit :=
  console_log "Git not available or missing repository structure, downloading source archive..." Info ;;;
  console_set_progress 10 "Fetching release information..." ;;;
  do info <- lift (get_latest_release_info env);
  do zip_url <- match zipball_url info with
                | Some u => ret u
                | None => raise (mkExn KeyError "zipball_url")
                end;
  console_log ("Found latest release: " +:+ str_opt (tag_name info)) Info ;;;
  console_log ("Download URL: " +:+ zip_url) Info ;;;
  console_set_progress 20 "Downloading source archive..." ;;;
  console_log "Starting download..." Info ;;;
  do resp <- lift (requests_get env zip_url);
  let total_size := content_length resp in
  console_log ("Download size: " +:+ str_mb total_size +:+ " MB") Info ;;;
  do tmp_path <- named_temporary_file ".zip";
  stream_to console_set_progress tmp_path 20 40 total_size resp ;;;
  console_log ("Download complete: " +:+ str_path tmp_path) Success ;;;
  console_set_progress 60 "Extracting archive..." ;;;
  do '(extract_dir, extracted) <- extract_zip env tmp_path;
  console_set_progress 70 "Detecting GitHub zipball structure..." ;;;
  match _find_github_zipball_root extract_dir extracted with
  | None =>
      raise (mkExn Exception "Could not find GitHub zipball root directory in extracted archive")
  | Some (source_project_root, root) =>
      console_log ("Found GitHub zipball root: " +:+ str_path source_project_root) Success ;;;
      console_log ("Zipball contains: " +:+ comma_join (listdir root)) Info ;;;
      console_set_progress 80 "Copying files..." ;;;
      let optional_items := List.filter (fun item => exists_child root item) [".gitignore"] in
      let items_to_copy :=
        ["assets"; "docs"; "ImageMagick"; "setup"; "src";
         "latestVersion.txt"; "LICENSE"; "README.md"] ++ optional_items in
      for_each optional_items (fun item =>
        console_log ("Found optional item: " +:+ item) Info) ;;;
      console_log "Copying project files and folders..." Info ;;;
      copy_items env root project_root items_to_copy ;;;
      console_log "All files and folders copied successfully." Success ;;;
      os_remove tmp_path ;;;
      Utilities.safe_file_operation (shutil_rmtree_ignore_errors extract_dir) 3 1000 ;;;
      console_log "Cleanup completed" Info ;;;
      console_set_progress 100 "Update complete!" ;;;
      console_log "Source code update completed successfully!" Success ;;;
      console_log "Please restart the application to use the updated version." Info ;;;
      console_enable_restart RestartPython
  end.

(** The [git pull] branch of [update_source]. *)
Definition update_by_git_pull (env : Env) (project_root : path) : M Sys unit :=
  console_log "Git repository detected with .github folder and .gitignore" Info ;;;
  console_log ("Attempting git pull in " +:+ str_path project_root +:+ "...") Info ;;;
  console_set_progress 10 "Running git pull..." ;;;
  try_except
    (do out <- lift (git_pull env);
     console_log ("Git pull output: " +:+ strip (fst out)) Success ;;;
     (if String.eqb (snd out) "" then ret tt
      else console_log ("Git warnings: " +:+ strip (snd out)) Warning) ;;;
     console_set_progress 100 "Update complete!" ;;;
     console_log "Source code updated successfully via git pull!" Success ;;;
     console_log "Please restart the application to use the updated version." Info ;;;
     console_enable_restart RestartPython)
    (fun e =>
       match exn_cls e with
       | CalledProcessError =>
           console_log "Git pull failed" Error ;;;
           console_log ("Error output: " +:+ str_exn e) Error ;;;
           raise e
       | _ => raise e
       end).

(** The [try] block of [do_update] in [update_source]. *)
Definition update_source_body (env : Env) : M Sys unit :=
  console_log "Starting source code update process..." Info ;;;
  console_set_progress 5 "Checking update method..." ;;;
  match find_root env with
  | None => raise (mkExn Exception "Could not determine project root (README.md not found)")
  | Some project_root =>
      console_log ("Current project root: " +:+ str_path project_root) Info ;;;
      do s <- get;
      if git_available env
         && isdir_in (fs s) (join project_root ".git")
         && isdir_in (fs s) (join project_root ".github")
         && isfile_in (fs s) (join project_root ".gitignore")
      then update_by_git_pull env project_root
      else update_from_archive env project_root
  end.

(** [do_update] of [update_source], as the worker thread runs it. *)
Definition update_source (env : Env) : M Sys unit :=
  try_except (update_source_body env)
    (fun e =>
       console_log ("Update failed: " +:+ str_exn e) Error ;;;
       console_set_progress 0 "Update failed!" ;;;
       messagebox_showerror "Update Failed" ("Source update failed: " +:+ str_exn e)).

(** *** [update_exe] *)

(** The first asset whose name ends in [.7z]; every asset looked at is
    logged. *)
Fixpoint pick_7z_asset (l : list asset) : M Sys (option asset) :=
  match l with
  | [] => ret None
  | a :: l' =>
      console_log ("Available asset: " +:+ asset_name a +:+ " ("
                   +:+ str_Z (asset_size a) +:+ " bytes)") Info ;;;
      if endswith (asset_name a) ".7z" then ret (Some a) else pick_7z_asset l'
  end.

(** The executables below the extraction directory, in the order of
    [os.walk]: full path, file name, content. *)
Definition walk_executables (extract_dir : path) (extracted : list (string * tree))
    : list (path * string * string) :=
  flat_map
    (fun step =>
       map (fun f => (extract_dir ++ fst (fst step) ++ [fst f], fst f, snd f))
           (List.filter (fun f => endswith (lower (fst f)) ".exe") (snd step)))
    (os_walk [] (Dir extracted)).

(** A file named like the running executable wins; otherwise the first
    executable found stays. *)
Fixpoint choose_executable (current_exe_name : string)
    (found : list (path * string * string)) (new_exe : option (path * string))
    : M Sys (option (path * string)) :=
  match found with
  | [] => ret new_exe
  | (full_path, file, content) :: found' =>
      console_log ("Found executable: " +:+ str_path full_path) Info ;;;
      choose_executable current_exe_name found'
        (if String.eqb (lower file) current_exe_name then Some (full_path, content)
         else match new_exe with
              | None => Some (full_path, content)
              | Some _ => new_exe
              end)
  end.

(** What the staging step needs from the steps before it. *)
Record staging := mkStaging {
  exe_path : path;            (* the running executable *)
  temp_dir : path;            (* the session's temporary directory *)
  new_exe_path : path;        (* the new executable inside it *)
  new_exe_content : string
}.

Definition staged_exe (c : staging) : path := add_suffix (exe_path c) ".new".
Definition bat_path (c : staging) : path := add_suffix (exe_path c) ".update.bat".

(** From the start of [do_update] to the choice of the new executable.
    [None] stands for a [return] of the flow in this part. *)
Definition prepare_exe_update (env : Env) : M Sys (option staging) :=
  console_log "Starting executable update process..." Info ;;;
  console_set_progress 5 "Fetching release information..." ;;;
  do info <- lift (get_latest_release_info env);
  console_log ("Found latest release: " +:+ str_opt (tag_name info)) Info ;;;
  console_log ("Release name: " +:+ str_opt (release_name info)) Info ;;;
  do z7_asset <- pick_7z_asset (assets info);
  match z7_asset with
  | None =>
      console_log "No .7z asset found in latest release" Error ;;;
      console_set_progress 0 "Update failed!" ;;;
      messagebox_showerror "Update Failed" "No .7z asset found in latest release." ;;;
      ret None
  | Some z7_asset =>
      console_log ("Using asset: " +:+ asset_name z7_asset) Success ;;;
      console_log ("Asset size: " +:+ str_mb (asset_size z7_asset) +:+ " MB") Info ;;;
      let z7_url := browser_download_url z7_asset in
      let exe_path := sys_executable env in
      console_log ("Current executable: " +:+ str_path exe_path) Info ;;;
      console_set_progress 10 "Preparing temporary directory..." ;;;
      do temp_dir <- mkdtemp;
      console_log ("Temporary directory: " +:+ str_path temp_dir) Info ;;;
      let z7_path := join temp_dir (asset_name z7_asset) in
      console_set_progress 15 "Downloading update..." ;;;
      console_log "Starting download..." Info ;;;
      do resp <- lift (requests_get env z7_url);
      let total_size := content_length resp in
      create_file z7_path ;;;
      stream_to console_set_progress z7_path 15 30 total_size resp ;;;
      console_log ("Download complete: " +:+ str_path z7_path) Success ;;;
      console_set_progress 45 "Extracting update archive..." ;;;
      let extract_dir := join temp_dir "extracted" in
      os_makedirs extract_dir ;;;
      console_log ("Extracting to: " +:+ str_path extract_dir) Info ;;;
      do extracted <-
        try_except
          (do bytes <- read_bytes z7_path;
           match open_7z env bytes with
           | BadArchive e => raise e
           | ExtractFails e =>
               console_log "Archive opened, extracting" Info ;;; raise e
           | Extracted entries =>
               console_log ("Archive contains " +:+ str_Z (Z.of_nat (length (archive_names entries)))
                            +:+ " files") Info ;;;
               modify (set_fs (write_tree extract_dir (Dir entries))) ;;;
               console_log "Extraction completed successfully" Success ;;;
               ret (Some entries)
           end)
          (fun e =>
             console_log ("Extraction failed: " +:+ str_exn e) Error ;;;
             console_log "Make sure the .7z file is valid and not corrupted" Error ;;;
             shutil_rmtree_ignore_errors temp_dir ;;;
             console_set_progress 0 "Update failed!" ;;;
             messagebox_showerror "Update Failed" ("Extraction failed: " +:+ str_exn e) ;;;
             ret None);
      match extracted with
      | None => ret None
      | Some entries =>
          console_set_progress 70 "Searching for new executable..." ;;;
          do new_exe <- choose_executable (lower (basename exe_path))
                          (walk_executables extract_dir entries) None;
          match new_exe with
          | None =>
              console_log "No executable (.exe) found in extracted update" Error ;;;
              shutil_rmtree_ignore_errors temp_dir ;;;
              console_set_progress 0 "Update failed!" ;;;
              messagebox_showerror "Update Failed" "No executable found in extracted update." ;;;
              ret None
          | Some (new_exe_path, content) =>
              console_log ("Using executable: " +:+ str_path new_exe_path) Success ;;;
              console_set_progress 80 "Preparing replacement..." ;;;
              ret (Some (mkStaging exe_path temp_dir new_exe_path content))
          end
      end
  end.

(** The staging step: the new executable is copied to the path of the
    running one with [.new] appended. *)
Definition stage_new_executable (env : Env) (c : staging) : M Sys unit :=
  console_log ("Staging new executable: " +:+ str_path (staged_exe c)) Info ;;;
  do locked <- Utilities.is_file_locked (exe_path c);
  (if locked then
     console_log "Current executable is locked, waiting for unlock..." Warning ;;;
     for_each (get_file_lock_info env (exe_path c)) (fun process =>
       console_log ("Executable locked by process: " +:+ fst process
                    +:+ " (PID: " +:+ snd process +:+ ")") Warning)
   else ret tt) ;;;
  do ex <- os_path_exists (staged_exe c);
  do staged_locked <- (if ex then Utilities.is_file_locked (staged_exe c) else ret false);
  (if staged_locked then
     console_log "Staged executable location is locked, waiting for unlock..." Warning ;;;
     do unlocked <- Utilities.wait_for_file_unlock (staged_exe c) 5 2000;
     if negb unlocked then
       console_log "Removing existing staged file that cannot be unlocked..." Warning ;;;
       try_except (os_remove (staged_exe c))
         (fun e =>
            if is_OSError e then
              console_log ("Could not remove locked staged file: " +:+ str_exn e) Error ;;;
              raise (mkExn Exception ("Cannot stage new executable: "
                                      +:+ str_path (staged_exe c) +:+ " is locked"))
            else raise e)
     else ret tt
   else ret tt) ;;;
  Utilities.safe_file_operation
    (shutil_copy2 (basename (new_exe_path c)) (new_exe_content c) (staged_exe c)) 3 2000 ;;;
  ret tt.

(** From the check of the staged file to the restart hook. *)
Definition finish_exe_update (c : staging) : M Sys unit :=
  do ex <- os_path_exists (staged_exe c);
  if negb ex then
    console_log "Failed to stage new executable" Error ;;;
    shutil_rmtree_ignore_errors (temp_dir c) ;;;
    console_set_progress 0 "Update failed!" ;;;
    messagebox_showerror "Update Failed" "Failed to stage new executable."
  else
    do s <- get;
    let staged_size := match fs s !! staged_exe c with
                       | Some (FileN bytes) => Z.of_nat (String.length bytes)
                       | _ => 0
                       end in
    console_log ("Staged executable size: " +:+ str_mb staged_size +:+ " MB") Info ;;;
    console_set_progress 90 "Creating update script..." ;;;
    console_log ("Creating update script: " +:+ str_path (bat_path c)) Info ;;;
    write_text (bat_path c) (update_script (exe_path c) (staged_exe c)) ;;;
    shutil_rmtree_ignore_errors (temp_dir c) ;;;
    console_log "Temporary files cleaned up" Info ;;;
    console_set_progress 100 "Update ready!" ;;;
    console_log "Executable update preparation completed successfully!" Success ;;;
    console_log "The application will be replaced when you restart." Info ;;;
    console_log ("Update script created: " +:+ str_path (bat_path c)) Info ;;;
    console_enable_restart (StartScript (bat_path c)).

(** The [try] block of [do_update] in [update_exe]. *)
Definition update_exe_body (env : Env) : M Sys unit :=
  do prepared <- prepare_exe_update env;
  match prepared with
  | None => ret tt
  | Some c => stage_new_executable env c ;;; finish_exe_update c
  end.

(** [do_update] of [update_exe], as the worker thread runs it. *)
Definition update_exe (env : Env) : M Sys unit :=
  try_except (update_exe_body env)
    (fun e =>
       console_log ("Executable update failed: " +:+ str_exn e) Error ;;;
       console_set_progress 0 "Update failed!" ;;;
       messagebox_showerror "Update Failed" ("Executable update failed: " +:+ str_exn e)).

(** *** [check_for_updates] *)

(** What [check_for_updates] gets from its collaborators: the text of
    the version marker or the exception of the request, what creating
    the hidden Tk root, asking the user and starting a flow do. *)
Record CheckEnv := mkCheckEnv {
  fetch_latest : outcome string;
  frozen : bool;
  tk_root : outcome unit;
  askyesno : outcome bool;
  start_flow : flow -> outcome unit
}.

(** [UpdateChecker.update_exe()] or [update_source()] as the caller
    sees it: the console window is made and the worker thread
    started. *)
Definition start_update {St} (env : CheckEnv) (f : flow) : M St unit :=
  lift (start_flow env f) ;;; emit (StartUpdate f).

(** The text of the dialog that asks for the update. *)
Definition update_question (env : CheckEnv) (current_version latest_version : string)
    : string :=
  let nl := String (ascii_of_nat 10) EmptyString in
  let update_type := if frozen env then "executable" else "source code" in
  "An update is available!" +:+ nl +:+ nl +:+
  "Current version: " +:+ current_version +:+ nl +:+
  "Latest version: " +:+ latest_version +:+ nl +:+ nl +:+
  "Update method: " +:+ update_type +:+ nl +:+ nl +:+
  "Do you want to download and install it now?" +:+ nl +:+
  "The application will restart after updating.".

Definition check_for_updates_body {St} (env : CheckEnv) (current_version : string)
    (auto_update : bool) (parent_window : bool) : M St unit :=
  print ("Checking for updates... Current version: " +:+ current_version) ;;;
  do text <- lift (fetch_latest env);
  let latest_version := strip text in
  print ("Latest version available: " +:+ latest_version) ;;;
  if str_gt latest_version current_version then
    print "Update available!" ;;;
    (if parent_window then ret tt
     else lift (tk_root env) ;;; emit TkCreate ;;; emit TkWithdraw) ;;;
    (if auto_update then
       print "Auto-update enabled, starting update process..." ;;;
       if frozen env then
         print "Running as executable, using executable update method" ;;;
         start_update env ExeFlow
       else
         print "Running from source, using source update method" ;;;
         start_update env SourceFlow
     else
       emit (AskYesNo "Update Available"
               (update_question env current_version latest_version)) ;;;
       do answer <- lift (askyesno env);
       if answer then
         print "User chose to update." ;;;
         if frozen env then
           print "Starting executable update..." ;;;
           start_update env ExeFlow
         else
           print "Starting source update..." ;;;
           start_update env SourceFlow
       else print "User chose not to update.") ;;;
    (if parent_window then ret tt else emit TkDestroy)
  else
    print "You are using the latest version of the application.".

(** [parent_window] tells whether a parent window was passed. *)
Definition check_for_updates {St} (env : CheckEnv) (current_version : string)
    (auto_update : bool) (parent_window : bool) : M St unit :=
  try_except (check_for_updates_body env current_version auto_update parent_window)
    (fun err =>
       match exn_cls err with
       | Timeout =>
           print "Update check timed out - no internet connection or server not responding"
       | ConnectionError =>
           print "No internet connection available for update check"
       | RequestException | HTTPError =>
           print ("Network error during update check: " +:+ str_exn err)
       | _ =>
           print ("Unexpected error during update check: " +:+ str_exn err) ;;;
           print "Traceback (most recent call last)"
       end).

End UpdateChecker.

(** ** [utils/update_installer.py]: class [UpdateUtilities] *)

Module UpdateUtilities.

Definition is_file_locked (file_path : path) : M Sys bool :=
  do ex <- os_path_exists file_path;
  if negb ex then ret false
  else
    try_except
      (open_rw file_path ;;; ret false)
      (fun e => if is_OSError e then ret true else raise e).

Fixpoint wait_loop (file_path : path) (delay : seconds) (remaining : nat) : M Sys bool :=
  match remaining with
  | O => ret false
  | S remaining' =>
      do locked <- is_file_locked file_path;
      if negb locked then ret true
      else sleep delay ;;; wait_loop file_path delay remaining'
  end.

Definition wait_for_file_unlock (file_path : path) (max_attempts : Z) (delay : seconds)
    : M Sys bool :=
  wait_loop file_path delay (Z.to_nat max_attempts).

End UpdateUtilities.

(** ** [utils/update_installer.py]: class [Updater] *)

Module Updater.

(** The fields of an [Updater]; [console] tells whether the update
    window exists. *)
Record updater := mkUpdater {
  use_gui : bool;
  exe_mode : bool;
  console : bool
}.

Definition log {St} (self : updater) (message : string) (lvl : level) : M St unit :=
  if console self then emit (Log message lvl)
  else
    print (match lvl with
           | Info => ""
           | Warning => "[WARNING]"
           | Error => "[ERROR]"
           | Success => "[SUCCESS]"
           end +:+ " " +:+ message).

Definition set_progress {St} (self : updater) (progress : Z) (message : string) : M St unit :=
  if console self then emit (Progress progress message)
  else print ("Progress: " +:+ str_Z progress +:+ "% - " +:+ message).

Definition enable_restart {St} (self : updater) (restart_func : restart_action) : M St unit :=
  if console self then emit (EnableRestart restart_func)
  else print "Update complete! Please restart the application manually.".

Definition find_exe_files (directory : list (string * tree)) : list string :=
  List.filter (fun item => isfile_child directory item && endswith (lower item) ".exe")
         (listdir directory).

Definition _detect_project_root (directory : list (string * tree)) (exe_mode : bool) : bool :=
  if exe_mode then
    forallb (isdir_child directory) ["assets"; "ImageMagick"]
    && match find_exe_files directory with [] => false | _ => true end
  else
    forallb (isdir_child directory) ["assets"; "ImageMagick"; "src"]
    && forallb (isfile_child directory) ["latestVersion.txt"; "LICENSE"; "README.md"].

Fixpoint scan_for_root (extract_dir : path) (extracted : list (string * tree))
    (items : list string) : option (path * list (string * tree)) :=
  match items with
  | [] => None
  | item :: items' =>
      match child extracted item with
      | Some (Dir sub) =>
          if _detect_project_root sub false then Some (join extract_dir item, sub)
          else scan_for_root extract_dir extracted items'
      | _ => scan_for_root extract_dir extracted items'
      end
  end.

Definition _find_github_zipball_root (extract_dir : path)
    (extracted : list (string * tree)) : option (path * list (string * tree)) :=
  let extracted_contents := listdir extracted in
  let single :=
    match extracted_contents with
    | [only] =>
        match child extracted only with
        | Some (Dir root) =>
            let root_contents := listdir root in
            let found_indicators :=
              List.filter (fun item => name_in item root_contents)
                     ["src"; "README.md"; "assets"; "ImageMagick"] in
            match found_indicators with
            | [] => None
            | _ => Some (join extract_dir only, root)
            end
        | _ => None
        end
    | _ => None
    end in
  match single with
  | Some found => Some found
  | None => scan_for_root extract_dir extracted extracted_contents
  end.

Definition find_project_root (env : Env) : option path := find_root env.

(** [time.time() - start_time], in milliseconds, at the test of the
    loop of [wait_for_main_app_closure] that follows [round] sleeps: the
    time slept and the time the environment let pass besides.  The
    clock is taken not to run backwards. *)
Definition elapsed (env : Env) (round : nat) : Z :=
  2000 * Z.of_nat round + Z.of_nat (clock_drift env round).

(** The loop of [wait_for_main_app_closure] after [round] sleeps.  When
    the time allowed is over the loop ends with the timeout; [fuel]
    bounds the rounds and is never used up, since every round sleeps two
    seconds. *)
Fixpoint closure_loop (self : updater) (env : Env) (max_wait_seconds : Z)
    (fuel round : nat) : M Sys bool :=
  match fuel with
  | O =>
      log self "Timeout waiting for application closure" Warning ;;;
      ret false
  | S fuel' =>
      if elapsed env round <? max_wait_seconds * 1000 then
        do locked <-
          (if exe_mode self && is_frozen env then
             UpdateUtilities.is_file_locked (sys_executable env)
           else
             match find_project_root env with
             | Some project_root =>
                 let main_py := project_root ++ ["src"; "Main.py"] in
                 do ex <- os_path_exists main_py;
                 if ex then UpdateUtilities.is_file_locked main_py else ret false
             | None => ret false
             end);
        if negb locked then
          log self "Application appears to be closed" Success ;;;
          ret true
        else
          sleep 2000 ;;;
          closure_loop self env max_wait_seconds fuel' (S round)
      else
        log self "Timeout waiting for application closure" Warning ;;;
        ret false
  end.

Definition wait_for_main_app_closure (self : updater) (env : Env) (max_wait_seconds : Z)
    : M Sys bool :=
  log self "Waiting for main application to close..." Info ;;;
  set_progress self 5 "Waiting for application closure..." ;;;
  closure_loop self env max_wait_seconds (S (Z.to_nat ((max_wait_seconds + 1) / 2))) 0.

Definition create_updater_backup (self : updater) (env : Env) : M Sys (option path) :=
  let current_script := updater_script env in
  let backup_script := add_suffix current_script ".backup" in
  try_except
    (copy2_path current_script backup_script ;;;
     log self ("Created updater backup: " +:+ str_path backup_script) Info ;;;
     ret (Some backup_script))
    (fun e =>
       log self ("Warning: Could not create updater backup: " +:+ str_exn e) Warning ;;;
       ret None).

Definition cleanup_updater_backup (self : updater) (env : Env) : M Sys unit :=
  let backup_script := add_suffix (updater_script env) ".backup" in
  try_except
    (do ex <- os_path_exists backup_script;
     if ex then
       os_remove backup_script ;;;
       log self "Cleaned up updater backup" Info
     else ret tt)
    (fun e =>
       log self ("Warning: Could not clean up updater backup: " +:+ str_exn e) Warning).

(** The loop of [_copy_file_with_retry] around its [try] block. *)
Fixpoint copy_retry_loop {St} (self : updater) (attempt_copy : M St unit)
    (shown : string) (max_attempts : Z) (remaining : nat) (attempt : Z) : M St unit :=
  match remaining with
  | O => ret tt
  | S remaining' =>
      try_except attempt_copy
        (fun e =>
           if is_OSError e then
             if attempt <? max_attempts - 1 then
               log self ("Copy attempt " +:+ str_Z (attempt + 1) +:+ " failed for "
                         +:+ shown +:+ ", retrying...") Warning ;;;
               sleep 2000 ;;;
               copy_retry_loop self attempt_copy shown max_attempts remaining' (attempt + 1)
             else raise e
           else raise e)
  end.

Definition _copy_file_with_retry (self : updater) (src_name content : string)
    (dst_file : path) (max_attempts : Z) : M Sys unit :=
  copy_retry_loop self
    (os_makedirs (dirname dst_file) ;;;
     shutil_copy2 src_name content dst_file ;;;
     ret tt)
    (basename dst_file) max_attempts (Z.to_nat max_attempts) 0.

(** The loop of [_merge_directory] over [os.walk(src_dir)]. *)
Definition merge_walk (self : updater) (dst_dir : path)
    (steps : list (path * list string * list (string * string))) : M Sys unit :=
  for_each steps (fun step =>
    let rel_path := fst (fst step) in
    let files := snd step in
    let target_dir := match rel_path with [] => dst_dir | _ => dst_dir ++ rel_path end in
    os_makedirs target_dir ;;;
    for_each files (fun f =>
      _copy_file_with_retry self (fst f) (snd f) (join target_dir (fst f)) 5)).

Definition _merge_directory (self : updater) (src_dir : tree) (dst_dir : path) : M Sys unit :=
  merge_walk self dst_dir (os_walk [] src_dir).

(** A download into a named temporary file. *)
Definition download_to_temp (self : updater) (suffix : string) (base span total_size : Z)
    (resp : response) : M Sys path :=
  do tmp_path <- named_temporary_file suffix;
  stream_to (set_progress self) tmp_path base span total_size resp ;;;
  ret tmp_path.

Definition extract_zip (self : updater) (env : Env) (tmp_path : path) (announce : bool)
    : M Sys (path * list (string * tree)) :=
  do bytes <- read_bytes tmp_path;
  match open_zip env bytes with
  | BadArchive e => raise e
  | ExtractFails e =>
      do extract_dir <- mkdtemp;
      (if announce then log self ("Extracting to: " +:+ str_path extract_dir) Info else ret tt) ;;;
      raise e
  | Extracted entries =>
      do extract_dir <- mkdtemp;
      (if announce then log self ("Extracting to: " +:+ str_path extract_dir) Info else ret tt) ;;;
      modify (set_fs (write_tree extract_dir (Dir entries))) ;;;
      ret (extract_dir, entries)
  end.

Definition main_branch_url : string :=
  "https://github.com/MeguminBOT/TextureAtlas-to-GIF-and-Frames/archive/refs/heads/main.zip".

(** The archive of the release and, when its structure is not found,
    the archive of the main branch: the temporary file, the extraction
    directory and the source root with its entries. *)
Definition obtain_source (self : updater) (env : Env)
    : M Sys (path * path * (path * list (string * tree))) :=
  set_progress self 15 "Fetching release information..." ;;;
  do info <- lift (get_latest_release_info env);
  do zip_url <- match zipball_url info with
                | Some u => ret u
                | None => raise (mkExn KeyError "zipball_url")
                end;
  log self ("Found latest release: " +:+ str_opt (tag_name info)) Info ;;;
  set_progress self 20 "Downloading source archive..." ;;;
  log self "Starting download..." Info ;;;
  do resp <- lift (requests_get env zip_url);
  let total_size := content_length resp in
  log self ("Download size: " +:+ str_mb total_size +:+ " MB") Info ;;;
  do tmp_path <- download_to_temp self ".zip" 20 40 total_size resp;
  log self ("Download complete: " +:+ str_path tmp_path) Success ;;;
  set_progress self 60 "Extracting archive..." ;;;
  do '(extract_dir, extracted) <- extract_zip self env tmp_path true;
  set_progress self 70 "Detecting project structure..." ;;;
  match _find_github_zipball_root extract_dir extracted with
  | Some found => ret (tmp_path, extract_dir, found)
  | None =>
      log self "Release zipball structure not found, trying main branch..." Warning ;;;
      os_remove tmp_path ;;;
      shutil_rmtree_ignore_errors extract_dir ;;;
      log self ("Fallback URL: " +:+ main_branch_url) Info ;;;
      do resp <- lift (requests_get env main_branch_url);
      let total_size := content_length resp in
      do tmp_path <- download_to_temp self ".zip" 25 35 total_size resp;
      do '(extract_dir, extracted) <- extract_zip self env tmp_path false;
      match _find_github_zipball_root extract_dir extracted with
      | Some found => ret (tmp_path, extract_dir, found)
      | None =>
          raise (mkExn Exception
                   "Could not find project structure in either release or main branch")
      end
  end.

(** The loop over [items_to_copy] in [update_source]. *)
Definition copy_items (self : updater) (root : list (string * tree)) (project_root : path)
    (items_to_copy : list string) : M Sys unit :=
  for_each items_to_copy (fun item =>
    let dst_path := join project_root item in
    match child root item with
    | Some src =>
        log self ("Copying " +:+ item +:+ "...") Info ;;;
        try_except
          (match src with
           | Dir _ =>
               do ex <- os_path_exists dst_path;
               if ex then _merge_directory self src dst_path
               else shutil_copytree src dst_path
           | File content => _copy_file_with_retry self item content dst_path 5
           end ;;;
           log self ("Successfully copied " +:+ item) Success)
          (fun e => log self ("Failed to copy " +:+ item +:+ ": " +:+ str_exn e) Error)
    | None => log self ("Warning: " +:+ item +:+ " not found in source") Warning
    end).

(** The [try] block of [update_source]. *)
Definition update_source_body (self : updater) (env : Env) : M Sys unit :=
  log self "Starting standalone source code update..." Info ;;;
  set_progress self 10 "Finding project root..." ;;;
  match find_project_root env with
  | None => raise (mkExn Exception "Could not determine project root (README.md not found)")
  | Some project_root =>
      log self ("Project root: " +:+ str_path project_root) Info ;;;
      do active_updater <- create_updater_backup self env;
      do closed <- wait_for_main_app_closure self env 30;
      (if negb closed
       then log self "Continuing update despite locked files (may fail)..." Warning
       else ret tt) ;;;
      do '(tmp_path, extract_dir, (source_project_root, root)) <- obtain_source self env;
      log self ("Found source root: " +:+ str_path source_project_root) Success ;;;
      log self ("Source contains: " +:+ comma_join (listdir root)) Info ;;;
      set_progress self 80 "Copying files..." ;;;
      let optional_items :=
        List.filter (fun item => exists_child root item) [".gitignore"; ".github"; "docs"; "setup"] in
      for_each optional_items (fun item =>
        log self ("Found optional item: " +:+ item) Info) ;;;
      copy_items self root project_root
        (["assets"; "ImageMagick"; "src"; "latestVersion.txt"; "LICENSE"; "README.md"]
         ++ optional_items) ;;;
      os_remove tmp_path ;;;
      shutil_rmtree_ignore_errors extract_dir ;;;
      log self "Cleanup completed" Info ;;;
      cleanup_updater_backup self env ;;;
      set_progress self 100 "Update complete!" ;;;
      log self "Source code update completed successfully!" Success ;;;
      log self "Please restart the application to use the updated version." Info ;;;
      enable_restart self (RestartMain (project_root ++ ["src"; "Main.py"]))
  end.

(** The handler at the end of both flows. *)
Definition report_failure (self : updater) (env : Env) (what title : string) (e : exn)
    : M Sys unit :=
  log self (what +:+ str_exn e) Error ;;;
  set_progress self 0 "Update failed!" ;;;
  if console self && gui_available env
  then emit (ShowError "Update Failed" (title +:+ str_exn e))
  else ret tt.

Definition update_source (self : updater) (env : Env) : M Sys unit :=
  try_except (update_source_body self env)
    (report_failure self env "Update failed: " "Standalone update failed: ").

(** *** [update_exe] *)

(** [UpdateUtilities.extract_7z]: [None] stands for [False]. *)
Definition extract_7z (env : Env) (archive_path extract_dir : path)
    : M Sys (option (list (string * tree))) :=
  do bytes <- read_bytes archive_path;
  if py7zr_available env then
    match open_7z env bytes with
    | BadArchive e => raise e
    | ExtractFails e => raise e
    | Extracted entries =>
        modify (set_fs (write_tree extract_dir (Dir entries))) ;;;
        ret (Some entries)
    end
  else
    match system_7z env bytes with
    | Some entries =>
        modify (set_fs (write_tree extract_dir (Dir entries))) ;;;
        ret (Some entries)
    | None => ret None
    end.

Fixpoint first_7z_asset (l : list asset) : option asset :=
  match l with
  | [] => None
  | a :: l' => if endswith (lower (asset_name a)) ".7z" then Some a else first_7z_asset l'
  end.

(** The release root of an executable package: the extraction
    directory, or its single sub-directory when that holds an
    executable. *)
Definition release_root_of (extract_dir : path) (extracted : list (string * tree))
    : path * list (string * tree) :=
  match listdir extracted with
  | [only] =>
      match child extracted only with
      | Some (Dir contents) =>
          if existsb (fun item => endswith (lower item) ".exe") (listdir contents)
          then (join extract_dir only, contents)
          else (extract_dir, extracted)
      | _ => (extract_dir, extracted)
      end
  | _ => (extract_dir, extracted)
  end.

(** The installation of one item of [update_exe]. *)
Definition install_item (self : updater) (item : string) (src : tree) (dst_path : path)
    : M Sys unit :=
  match src with
  | Dir _ =>
      do ex <- os_path_exists dst_path;
      if ex then _merge_directory self src dst_path
      else shutil_copytree src dst_path
  | File content =>
      do ex <- os_path_exists dst_path;
      (if endswith (lower item) ".exe" && ex then
         let backup_name := add_suffix dst_path ".old" in
         do old <- os_path_exists backup_name;
         (if old then try_except (os_remove backup_name) (fun _ => ret tt) else ret tt) ;;;
         try_except
           (os_rename dst_path backup_name ;;;
            log self ("Renamed old executable to " +:+ str_path backup_name) Info)
           (fun e => log self ("Could not rename old executable: " +:+ str_exn e) Warning)
       else ret tt) ;;;
      _copy_file_with_retry self item content dst_path 5
  end.

(** The loop over [items_to_copy] in [update_exe]. *)
Definition install_items (self : updater) (release : list (string * tree)) (app_root : path)
    (items_to_copy : list string) : M Sys unit :=
  for_each items_to_copy (fun item =>
    let dst_path := join app_root item in
    match child release item with
    | Some src =>
        log self ("Installing " +:+ item +:+ "...") Info ;;;
        try_except
          (install_item self item src dst_path ;;;
           log self ("Successfully installed " +:+ item) Success)
          (fun e =>
             log self ("Failed to install " +:+ item +:+ ": " +:+ str_exn e) Error ;;;
             if endswith (lower item) ".exe" then raise e else ret tt)
    | None => log self ("Warning: " +:+ item +:+ " not found in release") Warning
    end).

(** The [try] block of [update_exe]. *)
Definition update_exe_body (self : updater) (env : Env) : M Sys unit :=
  log self "Starting executable update..." Info ;;;
  (if String.eqb (platform_system env) "Windows" then ret tt
   else raise (mkExn Exception
                 ("Executable updates are only supported on Windows currently. Current platform: "
                  +:+ platform_system env))) ;;;
  set_progress self 10 "Finding application directory..." ;;;
  do '(app_root, current_exe) <-
    (if is_frozen env then ret (dirname (sys_executable env), Some (sys_executable env))
     else match find_project_root env with
          | Some root => ret (root, None)
          | None => raise (mkExn Exception "Could not determine application directory")
          end);
  log self ("Application directory: " +:+ str_path app_root) Info ;;;
  do closed <- wait_for_main_app_closure self env 30;
  (if negb closed
   then log self "Continuing update despite locked files (may fail)..." Warning
   else ret tt) ;;;
  set_progress self 15 "Fetching release information..." ;;;
  do info <- lift (get_latest_release_info env);
  log self ("Found latest release: " +:+ str_opt (tag_name info)) Info ;;;
  match first_7z_asset (assets info) with
  | None => raise (mkExn Exception "No .7z release file found in latest release")
  | Some seven_z_asset =>
      let download_url := browser_download_url seven_z_asset in
      let file_size := asset_size seven_z_asset in
      log self ("Downloading: " +:+ asset_name seven_z_asset) Info ;;;
      log self ("Size: " +:+ str_mb file_size +:+ " MB") Info ;;;
      set_progress self 20 "Downloading executable archive..." ;;;
      do resp <- lift (requests_get env download_url);
      do tmp_path <- download_to_temp self ".7z" 20 40 file_size resp;
      log self ("Download complete: " +:+ str_path tmp_path) Success ;;;
      set_progress self 60 "Extracting archive..." ;;;
      do extract_dir <- mkdtemp;
      log self ("Extracting to: " +:+ str_path extract_dir) Info ;;;
      do extracted <- extract_7z env tmp_path extract_dir;
      match extracted with
      | None =>
          raise (mkExn Exception
            "Failed to extract 7z archive. Make sure py7zr is installed or 7z command is available.")
      | Some extracted =>
          set_progress self 70 "Detecting release structure..." ;;;
          log self ("Extracted contents: " +:+ comma_join (listdir extracted)) Info ;;;
          let '(release_root, release) := release_root_of extract_dir extracted in
          log self ("Release contents: " +:+ comma_join (listdir release)) Info ;;;
          let exe_files := find_exe_files release in
          match exe_files with
          | [] => raise (mkExn Exception "No executable files found in release")
          | _ =>
              log self ("Found executables: " +:+ comma_join exe_files) Info ;;;
              set_progress self 80 "Installing update..." ;;;
              do have_exe <- match current_exe with
                             | Some exe => os_path_exists exe
                             | None => ret false
                             end;
              (match current_exe with
               | Some exe =>
                   if have_exe then
                     let backup_dir :=
                       join gettempdir ("app_backup_" +:+ str_Z (time_now env)) in
                     os_makedirs backup_dir ;;;
                     let backup_exe := join backup_dir (basename exe) in
                     try_except
                       (copy2_path exe backup_exe ;;;
                        log self ("Backed up current executable to: "
                                  +:+ str_path backup_exe) Info)
                       (fun e => log self ("Warning: Could not backup current executable: "
                                           +:+ str_exn e) Warning)
                   else ret tt
               | None => ret tt
               end) ;;;
              let optional_items :=
                List.filter (fun item => exists_child release item) ["docs"; ".gitignore"] in
              install_items self release app_root
                (["assets"; "ImageMagick"; "LICENSE"; "README.md"] ++ exe_files
                 ++ optional_items) ;;;
              os_remove tmp_path ;;;
              shutil_rmtree_ignore_errors extract_dir ;;;
              log self "Cleanup completed" Info ;;;
              set_progress self 100 "Update complete!" ;;;
              log self "Executable update completed successfully!" Success ;;;
              log self "Please restart the application to use the updated version." Info ;;;
              enable_restart self (RestartExe exe_files app_root)
          end
      end
  end.

Definition update_exe (self : updater) (env : Env) : M Sys unit :=
  try_except (update_exe_body self env)
    (report_failure self env "Executable update failed: " "Executable update failed: ").

End Updater.

(** ** Instrumentation used by the statements *)

(** An operation that also appends the outcome of each of its invocations
    to a history kept beside its own state.  Running a wrapper on the
    instrumented operation shows how often, and with what outcomes, the
    wrapper invoked it. *)
Definition recorded {St A} (operation : M St A) : M (St * list (outcome A)) A :=
  fun sh =>
    match operation (fst sh) with
    | (s1, ev1, r) => ((s1, snd sh ++ [r]), ev1, r)
    end.


(** What the poll number [i + 1] from state [s] on finds: a missing path
    is not locked, a directory cannot be opened for writing, a regular
    file is locked when the environment denies the open. *)
Definition poll_locked (s : Sys) (p : path) (i : nat) : bool :=
  match fs s !! p with
  | None => false
  | Some DirN => true
  | Some (FileN _) =>
      match faults s (tick s + i)%nat with
      | NoFault => false
      | _ => true
      end
  end.

(** A schedule given by its first decisions; later calls go through. *)
Definition schedule (l : list fault) : nat -> fault := fun i => nth i l NoFault.

(** The state after one poll of [p]: only the attempt to open a regular
    file is a system call of the schedule. *)
Definition after_poll (s : Sys) (p : path) : Sys :=
  match fs s !! p with
  | Some (FileN _) => mkSys (fs s) (S (tick s)) (faults s) (temps s)
  | _ => s
  end.




(** The node of a tree at a relative path. *)
Fixpoint lookup_tree (t : tree) (p : path) : option tree :=
  match p with
  | [] => Some t
  | name :: p' =>
      match t with
      | Dir entries =>
          match child entries name with
          | Some t' => lookup_tree t' p'
          | None => None
          end
      | File _ => None
      end
  end.

(** No name occurs twice in a list. *)
Fixpoint distinct (names : list string) : bool :=
  match names with
  | [] => true
  | n :: names' => negb (name_in n names') && distinct names'
  end.

(** The names of every directory of a tree are distinct, as they are in
    a directory listing. *)
Fixpoint unique_names (t : tree) : bool :=
  match t with
  | File _ => true
  | Dir entries => distinct (listdir entries) && forallb (fun e => unique_names (snd e)) entries
  end.

(** [m'] differs from [m] at [q] at most by a directory made on the way
    to [base]. *)
Definition dir_added (base : path) (m m' : gmap (list string) node) (q : path) : Prop :=
  m' !! q = m !! q \/
  (m !! q = None /\ m' !! q = Some DirN /\ q `prefix_of` base /\ q <> []).

(** [q] is where the file of [src] holding [c] goes below [dst]. *)
Definition file_target (src : tree) (dst : path) (q : path) (c : string) : Prop :=
  exists p, q = dst ++ p /\ lookup_tree src p = Some (File c).

(** How a merge may move the file system from [m] to [m']: what is not
    the target of a file stays, a target does not become a directory, and
    a target that holds its file keeps it. *)
Definition merge_progress (target : path -> string -> Prop)
    (m m' : gmap (list string) node) : Prop :=
  (forall q x, (forall c, ~ target q c) -> m !! q = Some x -> m' !! q = Some x) /\
  (forall q c, target q c -> m !! q <> Some DirN -> m' !! q <> Some DirN) /\
  (forall q c, target q c -> m !! q = Some (FileN c) -> m' !! q = Some (FileN c)).

(** An event other than the enabling of the restart hook. *)
Definition no_restart (e : event) : bool :=
  match e with EnableRestart _ => false | _ => true end.

(** A computation that never enables the restart hook. *)
Definition quiet {St A} (m : M St A) : Prop :=
  forall s, forallb no_restart (events (m s)) = true.


(** The protected paths hold in [s'] what they hold in [s]. *)
Definition frame (protected : path -> Prop) (s s' : Sys) : Prop :=
  forall q, protected q -> fs s' !! q = fs s !! q.

(** A computation that leaves the protected paths alone and whose
    returned value satisfies [Q]. *)
Definition keeps {A} (protected : path -> Prop) (m : M Sys A) (Q : A -> Prop) : Prop :=
  forall s s' evs r, m s = (s', evs, r) ->
    frame protected s s' /\ (forall a, r = Returned a -> Q a).


(** The plain order of strings: a proper prefix is smaller, otherwise the
    first differing character decides by its code. *)
Inductive str_lt : string -> string -> Prop :=
  | str_lt_nil c s : str_lt EmptyString (String c s)
  | str_lt_head c1 c2 s1 s2 :
      (nat_of_ascii c1 < nat_of_ascii c2)%nat -> str_lt (String c1 s1) (String c2 s2)
  | str_lt_tail c s1 s2 : str_lt s1 s2 -> str_lt (String c s1) (String c s2).

Definition is_print (e : event) : bool :=
  match e with Print _ => true | _ => false end.

(** ** Concrete inputs *)


(** An operation that fails with [PermissionError] while its state is
    positive and counts the state down. *)
Definition flaky : M nat string :=
  fun n =>
    match n with
    | O => (O, [], Returned "done")
    | S n' => (n', [], Raised (mkExn PermissionError "locked"))
    end.

(** Scenario A: the marker reads [2.0.0], every collaborator works, the
    application runs from source. *)
Definition scenario_a (marker : string) : UpdateChecker.CheckEnv :=
  UpdateChecker.mkCheckEnv (Returned marker) false (Returned tt) (Returned true)
    (fun _ => Returned tt).

(** A source tree with one file [a], and a destination in which [a] is a
    directory holding a file [a] of its own. *)
Definition one_file : tree := Dir [("a", File "new")].
Definition dir_in_the_way : Sys :=
  mkSys (list_to_map [(["dst"], DirN); (["dst"; "a"], DirN);
                      (["dst"; "a"; "a"], FileN "old")]) 0 (schedule []) 0.

(** A source tree of two levels and a destination that holds an older
    copy and a file of its own. *)
Definition two_levels : list (string * tree) :=
  [("Main.py", File "print(2)"); ("utils", Dir [("util.py", File "u2")])].
Definition older_copy : Sys :=
  mkSys (list_to_map [(["app"], DirN); (["app"; "src"], DirN);
                      (["app"; "src"; "Main.py"], FileN "print(1)");
                      (["app"; "src"; "notes.txt"], FileN "mine")]) 0
        (schedule [Denied]) 0.

(** An environment in which no collaborator is available. *)
Definition no_env : Env :=
  mkEnv false [] "" [] None false (Raised none_raised) (Raised none_raised)
    (fun _ => Raised none_raised) (fun _ => BadArchive none_raised)
    (fun _ => BadArchive none_raised) false (fun _ => None) (fun _ => []) false 0
    (fun _ => O).

(** Scenario B: the archive unpacks to [tmp/xyz-abc123/] holding [src/]
    and [README.md]. *)
Definition scenario_b : list (string * tree) :=
  [("src", Dir [("Main.py", File "print(1)")]); ("README.md", File "readme")].

(** A flat archive: the project lies at the top level of the extraction
    directory, with no wrapper. *)
Definition flat_archive : list (string * tree) :=
  [("assets", Dir [("icon.png", File "png")]); ("docs", Dir []); ("ImageMagick", Dir []);
   ("setup", Dir []); ("src", Dir [("Main.py", File "print(1)")]);
   ("latestVersion.txt", File "2.0.0"); ("LICENSE", File "license");
   ("README.md", File "readme")].

(** A Windows installation at [C:/app], the latest release with its
    [.7z] package and the source archive of the repository. *)
Definition release_2_0_0 : release :=
  mkRelease (Some "v2.0.0") (Some "Two")
    [mkAsset "notes.txt" 10 "u0"; mkAsset "app.7z" 7 "u1"] (Some "zip1").
Definition exe_package : list (string * tree) :=
  [("release", Dir [("assets", Dir [("a.png", File "PNG")]); ("ImageMagick", Dir []);
                    ("App.exe", File "NEW-EXE"); ("README.md", File "r");
                    ("LICENSE", File "l")])].
Definition source_package : list (string * tree) :=
  [("proj-abc", Dir [("assets", Dir [("a.png", File "PNG")]); ("ImageMagick", Dir []);
                     ("src", Dir [("Main.py", File "print(2)")]); ("docs", Dir []);
                     ("setup", Dir []); ("latestVersion.txt", File "2.0.0");
                     ("README.md", File "r"); ("LICENSE", File "l")])].
Definition windows_app : Env :=
  mkEnv true ["C:"; "app"; "App.exe"] "Windows" ["C:"; "app"; "updater.py"]
    (Some ["C:"; "app"]) false (Raised (mkExn CalledProcessError "git pull failed"))
    (Returned release_2_0_0) (fun _ => Returned (mkResponse 7 ["7zBYTES"] None))
    (fun _ => Extracted source_package) (fun _ => Extracted exe_package) true
    (fun _ => None) (fun _ => []) true 1700000000 (fun _ => O).
Definition installed_app : gmap (list string) node :=
  list_to_map [(["tmp"], DirN); (["C:"], DirN); (["C:"; "app"], DirN);
               (["C:"; "app"; "App.exe"], FileN "OLD-EXE");
               (["C:"; "app"; "src"], DirN);
               (["C:"; "app"; "src"; "Main.py"], FileN "print(1)");
               (["C:"; "app"; "README.md"], FileN "old readme")].

(** The installation with the faults that meet its file operations. *)
Definition installed_with (l : list fault) : Sys := mkSys installed_app 0 (schedule l) 0.

(** In the in-application executable flow the staging copy is the
    fourth file operation; here its three attempts are cut after three
    bytes, or refused. *)
Definition truncated_staging : list fault :=
  [NoFault; NoFault; NoFault; Truncated 3; Truncated 3; Truncated 3].
Definition denied_staging : list fault :=
  [NoFault; NoFault; NoFault; Denied; Denied; Denied].


(** The same when, before that, the backup copy (the fourth file
    operation) and the renaming of the executable (the tenth) are
    refused. *)
Definition refused_backup_and_rename : list fault :=
  [NoFault; NoFault; NoFault; Denied; NoFault; NoFault; NoFault; NoFault; NoFault; Denied;
   Truncated 3; Truncated 3; Truncated 3; Truncated 3; Truncated 3].

(** What the in-application flow hands to its staging step in this
    installation. *)
Definition staging_of_windows_app : UpdateChecker.staging :=
  UpdateChecker.mkStaging ["C:"; "app"; "App.exe"] ["tmp"; "tmp0"]
    ["tmp"; "tmp0"; "extracted"; "release"; "App.exe"] "NEW-EXE".

(** The same installation when the downloaded archive unpacks to
    something that is not the project. *)
Definition unrecognised_archive : Env :=
  mkEnv true ["C:"; "app"; "App.exe"] "Windows" ["C:"; "app"; "updater.py"]
    (Some ["C:"; "app"]) false (Raised (mkExn CalledProcessError "git pull failed"))
    (Returned release_2_0_0) (fun _ => Returned (mkResponse 7 ["7zBYTES"] None))
    (fun _ => Extracted [("notes", Dir [("a.txt", File "a")])])
    (fun _ => Extracted exe_package) true
    (fun _ => None) (fun _ => []) true 1700000000 (fun _ => O).


(** * The rest of the cited files *)

(** ** [utils/utilities.py]: the other methods of [Utilities] *)

Module UtilitiesRest.

(** The loop of [find_root]: [root_path] is the directory looked at; the
    loop ends at the directory that is its own parent.  [rounds] is the
    number of directories from the start up to that one. *)
Fixpoint find_root_loop (target_name : string) (rounds : nat) (root_path : path)
    : M Sys (option path) :=
  match rounds with
  | O => ret None
  | S rounds' =>
      let target_path := join root_path target_name in
      do ex <- os_path_exists target_path;
      if ex then
        print ("[find_root] Found '" +:+ target_name +:+ "' at: " +:+ str_path target_path) ;;;
        ret (Some root_path)
      else
        let new_root := dirname root_path in
        if bool_decide (new_root = root_path) then ret None
        else find_root_loop target_name rounds' new_root
  end.

(** [find_root(target_name)]; [here] is
    [os.path.abspath(os.path.dirname(__file__))]. *)
Definition find_root (here : path) (target_name : string) : M Sys (option path) :=
  find_root_loop target_name (S (length here)) here.

Definition count_spritesheets {A} (spritesheet_list : list A) : Z :=
  Z.of_nat (length spritesheet_list).

(** The characters of the class in [replace_invalid_chars], by their
    codes: backslash, slash, colon, asterisk, question mark, double
    quote, less-than, greater-than, vertical bar. *)
Definition invalid_chars : list nat := [92; 47; 58; 42; 63; 34; 60; 62; 124]%nat.

Definition invalid_char (c : ascii) : bool :=
  existsb (Nat.eqb (nat_of_ascii c)) invalid_chars.

Fixpoint map_chars (f : ascii -> ascii) (s : string) : string :=
  match s with
  | EmptyString => EmptyString
  | String c s' => String (f c) (map_chars f s')
  end.

(** [re.sub(class, '_', name).rstrip()]. *)
Definition replace_invalid_chars (name : string) : string :=
  rstrip (map_chars (fun c => if invalid_char c then "_"%char else c) name).

(** [\d] on the characters below 256. *)
Definition is_digit (c : ascii) : bool :=
  ((48 <=? nat_of_ascii c) && (nat_of_ascii c <=? 57))%nat.

Definition newline : string := String (ascii_of_nat 10) EmptyString.

(** [$]: the end of the string, or the place before a newline that ends
    the string.  The text left after the match is returned. *)
Definition at_dollar (s : string) : option string :=
  if String.eqb s "" then Some ""
  else if String.eqb s newline then Some newline
  else None.

(** [(?:\.png)?$], the longer alternative first. *)
Definition opt_png_dollar (s : string) : option string :=
  match (if String.prefix ".png" s
         then at_dollar (String.substring 4 (String.length s - 4) s)
         else None) with
  | Some rest => Some rest
  | None => at_dollar s
  end.

(** Up to [k] more digits, as many as possible first, then
    [(?:\.png)?$]. *)
Fixpoint more_digits (k : nat) (s : string) : option string :=
  match k with
  | O => opt_png_dollar s
  | S k' =>
      match s with
      | String c s' =>
          if is_digit c then
            match more_digits k' s' with
            | Some rest => Some rest
            | None => opt_png_dollar s
            end
          else opt_png_dollar s
      | EmptyString => opt_png_dollar s
      end
  end.

(** A match of [\d{1,4}(?:\.png)?$] that starts at the start of [s]. *)
Definition match_here (s : string) : option string :=
  match s with
  | String c s' => if is_digit c then more_digits 3 s' else None
  | EmptyString => None
  end.

(** [re.sub(r'\d{1,4}(?:\.png)?$', '', name)]: the leftmost match is
    removed; what is left after it holds no digit, so no second match. *)
Fixpoint sub_trailing_digits (s : string) : string :=
  match match_here s with
  | Some rest => rest
  | None =>
      match s with
      | EmptyString => EmptyString
      | String c s' => String c (sub_trailing_digits s')
      end
  end.

Definition strip_trailing_digits (name : string) : string :=
  rstrip (sub_trailing_digits name).

(** [s.replace(old, new)] for a non-empty [old]: [skip] counts the
    characters of a replaced occurrence still to pass over. *)
Fixpoint replace_go (old new : string) (skip : nat) (s : string) : string :=
  match s with
  | EmptyString => EmptyString
  | String c s' =>
      match skip with
      | S k => replace_go old new k s'
      | O =>
          if String.prefix old s
          then new +:+ replace_go old new (String.length old - 1) s'
          else String c (replace_go old new 0 s')
      end
  end.

(** [s.replace('', new)]: [new] before every character and at the end. *)
Fixpoint interleave (new : string) (s : string) : string :=
  match s with
  | EmptyString => new
  | String c s' => new +:+ String c (interleave new s')
  end.

Definition str_replace (s old new : string) : string :=
  if String.eqb old "" then interleave new s else replace_go old new 0 s.

(** A find-and-replace rule: the values under the keys [regex], [find]
    and [replace]. *)
Record replace_rule := mkRule {
  rule_regex : bool;
  rule_find : string;
  rule_replace : string
}.

Section FormatFilename.
(** The library functions [format_filename] calls: the first component
    of [os.path.splitext], [Template(t).safe_substitute(sprite=, anim=)]
    and [re.sub(pattern, repl, string)], which raises on a pattern that
    does not compile. *)
Variable splitext_root : string -> string.
Variable safe_substitute : string -> string -> string -> string.
Variable re_sub : string -> string -> string -> outcome string.

Fixpoint apply_rules (replace_rules : list replace_rule) (base_name : string)
    : outcome string :=
  match replace_rules with
  | [] => Returned base_name
  | rule :: rules =>
      if rule_regex rule then
        match re_sub (rule_find rule) (rule_replace rule) base_name with
        | Returned base_name' => apply_rules rules base_name'
        | Raised e => Raised e
        end
      else apply_rules rules (str_replace base_name (rule_find rule) (rule_replace rule))
  end.

(** [prefix] and [filename_format] may be [None]; an empty or missing
    list of rules is the empty list. *)
Definition format_filename (prefix : option string) (sprite_name animation_name : string)
    (filename_format : option string) (replace_rules : list replace_rule) : outcome string :=
  let filename_format :=
    match filename_format with Some f => f | None => "Standardized" end in
  let sprite_name := splitext_root sprite_name in
  let base_name :=
    if name_in filename_format ["Standardized"; "No spaces"; "No special characters"] then
      let base_name :=
        match prefix with
        | Some (String c p) =>
            String c p +:+ " - " +:+ sprite_name +:+ " - " +:+ animation_name
        | _ => sprite_name +:+ " - " +:+ animation_name
        end in
      if String.eqb filename_format "No spaces" then str_replace base_name " " ""
      else if String.eqb filename_format "No special characters" then
        str_replace (str_replace (str_replace base_name " " "") "-" "") "_" ""
      else base_name
    else safe_substitute filename_format sprite_name animation_name in
  apply_rules replace_rules base_name.
End FormatFilename.

End UtilitiesRest.

(** ** [utils/update_installer.py]: the other functions *)

Module UpdateUtilitiesRest.

(** The loop of [find_root]: each round first steps to the parent. *)
Fixpoint find_root_loop (target_name : string) (rounds : nat) (root_path : path)
    : M Sys (option path) :=
  match rounds with
  | O => ret None
  | S rounds' =>
      let root_path := dirname root_path in
      let target_path := join root_path target_name in
      do ex <- os_path_exists target_path;
      if ex then ret (Some root_path)
      else
        let new_root := dirname root_path in
        if bool_decide (new_root = root_path) then ret None
        else find_root_loop target_name rounds' root_path
  end.

(** [find_root(target_name)]; [script] is [os.path.abspath(__file__)]. *)
Definition find_root (script : path) (target_name : string) : M Sys (option path) :=
  find_root_loop target_name (S (length script)) script.

End UpdateUtilitiesRest.

Module UpdaterMain.

(** [Updater.__init__]: [window] is what creating the [UpdateWindow]
    does. *)
Definition init {St} (env : Env) (window : outcome unit) (use_gui exe_mode : bool)
    : M St Updater.updater :=
  if use_gui && gui_available env then
    match window with
    | Returned _ => ret (Updater.mkUpdater true exe_mode true)
    | Raised _ =>
        print "Failed to create GUI, falling back to console mode" ;;;
        ret (Updater.mkUpdater false exe_mode false)
    end
  else ret (Updater.mkUpdater false exe_mode false).

(** The parsed command line of the installer. *)
Record args := mkArgs {
  no_gui : bool;
  exe_mode : bool;
  wait : Z                                    (* seconds *)
}.

(** [main()]: with a window the flow runs on a worker thread beside the
    main loop of the window, without one it runs in [main] itself. *)
Definition main (env : Env) (window : outcome unit) (a : args) : M Sys unit :=
  (if 0 <? wait a then
     print ("Waiting " +:+ str_Z (wait a) +:+ " seconds for main application to close...") ;;;
     sleep (wait a * 1000)
   else ret tt) ;;;
  do updater <- init env window (negb (no_gui a)) (exe_mode a);
  if exe_mode a then Updater.update_exe updater env
  else Updater.update_source updater env.

End UpdaterMain.

(** ** [tools/manual_updater_ui.py]: class [_FakeResponse] *)

Module ManualUpdaterUi.

(** The slices [payload[idx : idx + chunk_size]] for
    [idx = 0, chunk_size, ...] below the length of the payload; [rounds]
    bounds their number. *)
Fixpoint slices (rounds : nat) (chunk_size : nat) (payload : string) : list string :=
  match rounds with
  | O => []
  | S rounds' =>
      match payload with
      | EmptyString => []
      | _ =>
          String.substring 0 chunk_size payload ::
          slices rounds' chunk_size
            (String.substring chunk_size (String.length payload - chunk_size) payload)
      end
  end.

(** [list(iter_content(chunk_size))]: [range] refuses a step of zero and
    is empty for a negative one. *)
Definition iter_content (payload : string) (chunk_size : Z) : outcome (list string) :=
  if chunk_size =? 0 then Raised (mkExn ValueError "range() arg 3 must not be zero")
  else if chunk_size <? 0 then Returned []
  else Returned (slices (String.length payload) (Z.to_nat chunk_size) payload).

(** The response as the flows read it: the [content-length] header and
    the chunks of [iter_content(chunk_size=8192)]. *)
Definition fake_response (payload : string) : response :=
  mkResponse (Z.of_nat (String.length payload))
    (match iter_content payload 8192 with Returned l => l | Raised _ => [] end) None.

End ManualUpdaterUi.

(** ** Instrumentation used by the statements on the rest of the code *)

(** [found] is what a search from [start] upwards for [target_name]
    must give in the file system [m]: the deepest ancestor of [start]
    (or [start] itself) that holds [target_name], or [None] when no
    ancestor holds it. *)
Definition nearest_holder (m : gmap (list string) node) (start : path) (target_name : string)
    (found : option path) : Prop :=
  match found with
  | Some root =>
      root `prefix_of` start /\ exists_in m (join root target_name) = true /\
      (forall q, q `prefix_of` start -> exists_in m (join q target_name) = true ->
                 q `prefix_of` root)
  | None =>
      forall q, q `prefix_of` start -> exists_in m (join q target_name) = false
  end.

(** The characters of a string. *)
Definition chars (s : string) : list ascii := list_ascii_of_string s.

(** Every character of the string is a digit; the string ends in a
    digit. *)
Fixpoint all_digits (s : string) : bool :=
  match s with
  | EmptyString => true
  | String c s' => UtilitiesRest.is_digit c && all_digits s'
  end.

Fixpoint ends_with_digit (s : string) : bool :=
  match s with
  | EmptyString => false
  | String c EmptyString => UtilitiesRest.is_digit c
  | String _ s' => ends_with_digit s'
  end.

(** Some digit of the string follows a character that is no digit; the
    number of digits the string starts with. *)
Fixpoint digit_after_other (s : string) : bool :=
  match s with
  | EmptyString => false
  | String c s' =>
      (negb (UtilitiesRest.is_digit c)
       && match s' with String d _ => UtilitiesRest.is_digit d | EmptyString => false end)
      || digit_after_other s'
  end.

Fixpoint leading_digits (s : string) : nat :=
  match s with
  | String c s' => if UtilitiesRest.is_digit c then S (leading_digits s') else O
  | EmptyString => O
  end.

(** An archive with two top-level directories: notes first, the project
    second. *)
Definition notes_then_project : list (string * tree) :=
  [("notes", Dir [("README.md", File "notes")]); ("project", Dir flat_archive)].

(** The installation with the installer script in place and no fault. *)
Definition installed_with_script : Sys :=
  mkSys (<[["C:"; "app"; "updater.py"] := FileN "installer"]> installed_app) 0 (schedule []) 0.

(** [q] is neither at or below [dst] nor on the way from the root to
    [dst]. *)
Definition away_from (dst q : path) : Prop :=
  ~ dst `prefix_of` q /\ ~ q `prefix_of` dst.

(** The installation when every file operation is refused. *)
Definition installed_all_denied : Sys := mkSys installed_app 0 (fun _ => Denied) 0.

(** The items of the release directory of [exe_package]. *)
Definition exe_release : list (string * tree) :=
  match child exe_package "release" with
  | Some (Dir release) => release
  | _ => []
  end.

(** The installation when the latest release has no [.7z] asset, only an
    archive whose extension is in capitals. *)
Definition release_without_archive : release :=
  mkRelease (Some "v2.0.0") (Some "Two")
    [mkAsset "notes.txt" 10 "u0"; mkAsset "App.7Z" 7 "u1"] (Some "zip1").

(** A computation that enables the restart hook at most once, as the
    last thing it does before it returns. *)
Definition restart_at_end {St A} (m : M St A) : Prop :=
  forall s,
    forallb no_restart (events (m s)) = true \/
    exists evs cb a,
      events (m s) = evs ++ [EnableRestart cb] /\ forallb no_restart evs = true /\
      result (m s) = Returned a.

(** What a run without a window shows: printed lines, and the pauses
    between them. *)
Definition console_output (e : event) : bool :=
  match e with
  | Print _ | Sleep _ => true
  | _ => false
  end.

(** A computation all of whose events are console output. *)
Definition console_only {St A} (m : M St A) : Prop :=
  forall s, forallb console_output (events (m s)) = true.

(** * Properties *)

(** ** Running the primitives *)

Ltac m_red :=
  cbv beta iota zeta delta
    [bind ret raise emit get modify try_except lift print next_fault
     os_path_exists os_path_isdir open_rw negb fst snd exists_in isdir_in isfile_in].

Lemma sleep_ok {St} (d : Z) (s : St) :
  0 <= d <= max_sleep -> sleep d s = (s, [Sleep d], Returned tt).
Proof.
  intros H. unfold sleep.
  destruct (Z.ltb_spec d (- max_sleep)); [unfold max_sleep in *; lia|].
  destruct (Z.ltb_spec max_sleep d); [lia|].
  destruct (Z.ltb_spec d 0); [lia | reflexivity].
Qed.

(** A sleep leaves the state alone, whether it is granted or refused,
    and its only event is the sleep. *)
Lemma sleep_run {St} (d : seconds) (s s' : St) evs r :
  sleep d s = (s', evs, r) -> s' = s.
Proof.
  unfold sleep. destruct d as [ms| | |];
    [destruct ((ms <? - max_sleep) || (max_sleep <? ms)); [|destruct (ms <? 0)]|..];
    intros H; inversion H; reflexivity.
Qed.

Lemma sleep_cases {St} (d : seconds) (s : St) :
  (exists ms, sleep d s = (s, [Sleep ms], Returned tt)) \/
  (exists e, sleep d s = (s, [], Raised e)).
Proof.
  unfold sleep. destruct d as [ms| | |];
    [destruct ((ms <? - max_sleep) || (max_sleep <? ms)); [|destruct (ms <? 0)]|..];
    first [left; eexists; reflexivity | right; eexists; reflexivity].
Qed.

Lemma sleep_two_seconds {St} (s : St) : sleep 2000 s = (s, [Sleep 2000], Returned tt).
Proof. apply sleep_ok. unfold max_sleep. lia. Qed.

Lemma slept_app a b : slept (a ++ b) = slept a + slept b.
Proof. induction a as [|[] a IH]; simpl; rewrite ?IH; lia. Qed.

Lemma sleeps_app a b : sleeps (a ++ b) = (sleeps a + sleeps b)%nat.
Proof. induction a as [|[] a IH]; simpl; rewrite ?IH; lia. Qed.

Lemma is_file_locked_run p s :
  Utilities.is_file_locked p s = (after_poll s p, [], Returned (poll_locked s p 0)).
Proof.
  unfold Utilities.is_file_locked, after_poll, poll_locked. rewrite Nat.add_0_r. m_red.
  destruct (fs s !! p) as [[c|]|] eqn:E; m_red; rewrite ?E; m_red; try reflexivity.
  destruct (faults s (tick s)); reflexivity.
Qed.

Lemma installer_is_file_locked_run p s :
  UpdateUtilities.is_file_locked p s = (after_poll s p, [], Returned (poll_locked s p 0)).
Proof. exact (is_file_locked_run p s). Qed.

Lemma poll_locked_after s p i : poll_locked (after_poll s p) p i = poll_locked s p (S i).
Proof.
  unfold poll_locked, after_poll.
  destruct (fs s !! p) as [[c|]|] eqn:E; cbn [fs tick faults]; rewrite ?E; try reflexivity.
  replace (S (tick s) + i)%nat with (tick s + S i)%nat by lia. reflexivity.
Qed.

Lemma after_poll_fs s p : fs (after_poll s p) = fs s.
Proof. unfold after_poll. destruct (fs s !! p) as [[c|]|]; reflexivity. Qed.

(** ** Waiting for a file to be unlocked *)

Section Wait.
Variable p : path.
Variables max_attempts delay : Z.
Hypothesis delay_fits : 0 <= delay <= max_sleep.

Lemma wait_loop_step remaining attempt s :
  Utilities.wait_loop p max_attempts delay (S remaining) attempt s =
    if poll_locked s p 0
    then match Utilities.wait_loop p max_attempts delay remaining (attempt + 1)
                 (after_poll s p) with
         | (s', evs, r) =>
             (s', Print ("File " +:+ str_path p +:+ " is locked, waiting... (attempt "
                         +:+ str_Z (attempt + 1) +:+ "/" +:+ str_Z max_attempts +:+ ")")
                    :: Sleep delay :: evs, r)
         end
    else (after_poll s p, [], Returned true).
Proof.
  cbn [Utilities.wait_loop]. unfold bind at 1. rewrite is_file_locked_run.
  destruct (poll_locked s p 0); simpl; [|reflexivity].
  unfold bind, print, emit. rewrite sleep_ok by assumption.
  destruct (Utilities.wait_loop _ _ _ _ _ _) as [[s' evs] r]. reflexivity.
Qed.




(** A file locked at every poll is polled [remaining] times, each poll
    followed by one sleep, and the wait ends with [False]. *)
Lemma wait_loop_locked remaining : forall attempt s,
  (forall i, (i < remaining)%nat -> poll_locked s p i = true) ->
  let run := Utilities.wait_loop p max_attempts delay remaining attempt s in
  result run = Returned false /\ sleeps (events run) = remaining /\
  slept (events run) = Z.of_nat remaining * delay /\
  fs (final run) = fs s.
Proof.
  induction remaining as [|n IH]; intros attempt s Hall.
  - unfold result, events, final. simpl. split_and!; try reflexivity; lia.
  - cbv zeta. rewrite wait_loop_step. rewrite (Hall O) by lia.
    specialize (IH (attempt + 1) (after_poll s p)).
    assert (H' : forall i, (i < n)%nat -> poll_locked (after_poll s p) p i = true).
    { intros i Hi. rewrite poll_locked_after. apply Hall. lia. }
    specialize (IH H'). cbv zeta in IH.
    destruct (Utilities.wait_loop _ _ _ _ _ _) as [[s' evs] r].
    unfold result, events, final in *. simpl in *. destruct IH as (-> & Hs & Ht & Hf).
    rewrite after_poll_fs in Hf. split_and!; try reflexivity; try assumption; lia.
Qed.



End Wait.




(** ** The retry wrappers *)

Section Retry.
Context {St A : Type}.
Variable operation : M St A.
Variables max_attempts delay : Z.
Hypothesis delay_fits : 0 <= delay <= max_sleep.







Variable self : Updater.updater.
Variable shown : string.



End Retry.




(** The two outcomes on the flaky operation: two failures and then the
    value, or three failures and the last error. *)
Example safe_file_operation_third_attempt :
  Utilities.safe_file_operation (recorded flaky) 3 2000 (2%nat, []) =
    ((O, [Raised (mkExn PermissionError "locked"); Raised (mkExn PermissionError "locked");
          Returned "done"]),
     [Print "File operation failed (attempt 1/3): locked"; Sleep 2000;
      Print "File operation failed (attempt 2/3): locked"; Sleep 2000],
     Returned "done").
Proof. vm_compute. reflexivity. Qed.

Example safe_file_operation_gives_up :
  result (Utilities.safe_file_operation flaky 3 2000 5%nat)
    = Raised (mkExn PermissionError "locked")
  /\ final (Utilities.safe_file_operation flaky 3 2000 5%nat) = 2%nat.
Proof. vm_compute. split; reflexivity. Qed.

(** [_copy_file_with_retry] is the loop around its two calls. *)
Lemma copy_file_with_retry_unfold self src_name content dst_file max_attempts :
  Updater._copy_file_with_retry self src_name content dst_file max_attempts =
    Updater.copy_retry_loop self
      (os_makedirs (dirname dst_file) ;;; shutil_copy2 src_name content dst_file ;;; ret tt)
      (basename dst_file) max_attempts (Z.to_nat max_attempts) 0.
Proof. reflexivity. Qed.

(** C9: with [max_attempts <= 0] the operation is never invoked (the
    history stays empty), nothing is returned, and the exception raised
    is the [TypeError] of [raise None], whatever the operation is. *)
Theorem safe_file_operation_without_attempts :
  forall (St A : Type) (operation : M St A) (max_attempts : Z) (delay : seconds) (s : St),
    max_attempts <= 0 ->
    Utilities.safe_file_operation (recorded operation) max_attempts delay (s, [])
      = ((s, []), [], Raised none_raised)
    /\ Utilities.safe_file_operation operation max_attempts delay s
      = (s, [], Raised none_raised).
Proof.
  intros St A operation max_attempts delay s Hmax.
  unfold Utilities.safe_file_operation.
  replace (Z.to_nat max_attempts) with O by lia. split; reflexivity.
Qed.

Lemma safe_file_operation_without_attempts_witness :
  0 <= 0 /\
  Utilities.safe_file_operation flaky 0 2000 0%nat = (0%nat, [], Raised none_raised).
Proof.
  split; [lia|].
  apply (proj2 (safe_file_operation_without_attempts nat string flaky 0 2000 0%nat ltac:(lia))).
Defined.

(** ** The update check *)

Lemma str_gt_spec a : forall b, str_gt a b = true <-> str_lt b a.
Proof.
  induction a as [|x a IH]; intros [|y b]; simpl.
  - split; [discriminate | inversion 1].
  - split; [discriminate | inversion 1].
  - split; [constructor | reflexivity].
  - destruct (Nat.ltb_spec (nat_of_ascii y) (nat_of_ascii x)) as [Hyx|Hyx].
    + split; [intros _; constructor; assumption | reflexivity].
    + destruct (Nat.ltb_spec (nat_of_ascii x) (nat_of_ascii y)) as [Hxy|Hxy].
      * split; [discriminate|]. inversion 1; subst; [lia|lia].
      * assert (x = y) as <-.
        { rewrite <- (ascii_nat_embedding x), <- (ascii_nat_embedding y). f_equal. lia. }
        rewrite IH. split; [constructor; assumption|]. inversion 1; subst; [lia | assumption].
Qed.

Ltac break_match :=
  match goal with
  | |- context [match ?x with _ => _ end] =>
      lazymatch x with
      | context [match _ with _ => _ end] => fail
      | _ => destruct x eqn:?
      end
  end.

Ltac check_red :=
  cbv beta iota zeta delta
    [UpdateChecker.check_for_updates UpdateChecker.check_for_updates_body
     UpdateChecker.start_update bind ret raise emit try_except lift print
     final events result fst snd app].

Ltac check_env :=
  cbn [UpdateChecker.fetch_latest UpdateChecker.frozen UpdateChecker.tk_root
       UpdateChecker.askyesno UpdateChecker.start_flow].

(** C10: [check_for_updates] returns normally whatever its collaborators
    do.  An exception of its body, from the fetch, the Tk root, the
    dialog or the start of a flow, ends the run in the report of its
    class: the events are those of the body followed by the printed
    report.  When the fetch raises, nothing but the first line was
    printed before.  And when the latest version is not greater than the
    current one the run is three printed lines: no Tk root, no dialog, no
    flow is started, so that none of the collaborators through which
    state could change is called; the state of the run is the state it
    started in. *)
Theorem check_for_updates_returns :
  forall (St : Type) (env : UpdateChecker.CheckEnv) (current_version : string)
         (auto_update parent_window : bool) (s : St),
    let run := UpdateChecker.check_for_updates env current_version auto_update parent_window s in
    let body := UpdateChecker.check_for_updates_body env current_version auto_update
                  parent_window s in
    result run = Returned tt /\
    final run = s /\
    (forall e,
       result body = Raised e ->
       events run = events body ++
         match exn_cls e with
         | Timeout =>
             [Print "Update check timed out - no internet connection or server not responding"]
         | ConnectionError =>
             [Print "No internet connection available for update check"]
         | RequestException | HTTPError =>
             [Print ("Network error during update check: " +:+ exn_msg e)]
         | _ =>
             [Print ("Unexpected error during update check: " +:+ exn_msg e);
              Print "Traceback (most recent call last)"]
         end) /\
    (forall e,
       UpdateChecker.fetch_latest env = Raised e ->
       result body = Raised e /\
       events body = [Print ("Checking for updates... Current version: " +:+ current_version)]) /\
    (forall text,
       UpdateChecker.fetch_latest env = Returned text ->
       str_gt (strip text) current_version = false ->
       events run =
         [Print ("Checking for updates... Current version: " +:+ current_version);
          Print ("Latest version available: " +:+ strip text);
          Print "You are using the latest version of the application."]).
Proof.
  intros St [fetch frozen tk ask start] cur auto_update parent_window s run body.
  subst run body. check_env.
  split_and!.
  - check_red. check_env.
    repeat (break_match; check_red; try reflexivity; try discriminate).
  - check_red. check_env.
    repeat (break_match; check_red; try reflexivity; try discriminate).
  - intros e. unfold UpdateChecker.check_for_updates, try_except.
    destruct (UpdateChecker.check_for_updates_body _ cur auto_update parent_window s)
      as [[s1 ev1] r1].
    cbn [result events fst snd]. intros ->.
    destruct (exn_cls e); reflexivity.
  - intros e ->. check_red. split; reflexivity.
  - intros text -> Hgt. check_red. check_env. check_red.
    rewrite Hgt. check_red. reflexivity.
Qed.

(** C8: once the version marker was fetched, the update path is taken
    exactly when the stripped marker is greater than the current version
    in the plain order of strings.  Off the update path the run is the
    two lines of the check and the line that says the version is the
    latest.  On it the run announces the update and goes on with the
    hidden Tk root (when no parent window was passed) and then, with
    automatic updates, the start of the flow, or else the dialog and,
    after a yes, the start of the flow; the flow is the executable flow
    for a frozen application and the source flow otherwise. *)
Theorem update_path_iff_string_greater :
  forall (St : Type) (env : UpdateChecker.CheckEnv) (current_version text : string)
         (auto_update parent_window : bool) (s : St),
    UpdateChecker.fetch_latest env = Returned text ->
    let latest := strip text in
    let run := UpdateChecker.check_for_updates env current_version auto_update
                 parent_window s in
    let f := if UpdateChecker.frozen env then ExeFlow else SourceFlow in
    let checked :=
      [Print ("Checking for updates... Current version: " +:+ current_version);
       Print ("Latest version available: " +:+ latest)] in
    let hidden_root := if parent_window then [] else [TkCreate; TkWithdraw] in
    let destroyed := if parent_window then [] else [TkDestroy] in
    let question :=
      AskYesNo "Update Available"
        (UpdateChecker.update_question env current_version latest) in
    (In (Print "Update available!") (events run) <-> str_lt current_version latest) /\
    (~ str_lt current_version latest ->
     events run =
       checked ++ [Print "You are using the latest version of the application."]) /\
    (str_lt current_version latest ->
     exists rest,
       events run = checked ++ Print "Update available!" :: rest /\
       (parent_window = true \/ UpdateChecker.tk_root env = Returned tt ->
        (auto_update = true -> UpdateChecker.start_flow env f = Returned tt ->
         rest = hidden_root ++
                [Print "Auto-update enabled, starting update process...";
                 Print (if UpdateChecker.frozen env
                        then "Running as executable, using executable update method"
                        else "Running from source, using source update method");
                 StartUpdate f] ++ destroyed) /\
        (auto_update = false -> UpdateChecker.askyesno env = Returned true ->
         UpdateChecker.start_flow env f = Returned tt ->
         rest = hidden_root ++
                [question; Print "User chose to update.";
                 Print (if UpdateChecker.frozen env then "Starting executable update..."
                        else "Starting source update...");
                 StartUpdate f] ++ destroyed) /\
        (auto_update = false -> UpdateChecker.askyesno env = Returned false ->
         rest = hidden_root ++ [question; Print "User chose not to update."] ++ destroyed))).
Proof.
  intros St [fetch frozen tk ask start] cur text auto_update parent_window s.
  cbv zeta. check_env. intros ->.
  rewrite <- !str_gt_spec.
  destruct (str_gt (strip text) cur) eqn:Hgt.
  - split_and!.
    + split; [reflexivity|]. intros _. check_red. check_env. rewrite Hgt. check_red.
      repeat (break_match; check_red; try discriminate);
        right; right; left; reflexivity.
    + intros H. exfalso. apply H. reflexivity.
    + intros _. check_red. check_env. rewrite Hgt. check_red.
      destruct parent_window, auto_update, frozen;
        repeat (break_match; check_red);
        eexists; (split; [reflexivity|]);
        intros [Hp|Hp]; try discriminate Hp;
        (split_and!; intros; try discriminate; try congruence;
         repeat match goal with
                | H : Returned _ = Returned _ |- _ => injection H as ?; subst
                | u : unit |- _ => destruct u
                end;
         try discriminate; try congruence; reflexivity).
  - split_and!.
    + check_red. check_env. rewrite Hgt. check_red. split; [|discriminate].
      intros [H|[H|[H|[]]]]; discriminate.
    + intros _. check_red. check_env. rewrite Hgt. check_red. reflexivity.
    + discriminate.
Qed.

Lemma update_path_iff_string_greater_witness :
  UpdateChecker.fetch_latest (scenario_a "2.0.0") = Returned "2.0.0" /\
  (In (Print "Update available!")
      (events (UpdateChecker.check_for_updates (scenario_a "2.0.0") "1.9.0" true false tt))
   <-> str_lt "1.9.0" (strip "2.0.0")).
Proof.
  split; [reflexivity|].
  apply (update_path_iff_string_greater unit (scenario_a "2.0.0") "1.9.0" "2.0.0" true false tt).
  reflexivity.
Defined.

(** Scenario A: [2.0.0] against [1.9.0] takes the update path and, with
    automatic updates, starts the source flow. *)
Example scenario_a_updates :
  events (UpdateChecker.check_for_updates (scenario_a "2.0.0") "1.9.0" true false tt) =
    [Print "Checking for updates... Current version: 1.9.0";
     Print "Latest version available: 2.0.0";
     Print "Update available!"; TkCreate; TkWithdraw;
     Print "Auto-update enabled, starting update process...";
     Print "Running from source, using source update method";
     StartUpdate SourceFlow; TkDestroy].
Proof. vm_compute. reflexivity. Qed.

(** The order is the order of strings, not of version numbers: [1.10.0]
    is smaller than [1.9.0]; and the marker is stripped before it is
    compared. *)
Example string_order_not_version_order :
  str_gt "1.10.0" "1.9.0" = false /\
  events (UpdateChecker.check_for_updates (scenario_a "1.10.0") "1.9.0" true false tt) =
    [Print "Checking for updates... Current version: 1.9.0";
     Print "Latest version available: 1.10.0";
     Print "You are using the latest version of the application."].
Proof. vm_compute. split; reflexivity. Qed.

Example marker_is_stripped :
  strip (String (ascii_of_nat 32) ("1.9.0" +:+ String (ascii_of_nat 10) EmptyString)) = "1.9.0".
Proof. vm_compute. reflexivity. Qed.

Lemma check_for_updates_returns_witness :
  str_gt (strip "1.10.0") "1.9.0" = false /\
  events (UpdateChecker.check_for_updates (scenario_a "1.10.0") "1.9.0" true false tt) =
    [Print "Checking for updates... Current version: 1.9.0";
     Print "Latest version available: 1.10.0";
     Print "You are using the latest version of the application."].
Proof.
  split; [vm_compute; reflexivity|].
  apply (proj2 (proj2 (proj2 (proj2 (check_for_updates_returns unit (scenario_a "1.10.0")
                                       "1.9.0" true false tt)))) "1.10.0");
    vm_compute; reflexivity.
Defined.

(** A timeout of the fetch and a failure to start the flow, as they are
    reported. *)
Example check_for_updates_reports :
  UpdateChecker.check_for_updates
    (UpdateChecker.mkCheckEnv (Raised (mkExn Timeout "timed out")) false (Returned tt)
       (Returned true) (fun _ => Returned tt)) "1.9.0" false false tt =
    (tt, [Print "Checking for updates... Current version: 1.9.0";
          Print "Update check timed out - no internet connection or server not responding"],
     Returned tt) /\
  events (UpdateChecker.check_for_updates
            (UpdateChecker.mkCheckEnv (Returned "2.0.0") false (Returned tt) (Returned true)
               (fun _ => Raised (mkExn TclError "no display"))) "1.9.0" true false tt) =
    [Print "Checking for updates... Current version: 1.9.0";
     Print "Latest version available: 2.0.0";
     Print "Update available!"; TkCreate; TkWithdraw;
     Print "Auto-update enabled, starting update process...";
     Print "Running from source, using source update method";
     Print "Unexpected error during update check: no display";
     Print "Traceback (most recent call last)"].
Proof. vm_compute. split; reflexivity. Qed.

(** ** Locating the project root in an unpacked archive *)

Lemma child_name_in entries : forall name t,
  child entries name = Some t -> name_in name (listdir entries) = true.
Proof.
  induction entries as [|[n t'] entries IH]; intros name t H; [discriminate|].
  simpl in *. destruct (String.eqb_spec n name) as [->|Hne].
  - rewrite String.eqb_refl. reflexivity.
  - rewrite (IH _ _ H). apply orb_true_r.
Qed.

Lemma isdir_child_name_in entries name :
  isdir_child entries name = true -> name_in name (listdir entries) = true.
Proof.
  unfold isdir_child. destruct (child entries name) as [[|]|] eqn:E; try discriminate.
  intros _. eapply child_name_in; eassumption.
Qed.

Lemma isfile_child_name_in entries name :
  isfile_child entries name = true -> name_in name (listdir entries) = true.
Proof.
  unfold isfile_child. destruct (child entries name) as [[|]|] eqn:E; try discriminate.
  intros _. eapply child_name_in; eassumption.
Qed.

(** The fallback scan returns a listed directory with the full
    structure, joined to the extraction directory. *)
Lemma checker_scan_found extract_dir extracted items : forall found root,
  UpdateChecker.scan_for_root extract_dir extracted items = Some (found, root) ->
  exists item, In item items /\ found = join extract_dir item /\
    child extracted item = Some (Dir root) /\ UpdateChecker._detect_project_root root = true.
Proof.
  induction items as [|item items IH]; intros found root H; [discriminate|].
  cbn [UpdateChecker.scan_for_root] in H.
  destruct (child extracted item) as [[c|sub]|] eqn:E.
  - destruct (IH _ _ H) as (i & Hi & ?). exists i. split; [right|]; assumption.
  - destruct (UpdateChecker._detect_project_root sub) eqn:D.
    + inversion H; subst. exists item. split; [left; reflexivity|]. split_and!; auto.
    + destruct (IH _ _ H) as (i & Hi & ?). exists i. split; [right|]; assumption.
  - destruct (IH _ _ H) as (i & Hi & ?). exists i. split; [right|]; assumption.
Qed.

Lemma installer_scan_found extract_dir extracted items : forall found root,
  Updater.scan_for_root extract_dir extracted items = Some (found, root) ->
  exists item, In item items /\ found = join extract_dir item /\
    child extracted item = Some (Dir root) /\ Updater._detect_project_root root false = true.
Proof.
  induction items as [|item items IH]; intros found root H; [discriminate|].
  cbn [Updater.scan_for_root] in H.
  destruct (child extracted item) as [[c|sub]|] eqn:E.
  - destruct (IH _ _ H) as (i & Hi & ?). exists i. split; [right|]; assumption.
  - destruct (Updater._detect_project_root sub false) eqn:D.
    + inversion H; subst. exists item. split; [left; reflexivity|]. split_and!; auto.
    + destruct (IH _ _ H) as (i & Hi & ?). exists i. split; [right|]; assumption.
  - destruct (IH _ _ H) as (i & Hi & ?). exists i. split; [right|]; assumption.
Qed.

(** A scan over directories none of which has the full structure finds
    nothing. *)
Lemma checker_scan_none extract_dir extracted items :
  (forall item sub, In item items -> child extracted item = Some (Dir sub) ->
     UpdateChecker._detect_project_root sub = false) ->
  UpdateChecker.scan_for_root extract_dir extracted items = None.
Proof.
  induction items as [|item items IH]; intros H; [reflexivity|].
  cbn [UpdateChecker.scan_for_root].
  destruct (child extracted item) as [[c|sub]|] eqn:E.
  - apply IH. intros i s Hi. apply H. right. exact Hi.
  - rewrite (H item sub) by (first [left; reflexivity | assumption]).
    apply IH. intros i s Hi. apply H. right. exact Hi.
  - apply IH. intros i s Hi. apply H. right. exact Hi.
Qed.

Lemma installer_scan_none extract_dir extracted items :
  (forall item sub, In item items -> child extracted item = Some (Dir sub) ->
     Updater._detect_project_root sub false = false) ->
  Updater.scan_for_root extract_dir extracted items = None.
Proof.
  induction items as [|item items IH]; intros H; [reflexivity|].
  cbn [Updater.scan_for_root].
  destruct (child extracted item) as [[c|sub]|] eqn:E.
  - apply IH. intros i s Hi. apply H. right. exact Hi.
  - rewrite (H item sub) by (first [left; reflexivity | assumption]).
    apply IH. intros i s Hi. apply H. right. exact Hi.
  - apply IH. intros i s Hi. apply H. right. exact Hi.
Qed.

Lemma join_not_self (p : path) (name : string) : join p name <> p.
Proof.
  unfold join. intros H. apply (f_equal (@length string)) in H.
  rewrite length_app in H. simpl in H. lia.
Qed.

(** C4, amended.  A single wrapper directory whose entries hold a [src]
    directory and a [README.md] file is returned by both locators.  What a
    locator returns is always one of the top-level directories of the
    extraction directory, never the extraction directory itself: a flat
    archive with two or more entries is only located when one of its
    top-level directories has the complete project structure, and then
    that directory is returned. *)
Theorem locate_root_contract :
  forall (extract_dir : path) (wrapper : string) (contents extracted : list (string * tree)),
    (isdir_child contents "src" = true -> isfile_child contents "README.md" = true ->
       UpdateChecker._find_github_zipball_root extract_dir [(wrapper, Dir contents)]
         = Some (join extract_dir wrapper, contents) /\
       Updater._find_github_zipball_root extract_dir [(wrapper, Dir contents)]
         = Some (join extract_dir wrapper, contents)) /\
    (forall found root,
       UpdateChecker._find_github_zipball_root extract_dir extracted = Some (found, root)
       \/ Updater._find_github_zipball_root extract_dir extracted = Some (found, root) ->
       found <> extract_dir /\
       exists item, found = join extract_dir item /\ child extracted item = Some (Dir root)) /\
    ((length extracted <> 1)%nat ->
       (forall item sub, child extracted item = Some (Dir sub) ->
          UpdateChecker._detect_project_root sub = false) ->
       UpdateChecker._find_github_zipball_root extract_dir extracted = None) /\
    ((length extracted <> 1)%nat ->
       (forall item sub, child extracted item = Some (Dir sub) ->
          Updater._detect_project_root sub false = false) ->
       Updater._find_github_zipball_root extract_dir extracted = None).
Proof.
  intros extract_dir wrapper contents extracted. split_and!.
  - intros Hsrc Hreadme.
    apply isdir_child_name_in in Hsrc. apply isfile_child_name_in in Hreadme.
    unfold UpdateChecker._find_github_zipball_root, Updater._find_github_zipball_root.
    cbn [listdir map fst child]. rewrite String.eqb_refl.
    cbn [forallb List.filter]. unfold listdir in *. rewrite Hsrc, Hreadme. split; reflexivity.
  - intros found root H.
    assert (exists item, found = join extract_dir item /\ child extracted item = Some (Dir root))
      as (item & -> & Hc).
    { destruct H as [H|H].
      - unfold UpdateChecker._find_github_zipball_root in H.
        destruct (listdir extracted) as [|only [|]] eqn:El.
        + discriminate.
        + destruct (child extracted only) as [[c|r]|] eqn:E.
          * apply checker_scan_found in H. destruct H as (i & _ & ? & ? & _). eauto.
          * destruct (forallb _ _).
            -- inversion H; subst. eauto.
            -- apply checker_scan_found in H. destruct H as (i & _ & ? & ? & _). eauto.
          * apply checker_scan_found in H. destruct H as (i & _ & ? & ? & _). eauto.
        + apply checker_scan_found in H. destruct H as (i & _ & ? & ? & _). eauto.
      - unfold Updater._find_github_zipball_root in H.
        destruct (listdir extracted) as [|only [|]] eqn:El.
        + discriminate.
        + destruct (child extracted only) as [[c|r]|] eqn:E.
          * apply installer_scan_found in H. destruct H as (i & _ & ? & ? & _). eauto.
          * destruct (List.filter _ _).
            -- apply installer_scan_found in H. destruct H as (i & _ & ? & ? & _). eauto.
            -- inversion H; subst. eauto.
          * apply installer_scan_found in H. destruct H as (i & _ & ? & ? & _). eauto.
        + apply installer_scan_found in H. destruct H as (i & _ & ? & ? & _). eauto. }
    split; [apply join_not_self | eauto].
  - intros Hlen Hnone. unfold UpdateChecker._find_github_zipball_root.
    destruct (listdir extracted) as [|only [|]] eqn:El.
    + reflexivity.
    + unfold listdir in El. apply (f_equal (@length string)) in El.
      rewrite length_map in El. simpl in El. lia.
    + apply checker_scan_none. intros item sub _. apply Hnone.
  - intros Hlen Hnone. unfold Updater._find_github_zipball_root.
    destruct (listdir extracted) as [|only [|]] eqn:El.
    + reflexivity.
    + unfold listdir in El. apply (f_equal (@length string)) in El.
      rewrite length_map in El. simpl in El. lia.
    + apply installer_scan_none. intros item sub _. apply Hnone.
Qed.

Lemma locate_root_contract_witness :
  UpdateChecker._find_github_zipball_root ["tmp"] [("xyz-abc123", Dir scenario_b)]
    = Some (["tmp"; "xyz-abc123"], scenario_b) /\
  Updater._find_github_zipball_root ["tmp"] [("xyz-abc123", Dir scenario_b)]
    = Some (["tmp"; "xyz-abc123"], scenario_b).
Proof.
  apply (proj1 (locate_root_contract ["tmp"] "xyz-abc123" scenario_b [])); reflexivity.
Defined.

(** C4 as stated fails on a flat archive: its top level has the complete
    structure, and both locators return [None]. *)
Lemma flat_archive_not_located :
  UpdateChecker._detect_project_root flat_archive = true /\
  Updater._detect_project_root flat_archive false = true /\
  UpdateChecker._find_github_zipball_root ["tmp"; "extract"] flat_archive = None /\
  Updater._find_github_zipball_root ["tmp"; "extract"] flat_archive = None.
Proof. vm_compute. repeat split. Qed.

(** The release root of the installer's executable flow, by contrast, is
    the extraction directory itself unless a single wrapper holds an
    executable. *)
Lemma release_root_flat extract_dir extracted :
  (length extracted <> 1)%nat ->
  Updater.release_root_of extract_dir extracted = (extract_dir, extracted).
Proof.
  intros Hlen. unfold Updater.release_root_of.
  destruct (listdir extracted) as [|only [|]] eqn:El; try reflexivity.
  unfold listdir in El. apply (f_equal (@length string)) in El.
  rewrite length_map in El. simpl in El. lia.
Qed.

(** ** Trees and walks *)

Lemma tree_induction (P : tree -> Prop) :
  (forall c, P (File c)) ->
  (forall entries, Forall (fun e => P (snd e)) entries -> P (Dir entries)) ->
  forall t, P t.
Proof.
  intros Hfile Hdir.
  fix IH 1. intros [c|entries].
  - apply Hfile.
  - apply Hdir. induction entries as [|e entries IHe]; constructor; [apply IH | exact IHe].
Qed.

Lemma child_In entries : forall name t, child entries name = Some t -> In (name, t) entries.
Proof.
  induction entries as [|[n t'] entries IH]; intros name t H; [discriminate|].
  simpl in H. destruct (String.eqb_spec n name) as [->|Hne].
  - inversion H; subst. left. reflexivity.
  - right. apply IH. exact H.
Qed.

Lemma name_in_In name names : name_in name names = true <-> In name names.
Proof.
  unfold name_in. rewrite existsb_exists. split.
  - intros (x & Hx & Heq). apply String.eqb_eq in Heq. subst. exact Hx.
  - intros H. exists name. split; [exact H | apply String.eqb_refl].
Qed.

Lemma In_child entries : forall name t,
  distinct (listdir entries) = true -> In (name, t) entries -> child entries name = Some t.
Proof.
  induction entries as [|[n t'] entries IH]; intros name t Hd Hin; [destruct Hin|].
  simpl in Hd. apply andb_true_iff in Hd. destruct Hd as [Hn Hd].
  simpl. destruct Hin as [Heq|Hin].
  - inversion Heq; subst. rewrite String.eqb_refl. reflexivity.
  - destruct (String.eqb_spec n name) as [->|Hne]; [|apply IH; assumption].
    exfalso. apply negb_true_iff in Hn.
    assert (name_in name (listdir entries) = true) as Hc; [|congruence].
    apply name_in_In. unfold listdir. apply in_map_iff. exists (name, t). split; auto.
Qed.

Lemma files_of_In entries : forall name c,
  In (name, c) (files_of entries) <-> In (name, File c) entries.
Proof.
  induction entries as [|[n [c'|es]] entries IH]; intros name c; simpl.
  - tauto.
  - rewrite IH. split; (intros [H|H]; [left; congruence | right; exact H]).
  - rewrite IH. split; [intros H; right; exact H | intros [H|H]; [discriminate | exact H]].
Qed.

(** Every triple of a walk is a directory of the tree, reached from the
    root of the walk, with the files of that directory. *)
Lemma os_walk_sound t : forall rel step,
  unique_names t = true ->
  In step (os_walk rel t) ->
  exists q entries,
    fst (fst step) = rel ++ q /\ lookup_tree t q = Some (Dir entries) /\
    snd step = files_of entries /\ distinct (listdir entries) = true.
Proof.
  induction t as [c|entries IH] using tree_induction; intros rel step Hu Hin.
  - destruct Hin.
  - cbn [os_walk] in Hin. cbn [unique_names] in Hu.
    apply andb_true_iff in Hu. destruct Hu as [Hd Hall].
    destruct Hin as [<-|Hin].
    + exists [], entries. rewrite app_nil_r. auto.
    + apply in_flat_map in Hin. destruct Hin as ([n t'] & He & Hin).
      rewrite Forall_forall in IH. rewrite forallb_forall in Hall.
      destruct (IH (n, t') ltac:(apply list_elem_of_In; exact He) (rel ++ [n]) step
                  (Hall _ He) Hin) as (q & es & Hq & Hl & Hf & Hdd).
      exists (n :: q), es. cbn [lookup_tree fst snd] in *.
      rewrite (In_child entries n t' Hd He). rewrite <- app_assoc in Hq. auto.
Qed.

(** Every file of the tree is among the files of the triple of its
    directory. *)
Lemma os_walk_complete q : forall t rel name c,
  lookup_tree t (q ++ [name]) = Some (File c) ->
  exists step, In step (os_walk rel t) /\ fst (fst step) = rel ++ q /\ In (name, c) (snd step).
Proof.
  induction q as [|m q IH]; intros t rel name c H.
  - cbn [app lookup_tree] in H. destruct t as [|entries]; [discriminate|].
    destruct (child entries name) as [t'|] eqn:E; [|discriminate].
    cbn [lookup_tree] in H. inversion H; subst.
    exists (rel, dirs_of entries, files_of entries). split_and!.
    + left. reflexivity.
    + cbn [fst]. rewrite app_nil_r. reflexivity.
    + cbn [snd]. apply files_of_In. apply child_In. exact E.
  - cbn [app lookup_tree] in H. destruct t as [|entries]; [discriminate|].
    destruct (child entries m) as [t'|] eqn:E; [|discriminate].
    destruct (IH t' (rel ++ [m]) name c H) as (step & Hin & Hrel & Hf).
    exists step. split_and!.
    + right. apply in_flat_map. exists (m, t'). split; [apply child_In; exact E | exact Hin].
    + rewrite Hrel. rewrite <- app_assoc. reflexivity.
    + exact Hf.
Qed.

Lemma lookup_tree_app t : forall p q,
  lookup_tree t (p ++ q) =
    match lookup_tree t p with
    | Some t' => lookup_tree t' q
    | None => None
    end.
Proof.
  revert t. intros t p. revert t.
  induction p as [|n p IH]; intros t q; [reflexivity|].
  cbn [app lookup_tree]. destruct t as [|entries]; [reflexivity|].
  destruct (child entries n); [apply IH | reflexivity].
Qed.

(** ** Sequencing *)

Lemma bind_run {St A B} (m : M St A) (k : A -> M St B) s s' evs r :
  bind m k s = (s', evs, r) ->
  (exists s1 ev1 a ev2,
     m s = (s1, ev1, Returned a) /\ k a s1 = (s', ev2, r) /\ evs = ev1 ++ ev2) \/
  (exists e, m s = (s', evs, Raised e) /\ r = Raised e).
Proof.
  unfold bind. destruct (m s) as [[s1 ev1] [a|e]].
  - destruct (k a s1) as [[s2 ev2] r2] eqn:Hk. intros H. inversion H; subst.
    left. exists s1, ev1, a, ev2. auto.
  - intros H. inversion H; subst. right. exists e. auto.
Qed.

Lemma bind_returned {St A B} (m : M St A) (k : A -> M St B) s s' evs b :
  bind m k s = (s', evs, Returned b) ->
  exists s1 ev1 a ev2,
    m s = (s1, ev1, Returned a) /\ k a s1 = (s', ev2, Returned b) /\ evs = ev1 ++ ev2.
Proof.
  intros H. apply bind_run in H. destruct H as [H|(e & _ & H)]; [exact H | discriminate].
Qed.

Lemma try_except_run {St A} (body : M St A) (handler : exn -> M St A) s s' evs r :
  try_except body handler s = (s', evs, r) ->
  (exists a, body s = (s', evs, Returned a) /\ r = Returned a) \/
  (exists s1 ev1 e ev2,
     body s = (s1, ev1, Raised e) /\ handler e s1 = (s', ev2, r) /\ evs = ev1 ++ ev2).
Proof.
  unfold try_except. destruct (body s) as [[s1 ev1] [a|e]].
  - intros H. inversion H; subst. left. exists a. auto.
  - destruct (handler e s1) as [[s2 ev2] r2] eqn:Hh. intros H. inversion H; subst.
    right. exists s1, ev1, e, ev2. auto.
Qed.

(** ** What the file-system primitives change *)

Lemma dir_added_refl base m q : dir_added base m m q.
Proof. left. reflexivity. Qed.

Lemma dir_added_trans base m1 m2 m3 q :
  dir_added base m1 m2 q -> dir_added base m2 m3 q -> dir_added base m1 m3 q.
Proof.
  intros [H12|(H1 & H2 & Hp & Hq)] [H23|(H2' & H3 & Hp' & Hq')].
  - left. congruence.
  - right. split_and!; auto. congruence.
  - right. split_and!; auto. congruence.
  - congruence.
Qed.

Lemma mkdir_exist_ok_effect p leaf s s' evs r :
  mkdir_exist_ok p leaf s = (s', evs, r) ->
  forall q, fs s' !! q = fs s !! q \/
            (q = p /\ fs s !! q = None /\ fs s' !! q = Some DirN).
Proof.
  unfold mkdir_exist_ok. m_red.
  destruct (fs s !! p) as [[c|]|] eqn:E; m_red.
  - destruct leaf; intros H; inversion H; subst; auto.
  - intros H; inversion H; subst; auto.
  - destruct (faults s (tick s)); m_red; intros H; inversion H; subst; cbn [fs set_fs]; auto.
    intros q. destruct (decide (q = p)) as [->|Hne].
    + right. rewrite lookup_insert_eq. auto.
    + left. rewrite lookup_insert_ne by congruence. reflexivity.
Qed.

Lemma makedirs_from_effect todo : forall done s s' evs r,
  makedirs_from done todo s = (s', evs, r) ->
  forall q, fs s' !! q = fs s !! q \/
            (fs s !! q = None /\ fs s' !! q = Some DirN /\
             q `prefix_of` (done ++ todo) /\ q <> []).
Proof.
  induction todo as [|c todo IH]; intros done s s' evs r H q.
  - inversion H; subst. auto.
  - cbn [makedirs_from] in H. apply bind_run in H.
    destruct H as [(s1 & ev1 & [] & ev2 & Hmk & Hrest & _)|(e & Hmk & _)].
    + pose proof (mkdir_exist_ok_effect _ _ _ _ _ _ Hmk q) as H1.
      pose proof (IH _ _ _ _ _ Hrest q) as H2.
      rewrite <- app_assoc in H2. cbn [app] in H2.
      destruct H1 as [H1|(-> & H1 & H1')]; destruct H2 as [H2|(H2 & H2' & Hp & Hq)].
      * left. congruence.
      * right. split_and!; auto. congruence.
      * right. split_and!; try congruence.
        -- exists todo. rewrite <- app_assoc. reflexivity.
        -- destruct done; discriminate.
      * congruence.
    + pose proof (mkdir_exist_ok_effect _ _ _ _ _ _ Hmk q) as [H1|(-> & H1 & H1')].
      * auto.
      * right. split_and!; auto.
        -- exists todo. rewrite <- app_assoc. reflexivity.
        -- destruct done; discriminate.
Qed.

Lemma os_makedirs_effect p s s' evs r :
  os_makedirs p s = (s', evs, r) -> forall q, dir_added p (fs s) (fs s') q.
Proof. intros H q. exact (makedirs_from_effect p [] s s' evs r H q). Qed.

(** A copy onto a path that is not a directory writes that path and
    nothing else, and leaves a file there. *)
Lemma shutil_copy2_effect name c dst s s' evs r :
  fs s !! dst <> Some DirN ->
  shutil_copy2 name c dst s = (s', evs, r) ->
  (forall q, q <> dst -> fs s' !! q = fs s !! q) /\
  fs s' !! dst <> Some DirN /\
  (forall t, r = Returned t -> fs s' !! dst = Some (FileN c)).
Proof.
  intros Hnd. unfold shutil_copy2. m_red.
  destruct (fs s !! dst) as [[c0|]|] eqn:E; [| congruence |]; m_red; rewrite E;
    (destruct (parent_is_dir (fs s) dst); m_red;
     [destruct (faults s (tick s)); m_red|]);
    intros H; inversion H; subst; cbn [fs set_fs];
    (split_and!;
     [ intros q Hq; rewrite ?lookup_insert_ne by congruence; reflexivity
     | rewrite ?lookup_insert_eq, ?E; congruence
     | intros t Ht; try discriminate; rewrite ?lookup_insert_eq; reflexivity ]).
Qed.

Lemma dirname_join p name : dirname (join p name) = p.
Proof. unfold dirname, join. apply removelast_last. Qed.

Lemma join_not_prefix (p : path) (name : string) q : q `prefix_of` p -> q <> join p name.
Proof.
  intros Hp ->. apply prefix_length in Hp. unfold join in Hp.
  rewrite length_app in Hp. simpl in Hp. lia.
Qed.

(** ** Rules for the retry loops *)

Section RetryRules.
Context {St : Type}.
Variable P : St -> Prop.
Variable I : St -> St -> Prop.
Hypothesis I_refl : forall s, I s s.
Hypothesis I_trans : forall a b c, I a b -> I b c -> I a c.

Lemma safe_loop_rule {A} (operation : M St A) (Q : A -> St -> Prop) max_attempts delay :
  (forall s s' evs r, P s -> operation s = (s', evs, r) ->
     P s' /\ I s s' /\ (forall a, r = Returned a -> Q a s')) ->
  forall remaining attempt last_exception s s' evs r,
    P s ->
    Utilities.safe_loop operation max_attempts delay remaining attempt last_exception s
      = (s', evs, r) ->
    P s' /\ I s s' /\ (forall a, r = Returned a -> Q a s').
Proof.
  intros Hop. induction remaining as [|n IH]; intros attempt last_exception s s' evs r HP H.
  - cbn [Utilities.safe_loop] in H.
    destruct last_exception; inversion H; subst; split_and!; auto; discriminate.
  - cbn [Utilities.safe_loop] in H.
    destruct (operation s) as [[s1 ev1] [a|e]] eqn:Eop.
    + inversion H; subst. exact (Hop _ _ _ _ HP Eop).
    + destruct (Hop _ _ _ _ HP Eop) as (HP1 & HI1 & _).
      destruct (is_OSError e).
      * match type of H with
        | (let (_, _) := ?m s1 in _) = _ => destruct (m s1) as [[s2 ev2] r2] eqn:Em
        end.
        inversion H; subst.
        apply bind_run in Em. destruct Em as [(s3 & ev3 & [] & ev4 & Hrep & Hrec & _)|(e' & Hrep & ->)].
        -- assert (s3 = s1) as ->.
           { destruct (attempt <? max_attempts - 1).
             - apply bind_run in Hrep.
               destruct Hrep as [(s4 & ? & ? & ? & Hp & Hs & _)|(? & Hp & _)].
               + inversion Hp; subst. exact (sleep_run _ _ _ _ _ Hs).
               + inversion Hp.
             - inversion Hrep; reflexivity. }
           destruct (IH _ _ _ _ _ _ HP1 Hrec) as (HP' & HI' & HQ').
           split_and!; eauto.
        -- assert (s' = s1) as ->.
           { destruct (attempt <? max_attempts - 1).
             - apply bind_run in Hrep.
               destruct Hrep as [(s4 & ? & ? & ? & Hp & Hs & _)|(? & Hp & _)].
               + inversion Hp; subst. exact (sleep_run _ _ _ _ _ Hs).
               + inversion Hp.
             - inversion Hrep. }
           split_and!; auto. discriminate.
      * inversion H; subst. split_and!; auto. discriminate.
Qed.

Lemma log_run (self : Updater.updater) message lvl (s s' : St) evs r :
  Updater.log self message lvl s = (s', evs, r) -> s' = s /\ r = Returned tt.
Proof.
  unfold Updater.log. destruct (Updater.console self); intros H; inversion H; auto.
Qed.

Lemma copy_retry_loop_rule (self : Updater.updater) (attempt_copy : M St unit)
    (Q : St -> Prop) shown max_attempts :
  (forall s s' evs r, P s -> attempt_copy s = (s', evs, r) ->
     P s' /\ I s s' /\ (r = Returned tt -> Q s')) ->
  forall remaining attempt s s' evs r,
    attempt + Z.of_nat remaining = max_attempts ->
    P s ->
    Updater.copy_retry_loop self attempt_copy shown max_attempts remaining attempt s
      = (s', evs, r) ->
    P s' /\ I s s' /\ (r = Returned tt -> (0 < remaining)%nat -> Q s').
Proof.
  intros Hop. induction remaining as [|n IH]; intros attempt s s' evs r Hinv HP H.
  - inversion H. subst s'. split_and!; auto. intros _ Hlt. lia.
  - cbn [Updater.copy_retry_loop] in H. apply try_except_run in H.
    destruct H as [([] & Hat & ->)|(s1 & ev1 & e & ev2 & Hat & Hh & _)].
    + destruct (Hop _ _ _ _ HP Hat) as (? & ? & ?). auto.
    + destruct (Hop _ _ _ _ HP Hat) as (HP1 & HI1 & _).
      destruct (is_OSError e).
      * destruct (Z.ltb_spec attempt (max_attempts - 1)).
        -- apply bind_run in Hh.
           destruct Hh as [(s2 & ? & [] & ? & Hlog & Hrest & _)|(? & Hlog & _)].
           ++ apply log_run in Hlog. destruct Hlog as [-> _].
              apply bind_run in Hrest.
              destruct Hrest as [(s3 & ? & [] & ? & Hs & Hrec & _)|(? & Hs & _)].
              ** rewrite sleep_two_seconds in Hs. injection Hs as <- _.
                 assert (Hinv' : attempt + 1 + Z.of_nat n = max_attempts) by lia.
                 destruct (IH _ _ _ _ _ Hinv' HP1 Hrec) as (HP' & HI' & HQ').
                 split_and!; eauto. intros Hr _. apply HQ'; [exact Hr|].
                 destruct n; lia.
              ** rewrite sleep_two_seconds in Hs. discriminate.
           ++ apply log_run in Hlog. destruct Hlog as [_ Hlog]. discriminate.
        -- inversion Hh. subst s' r. split_and!; auto. discriminate.
      * inversion Hh. subst s' r. split_and!; auto. discriminate.
Qed.
End RetryRules.

(** ** Merging a source tree into a destination *)

Lemma for_each_cons_returned {St X} (x : X) (l : list X) (body : X -> M St unit) s s' evs :
  for_each (x :: l) body s = (s', evs, Returned tt) ->
  exists s1 ev1 ev2,
    body x s = (s1, ev1, Returned tt) /\ for_each l body s1 = (s', ev2, Returned tt).
Proof.
  cbn [for_each]. intros H. apply bind_returned in H.
  destruct H as (s1 & ev1 & [] & ev2 & Hb & Hr & _). eauto.
Qed.

Lemma target_dir_eq (dst rel : path) :
  match rel with [] => dst | _ => dst ++ rel end = dst ++ rel.
Proof. destruct rel; [rewrite app_nil_r|]; reflexivity. Qed.

Section MergeProgress.
Variable target : path -> string -> Prop.
Hypothesis target_functional : forall q c c', target q c -> target q c' -> c = c'.

Lemma merge_progress_refl m : merge_progress target m m.
Proof. unfold merge_progress. auto. Qed.

Lemma merge_progress_trans m1 m2 m3 :
  merge_progress target m1 m2 -> merge_progress target m2 m3 ->
  merge_progress target m1 m3.
Proof. unfold merge_progress. intros (A1 & B1 & C1) (A2 & B2 & C2). split_and!; eauto. Qed.

(** Directories made on the way to [base] are progress when no target
    lies on that way. *)
Lemma progress_of_dirs base m m' :
  (forall q c, target q c -> ~ q `prefix_of` base) ->
  (forall q, dir_added base m m' q) ->
  merge_progress target m m'.
Proof.
  intros Hbase Hd. split_and!.
  - intros q x _ Hq. destruct (Hd q) as [H|(H & _)]; congruence.
  - intros q c Ht Hq. destruct (Hd q) as [H|(_ & _ & Hp & _)]; [congruence|].
    exfalso. eapply Hbase; eassumption.
  - intros q c Ht Hq. destruct (Hd q) as [H|(H & _)]; congruence.
Qed.

(** A finished copy onto the target [t] is progress. *)
Lemma progress_of_copy base t c m m' :
  target t c ->
  (forall q c', target q c' -> ~ q `prefix_of` base) ->
  (forall q, q <> t -> dir_added base m m' q) ->
  m' !! t = Some (FileN c) ->
  merge_progress target m m'.
Proof.
  intros Ht Hbase Hd Hc. split_and!.
  - intros q x Hn Hq. destruct (decide (q = t)) as [->|Hne]; [exfalso; eapply Hn; eauto|].
    destruct (Hd q Hne) as [H|(H & _)]; congruence.
  - intros q c' Hq Hnd. destruct (decide (q = t)) as [->|Hne]; [congruence|].
    destruct (Hd q Hne) as [H|(_ & _ & Hp & _)]; [congruence|].
    exfalso. eapply Hbase; eassumption.
  - intros q c' Hq Hf. destruct (decide (q = t)) as [->|Hne].
    + rewrite (target_functional _ _ _ Hq Ht). exact Hc.
    + destruct (Hd q Hne) as [H|(H & _)]; congruence.
Qed.
End MergeProgress.

Lemma dir_added_not_below base name m m' :
  dir_added base m m' (join base name) -> m' !! join base name = m !! join base name.
Proof.
  intros [H|(_ & _ & Hp & _)]; [exact H|].
  exfalso. eapply join_not_prefix; [exact Hp | reflexivity].
Qed.

(** One attempt of [_copy_file_with_retry] on a path that is not a
    directory. *)
Lemma copy_attempt_effect name c base n s s' evs r :
  fs s !! join base n <> Some DirN ->
  (os_makedirs (dirname (join base n)) ;;; shutil_copy2 name c (join base n) ;;; ret tt) s
    = (s', evs, r) ->
  fs s' !! join base n <> Some DirN /\
  (forall q, q <> join base n -> dir_added base (fs s) (fs s') q) /\
  (r = Returned tt -> fs s' !! join base n = Some (FileN c)).
Proof.
  rewrite dirname_join. intros Hnd H. apply bind_run in H.
  destruct H as [(s1 & ev1 & [] & ev2 & Hmk & Hrest & _)|(e & Hmk & ->)].
  - pose proof (os_makedirs_effect _ _ _ _ _ Hmk) as Hd.
    assert (Hnd1 : fs s1 !! join base n <> Some DirN).
    { rewrite (dir_added_not_below _ _ _ _ (Hd _)). exact Hnd. }
    apply bind_run in Hrest.
    destruct Hrest as [(s2 & ev3 & t & ev4 & Hcp & Hret & _)|(e & Hcp & ->)].
    + inversion Hret; subst.
      destruct (shutil_copy2_effect _ _ _ _ _ _ _ Hnd1 Hcp) as (Hframe & Hnd2 & Hok).
      split_and!; [exact Hnd2 | | intros _; eapply Hok; reflexivity].
      intros q Hq.
      destruct (Hd q) as [H|(H1 & H2 & H3 & H4)];
        [left | right; split_and!; auto]; rewrite Hframe by exact Hq; assumption.
    + destruct (shutil_copy2_effect _ _ _ _ _ _ _ Hnd1 Hcp) as (Hframe & Hnd2 & Hok).
      split_and!; [exact Hnd2 | | discriminate].
      intros q Hq.
      destruct (Hd q) as [H|(H1 & H2 & H3 & H4)];
        [left | right; split_and!; auto]; rewrite Hframe by exact Hq; assumption.
  - pose proof (os_makedirs_effect _ _ _ _ _ Hmk) as Hd.
    split_and!; [| intros q _; apply Hd | discriminate].
    rewrite (dir_added_not_below _ _ _ _ (Hd _)). exact Hnd.
Qed.

(** [_copy_file_with_retry] with its five attempts. *)
Lemma copy_file_with_retry_effect self name c base n s s' evs :
  fs s !! join base n <> Some DirN ->
  Updater._copy_file_with_retry self name c (join base n) 5 s = (s', evs, Returned tt) ->
  (forall q, q <> join base n -> dir_added base (fs s) (fs s') q) /\
  fs s' !! join base n = Some (FileN c).
Proof.
  intros Hnd H. unfold Updater._copy_file_with_retry in H.
  eapply (copy_retry_loop_rule
            (fun s => fs s !! join base n <> Some DirN)
            (fun s s' => forall q, q <> join base n -> dir_added base (fs s) (fs s') q))
    with (Q := fun s' => fs s' !! join base n = Some (FileN c)) in H.
  - destruct H as (_ & HI & HQ). split; [exact HI|]. apply HQ; [reflexivity|].
    change (Z.to_nat 5) with 5%nat. lia.
  - intros s0 q _. apply dir_added_refl.
  - intros a b c0 Hab Hbc q Hq. eapply dir_added_trans; eauto.
  - intros s0 s1 ev r HP Hat. apply (copy_attempt_effect _ _ _ _ _ _ _ _ HP Hat).
  - reflexivity.
  - exact Hnd.
Qed.

Section InstallerMerge.
Variable self : Updater.updater.
Variable target : path -> string -> Prop.
Hypothesis target_functional : forall q c c', target q c -> target q c' -> c = c'.

(** The files of one directory. *)
Lemma installer_copy_files base files : forall s s' evs,
  (forall f, In f files -> target (join base (fst f)) (snd f)) ->
  (forall q c, target q c -> ~ q `prefix_of` base) ->
  (forall q c, target q c -> fs s !! q <> Some DirN) ->
  for_each files (fun f =>
      Updater._copy_file_with_retry self (fst f) (snd f) (join base (fst f)) 5) s
    = (s', evs, Returned tt) ->
  merge_progress target (fs s) (fs s') /\
  (forall f, In f files -> fs s' !! join base (fst f) = Some (FileN (snd f))).
Proof.
  induction files as [|f files IH]; intros s s' evs Ht Hbase Hnd H.
  - inversion H; subst. split; [apply merge_progress_refl | intros f []].
  - apply for_each_cons_returned in H. destruct H as (s1 & ev1 & ev2 & Hcp & Hrest).
    assert (Htf : target (join base (fst f)) (snd f)) by (apply Ht; left; reflexivity).
    destruct (copy_file_with_retry_effect _ _ _ _ _ _ _ _ (Hnd _ _ Htf) Hcp) as (Hd & Hc).
    assert (Hp1 : merge_progress target (fs s) (fs s1)).
    { eapply progress_of_copy; eauto. }
    assert (Hnd1 : forall q c, target q c -> fs s1 !! q <> Some DirN).
    { intros q c Hq. destruct Hp1 as (_ & Hb & _). eapply Hb; eauto. }
    destruct (IH s1 s' ev2 (fun g Hg => Ht g (or_intror Hg)) Hbase Hnd1 Hrest) as (Hp2 & Hfiles).
    split; [eapply merge_progress_trans; eauto|].
    intros g [<-|Hg]; [|apply Hfiles; exact Hg].
    destruct Hp2 as (_ & _ & Hkeep). eapply Hkeep; eauto.
Qed.

(** The whole walk. *)
Lemma installer_merge_walk dst steps : forall s s' evs,
  (forall step f, In step steps -> In f (snd step) ->
     target (join (dst ++ fst (fst step)) (fst f)) (snd f)) ->
  (forall step q c, In step steps -> target q c -> ~ q `prefix_of` (dst ++ fst (fst step))) ->
  (forall q c, target q c -> fs s !! q <> Some DirN) ->
  Updater.merge_walk self dst steps s = (s', evs, Returned tt) ->
  merge_progress target (fs s) (fs s') /\
  (forall step f, In step steps -> In f (snd step) ->
     fs s' !! join (dst ++ fst (fst step)) (fst f) = Some (FileN (snd f))).
Proof.
  unfold Updater.merge_walk.
  induction steps as [|step steps IH]; intros s s' evs Ht Hbase Hnd H.
  - inversion H; subst. split; [apply merge_progress_refl | intros ? ? []].
  - apply for_each_cons_returned in H. destruct H as (s1 & ev1 & ev2 & Hstep & Hrest).
    rewrite target_dir_eq in Hstep. apply bind_returned in Hstep.
    destruct Hstep as (s0 & ev0 & [] & ev0' & Hmk & Hfiles & _).
    assert (Hb : forall q c, target q c -> ~ q `prefix_of` (dst ++ fst (fst step))).
    { intros q c. apply Hbase. left. reflexivity. }
    assert (Hp0 : merge_progress target (fs s) (fs s0)).
    { eapply progress_of_dirs; [exact Hb | eapply os_makedirs_effect; exact Hmk]. }
    assert (Hnd0 : forall q c, target q c -> fs s0 !! q <> Some DirN).
    { intros q c Hq. destruct Hp0 as (_ & Hb0 & _). eapply Hb0; eauto. }
    destruct (installer_copy_files _ _ _ _ _
                (fun f Hf => Ht step f (or_introl eq_refl) Hf) Hb Hnd0 Hfiles) as (Hp1 & Hdone).
    assert (Hp01 : merge_progress target (fs s) (fs s1))
      by (eapply merge_progress_trans; eauto).
    assert (Hnd1 : forall q c, target q c -> fs s1 !! q <> Some DirN).
    { intros q c Hq. destruct Hp01 as (_ & Hb1 & _). eapply Hb1; eauto. }
    destruct (IH s1 s' ev2 (fun st f Hs => Ht st f (or_intror Hs))
                (fun st q c Hs => Hbase st q c (or_intror Hs)) Hnd1 Hrest) as (Hp2 & Hrest').
    split; [eapply merge_progress_trans; eauto|].
    intros st f [<-|Hs] Hf; [|apply Hrest'; assumption].
    destruct Hp2 as (_ & _ & Hkeep). eapply Hkeep; [|apply Hdone; exact Hf].
    apply Ht; [left; reflexivity | exact Hf].
Qed.
End InstallerMerge.

(** The targets of the files of a tree whose names are unique. *)
Section Targets.
Variable src : list (string * tree).
Variable dst : path.
Hypothesis names_unique : unique_names (Dir src) = true.

Lemma file_target_functional q c c' :
  file_target (Dir src) dst q c -> file_target (Dir src) dst q c' -> c = c'.
Proof.
  intros (p & -> & Hp) (p' & Heq & Hp'). apply app_inv_head in Heq. subst p'.
  rewrite Hp in Hp'. inversion Hp'. reflexivity.
Qed.

Lemma walk_file_is_target step f :
  In step (os_walk [] (Dir src)) -> In f (snd step) ->
  file_target (Dir src) dst (join (dst ++ fst (fst step)) (fst f)) (snd f).
Proof.
  intros Hs Hf.
  destruct (os_walk_sound _ _ _ names_unique Hs) as (q & es & Hq & Hl & Hfiles & Hd).
  cbn [app] in Hq. rewrite Hq. rewrite Hfiles in Hf. destruct f as [n c].
  apply files_of_In in Hf. apply (In_child _ _ _ Hd) in Hf.
  exists (q ++ [n]). split.
  - unfold join. rewrite <- app_assoc. reflexivity.
  - rewrite lookup_tree_app, Hl. cbn [lookup_tree fst snd]. rewrite Hf. reflexivity.
Qed.

Lemma walk_dir_is_no_target step q c :
  In step (os_walk [] (Dir src)) -> file_target (Dir src) dst q c ->
  ~ q `prefix_of` (dst ++ fst (fst step)).
Proof.
  intros Hs (p & -> & Hp) Hpre.
  destruct (os_walk_sound _ _ _ names_unique Hs) as (rel & es & Hq & Hl & _ & _).
  cbn [app] in Hq. rewrite Hq in Hpre. apply prefix_app_inv in Hpre.
  destruct Hpre as [k ->]. rewrite lookup_tree_app, Hp in Hl.
  destruct k; discriminate.
Qed.

Lemma tree_file_is_walked p c :
  lookup_tree (Dir src) p = Some (File c) ->
  exists step f, In step (os_walk [] (Dir src)) /\ In f (snd step) /\
    dst ++ p = join (dst ++ fst (fst step)) (fst f) /\ snd f = c.
Proof.
  intros Hp. destruct (exists_last (l := p)) as (q & n & ->).
  { intros ->. discriminate. }
  destruct (os_walk_complete q (Dir src) [] n c Hp) as (step & Hs & Hrel & Hf).
  exists step, (n, c). split_and!; auto.
  rewrite Hrel. cbn [app fst]. unfold join. rewrite <- app_assoc. reflexivity.
Qed.
End Targets.

(** ** The merge of the application's own updater *)

Lemma wait_loop_fs p max_attempts delay remaining : forall attempt s,
  fs (final (Utilities.wait_loop p max_attempts delay remaining attempt s)) = fs s.
Proof.
  induction remaining as [|n IH]; intros attempt s; [reflexivity|].
  cbn [Utilities.wait_loop]. unfold bind at 1. rewrite is_file_locked_run.
  destruct (poll_locked s p 0); cbn [negb]; [|apply after_poll_fs].
  unfold bind at 1. cbn [print emit]. unfold bind at 1.
  destruct (sleep delay (after_poll s p)) as [[s1 ev1] [[]|e]] eqn:Hs.
  - assert (s1 = after_poll s p) as ->.
    { exact (sleep_run _ _ _ _ _ Hs). }
    specialize (IH (attempt + 1) (after_poll s p)).
    destruct (Utilities.wait_loop _ _ _ _ _ _) as [[s2 ev2] r2].
    unfold final in *. cbn [fst] in *. rewrite IH. apply after_poll_fs.
  - assert (s1 = after_poll s p) as ->.
    { exact (sleep_run _ _ _ _ _ Hs). }
    unfold final. cbn [fst]. apply after_poll_fs.
Qed.

(** The check before a copy returns only for a path that is not a
    directory, and changes no file. *)
Lemma wait_until_replaceable_returned env t s s' evs :
  UpdateChecker.wait_until_replaceable env t s = (s', evs, Returned tt) ->
  fs s' = fs s /\ fs s !! t <> Some DirN.
Proof.
  unfold UpdateChecker.wait_until_replaceable. intros H.
  apply bind_returned in H. destruct H as (s1 & ev1 & ex & ev2 & Hex & H & _).
  inversion Hex; subst. apply bind_returned in H.
  destruct H as (s2 & ev3 & locked & ev4 & Hl & H & _).
  unfold exists_in in Hl.
  destruct (fs s1 !! t) as [[c|]|] eqn:Et.
  - rewrite is_file_locked_run in Hl. inversion Hl; subst.
    destruct (poll_locked s1 t 0).
    + apply bind_returned in H. destruct H as (s3 & ev5 & [] & ev6 & Hlog & H & _).
      inversion Hlog; subst.
      apply bind_returned in H. destruct H as (s4 & ev7 & unlocked & ev8 & Hw & H & _).
      pose proof (wait_loop_fs t 10 1000 (Z.to_nat 10) 0 (after_poll s1 t)) as Hfs.
      unfold Utilities.wait_for_file_unlock in Hw. rewrite Hw in Hfs.
      unfold final in Hfs. cbn [fst] in Hfs. rewrite after_poll_fs in Hfs.
      destruct unlocked; cbn [negb] in H.
      * inversion H; subst. split; [exact Hfs | discriminate].
      * apply bind_returned in H. destruct H as (? & ? & ? & ? & _ & H & _).
        apply bind_returned in H. destruct H as (? & ? & ? & ? & _ & H & _).
        discriminate.
    + inversion H; subst. split; [apply after_poll_fs | discriminate].
  - exfalso. rewrite is_file_locked_run in Hl. inversion Hl; subst.
    assert (Hp : forall i, poll_locked (after_poll s1 t) t i = true).
    { intros i. unfold poll_locked. rewrite after_poll_fs, Et. reflexivity. }
    assert (Hp0 : poll_locked s1 t 0 = true) by (unfold poll_locked; rewrite Et; reflexivity).
    rewrite Hp0 in H.
    apply bind_returned in H. destruct H as (s3 & ev5 & [] & ev6 & Hlog & H & _).
    inversion Hlog; subst.
    apply bind_returned in H. destruct H as (s4 & ev7 & unlocked & ev8 & Hw & H & _).
    destruct (wait_loop_locked t 10 1000 ltac:(unfold max_sleep; lia) (Z.to_nat 10) 0 (after_poll s1 t)
                (fun i _ => Hp i)) as (Hr & _).
    unfold Utilities.wait_for_file_unlock in Hw. rewrite Hw in Hr.
    unfold result in Hr. cbn [snd] in Hr. inversion Hr; subst. cbn [negb] in H.
    apply bind_returned in H. destruct H as (? & ? & ? & ? & _ & H & _).
    apply bind_returned in H. destruct H as (? & ? & ? & ? & _ & H & _).
    discriminate.
  - inversion Hl; subst. inversion H; subst. split; [reflexivity | discriminate].
Qed.

(** The checked and retried copy of one file. *)
Lemma checker_copy_effect env name c t s s' evs :
  (UpdateChecker.wait_until_replaceable env t ;;;
   Utilities.safe_file_operation (shutil_copy2 name c t) 3 2000 ;;; ret tt) s
    = (s', evs, Returned tt) ->
  fs s !! t <> Some DirN /\
  (forall q, q <> t -> fs s' !! q = fs s !! q) /\
  fs s' !! t = Some (FileN c).
Proof.
  intros H. apply bind_returned in H. destruct H as (s1 & ev1 & [] & ev2 & Hw & H & _).
  apply wait_until_replaceable_returned in Hw. destruct Hw as (Hfs & Hnd).
  apply bind_returned in H. destruct H as (s2 & ev3 & p & ev4 & Hcp & Hret & _).
  inversion Hret; subst.
  unfold Utilities.safe_file_operation in Hcp.
  eapply (safe_loop_rule
            (fun s => fs s !! t <> Some DirN)
            (fun s s' => forall q, q <> t -> fs s' !! q = fs s !! q))
    with (Q := fun _ s' => fs s' !! t = Some (FileN c)) in Hcp.
  - destruct Hcp as (_ & HI & HQ). rewrite Hfs in HI. split_and!; auto. eapply HQ. reflexivity.
  - reflexivity.
  - intros a b c0 Hab Hbc q Hq. rewrite (Hbc q Hq). apply Hab. exact Hq.
  - intros s0 s3 ev r HP Hop.
    destruct (shutil_copy2_effect _ _ _ _ _ _ _ HP Hop) as (Hf & Hn & Hok). split_and!; eauto.
  - rewrite Hfs. exact Hnd.
Qed.

Section CheckerMerge.
Variable env : Env.
Variable target : path -> string -> Prop.
Hypothesis target_functional : forall q c c', target q c -> target q c' -> c = c'.

Lemma checker_copy_files base files : forall s s' evs,
  (forall f, In f files -> target (join base (fst f)) (snd f)) ->
  (forall q c, target q c -> ~ q `prefix_of` base) ->
  for_each files (fun f =>
      UpdateChecker.wait_until_replaceable env (join base (fst f)) ;;;
      Utilities.safe_file_operation
        (shutil_copy2 (fst f) (snd f) (join base (fst f))) 3 2000 ;;;
      ret tt) s
    = (s', evs, Returned tt) ->
  merge_progress target (fs s) (fs s') /\
  (forall f, In f files -> fs s' !! join base (fst f) = Some (FileN (snd f))).
Proof.
  induction files as [|f files IH]; intros s s' evs Ht Hbase H.
  - inversion H; subst. split; [apply merge_progress_refl | intros f []].
  - apply for_each_cons_returned in H. destruct H as (s1 & ev1 & ev2 & Hcp & Hrest).
    assert (Htf : target (join base (fst f)) (snd f)) by (apply Ht; left; reflexivity).
    destruct (checker_copy_effect _ _ _ _ _ _ _ Hcp) as (Hnd & Hframe & Hc).
    assert (Hp1 : merge_progress target (fs s) (fs s1)).
    { eapply progress_of_copy; eauto. intros q Hq. left. apply Hframe. exact Hq. }
    destruct (IH s1 s' ev2 (fun g Hg => Ht g (or_intror Hg)) Hbase Hrest) as (Hp2 & Hfiles).
    split; [eapply merge_progress_trans; eauto|].
    intros g [<-|Hg]; [|apply Hfiles; exact Hg].
    destruct Hp2 as (_ & _ & Hkeep). eapply Hkeep; eauto.
Qed.

Lemma checker_merge_walk dst steps : forall s s' evs,
  (forall step f, In step steps -> In f (snd step) ->
     target (join (dst ++ fst (fst step)) (fst f)) (snd f)) ->
  (forall step q c, In step steps -> target q c -> ~ q `prefix_of` (dst ++ fst (fst step))) ->
  UpdateChecker.merge_walk env dst steps s = (s', evs, Returned tt) ->
  merge_progress target (fs s) (fs s') /\
  (forall step f, In step steps -> In f (snd step) ->
     fs s' !! join (dst ++ fst (fst step)) (fst f) = Some (FileN (snd f))).
Proof.
  unfold UpdateChecker.merge_walk.
  induction steps as [|step steps IH]; intros s s' evs Ht Hbase H.
  - inversion H; subst. split; [apply merge_progress_refl | intros ? ? []].
  - apply for_each_cons_returned in H. destruct H as (s1 & ev1 & ev2 & Hstep & Hrest).
    rewrite target_dir_eq in Hstep. apply bind_returned in Hstep.
    destruct Hstep as (s0 & ev0 & [] & ev0' & Hmk & Hfiles & _).
    apply bind_returned in Hfiles.
    destruct Hfiles as (s0' & ev3 & [] & ev4 & Hlog & Hfiles & _).
    inversion Hlog; subst.
    assert (Hb : forall q c, target q c -> ~ q `prefix_of` (dst ++ fst (fst step))).
    { intros q c. apply Hbase. left. reflexivity. }
    assert (Hp0 : merge_progress target (fs s) (fs s0')).
    { eapply progress_of_dirs; [exact Hb | eapply os_makedirs_effect; exact Hmk]. }
    destruct (checker_copy_files _ _ _ _ _
                (fun f Hf => Ht step f (or_introl eq_refl) Hf) Hb Hfiles) as (Hp1 & Hdone).
    destruct (IH s1 s' ev2 (fun st f Hs => Ht st f (or_intror Hs))
                (fun st q c Hs => Hbase st q c (or_intror Hs)) Hrest) as (Hp2 & Hrest').
    split; [eapply merge_progress_trans; [|exact Hp2]; eapply merge_progress_trans; eauto|].
    intros st f [<-|Hs] Hf; [|apply Hrest'; assumption].
    destruct Hp2 as (_ & _ & Hkeep). eapply Hkeep; [|apply Hdone; exact Hf].
    apply Ht; [left; reflexivity | exact Hf].
Qed.
End CheckerMerge.

(** C5, amended.  Let the names in every directory of the source tree be
    distinct.  When [copy_item] merges the tree into an existing
    destination and returns, every file of the tree is in the destination
    at the same relative path with the content of the source, and every
    file that was there before at a path that is not the path of a file of
    the tree is unchanged.  The same holds for [_merge_directory] provided
    no file of the source meets a directory at its path in the
    destination. *)
Theorem merge_contract :
  forall (self : Updater.updater) (env : Env) (name : string)
         (src : list (string * tree)) (dst : path) (s s' : Sys) (evs : list event),
    unique_names (Dir src) = true ->
    let copied :=
      forall p c, lookup_tree (Dir src) p = Some (File c) ->
                  fs s' !! (dst ++ p) = Some (FileN c) in
    let others_kept :=
      forall q x, fs s !! q = Some (FileN x) ->
                  (forall p c, lookup_tree (Dir src) p = Some (File c) -> q <> dst ++ p) ->
                  fs s' !! q = Some (FileN x) in
    (exists_in (fs s) dst = true ->
     UpdateChecker.copy_item env name (Dir src) dst s = (s', evs, Returned tt) ->
     copied /\ others_kept) /\
    ((forall p c, lookup_tree (Dir src) p = Some (File c) ->
                  fs s !! (dst ++ p) <> Some DirN) ->
     Updater._merge_directory self (Dir src) dst s = (s', evs, Returned tt) ->
     copied /\ others_kept).
Proof.
  intros self env name src dst s s' evs Hu copied others_kept.
  assert (Hfinish :
    merge_progress (file_target (Dir src) dst) (fs s) (fs s') ->
    (forall step f, In step (os_walk [] (Dir src)) -> In f (snd step) ->
       fs s' !! join (dst ++ fst (fst step)) (fst f) = Some (FileN (snd f))) ->
    copied /\ others_kept).
  { intros (Hkeep & _ & _) Hdone. split.
    - intros p c Hp.
      destruct (tree_file_is_walked src dst p c Hp) as (step & f & Hs & Hf & -> & <-).
      apply Hdone; assumption.
    - intros q x Hq Hno. apply Hkeep; [|exact Hq].
      intros c (p & -> & Hp). exact (Hno p c Hp eq_refl). }
  split.
  - intros Hex H. unfold UpdateChecker.copy_item in H.
    apply bind_returned in H. destruct H as (s1 & ev1 & ex & ev2 & Hq & H & _).
    inversion Hq; subst. rewrite Hex in H.
    apply bind_returned in H. destruct H as (s2 & ev3 & [] & ev4 & Hlog & H & _).
    inversion Hlog; subst.
    destruct (checker_merge_walk env (file_target (Dir src) dst)
                (file_target_functional src dst) dst _ _ _ _
                (fun step f => walk_file_is_target src dst Hu step f)
                (fun step q c Hs Ht => walk_dir_is_no_target src dst Hu step q c Hs Ht) H)
      as (Hp & Hdone).
    apply Hfinish; assumption.
  - intros Hnd H. unfold Updater._merge_directory in H.
    destruct (installer_merge_walk self (file_target (Dir src) dst)
                (file_target_functional src dst) dst _ _ _ _
                (fun step f => walk_file_is_target src dst Hu step f)
                (fun step q c Hs Ht => walk_dir_is_no_target src dst Hu step q c Hs Ht)
                (fun q c '(ex_intro _ p (conj Hq Hp)) =>
                   eq_ind_r (fun q => fs s !! q <> Some DirN) (Hnd p c Hp) Hq) H)
      as (Hp & Hdone).
    apply Hfinish; assumption.
Qed.

Lemma merge_contract_witness :
  unique_names (Dir two_levels) = true /\
  let s' := final (Updater._merge_directory (Updater.mkUpdater true false true)
                     (Dir two_levels) ["app"; "src"] older_copy) in
  (forall p c, lookup_tree (Dir two_levels) p = Some (File c) ->
               fs s' !! (["app"; "src"] ++ p) = Some (FileN c)) /\
  (forall q x, fs older_copy !! q = Some (FileN x) ->
               (forall p c, lookup_tree (Dir two_levels) p = Some (File c) ->
                            q <> ["app"; "src"] ++ p) ->
               fs s' !! q = Some (FileN x)).
Proof.
  split; [reflexivity|].
  apply (proj2 (merge_contract (Updater.mkUpdater true false true)
                  no_env
                  "src" two_levels ["app"; "src"] older_copy _
                  (events (Updater._merge_directory (Updater.mkUpdater true false true)
                             (Dir two_levels) ["app"; "src"] older_copy))
                  eq_refl)).
  - intros p c Hp.
    destruct (tree_file_is_walked two_levels ["app"; "src"] p c Hp)
      as (step & f & Hs & Hf & -> & _).
    cbn in Hs. destruct Hs as [<-|[<-|[]]]; cbn in Hf.
    + destruct Hf as [<-|[]]. vm_compute. discriminate.
    + destruct Hf as [<-|[]]. vm_compute. discriminate.
  - vm_compute. reflexivity.
Defined.

(** The files of the witness, spelled out: the locked first attempt is
    retried, both files arrive, the file of the destination stays. *)
Example merge_two_levels :
  let run := Updater._merge_directory (Updater.mkUpdater true false true)
               (Dir two_levels) ["app"; "src"] older_copy in
  result run = Returned tt /\
  fs (final run) !! ["app"; "src"; "Main.py"] = Some (FileN "print(2)") /\
  fs (final run) !! ["app"; "src"; "utils"; "util.py"] = Some (FileN "u2") /\
  fs (final run) !! ["app"; "src"; "notes.txt"] = Some (FileN "mine") /\
  events run = [Log "Copy attempt 1 failed for Main.py, retrying..." Warning; Sleep 2000].
Proof. vm_compute. repeat split. Qed.

(** C5 as stated fails for [_merge_directory] when a file of the source
    meets a directory in the destination: the merge returns, the path
    still is a directory, and the file went into it, over a file whose
    relative path does not occur in the source. *)
Lemma merge_into_directory_in_the_way :
  let run := Updater._merge_directory (Updater.mkUpdater true false true)
               one_file ["dst"] dir_in_the_way in
  result run = Returned tt /\
  lookup_tree one_file ["a"] = Some (File "new") /\
  fs (final run) !! ["dst"; "a"] = Some DirN /\
  lookup_tree one_file ["a"; "a"] = None /\
  fs dir_in_the_way !! ["dst"; "a"; "a"] = Some (FileN "old") /\
  fs (final run) !! ["dst"; "a"; "a"] = Some (FileN "new").
Proof. vm_compute. repeat split. Qed.

(** [copy_item] on the same input stops with the lock failure instead. *)
Example copy_item_directory_in_the_way :
  result (UpdateChecker.copy_item
            no_env
            "src" one_file ["dst"] dir_in_the_way)
  = Raised (mkExn Exception
      "File dst/a is locked and cannot be replaced. Please close any applications using this file.").
Proof. vm_compute. reflexivity. Qed.

(** ** Computations that do not enable the restart *)

Lemma quiet_silent {St A} (m : M St A) : (forall s, events (m s) = []) -> quiet m.
Proof. intros H s. rewrite H. reflexivity. Qed.

Lemma quiet_ret {St A} (a : A) : quiet (St := St) (ret a).
Proof. intros s. reflexivity. Qed.

Lemma quiet_raise {St A} (e : exn) : quiet (St := St) (A := A) (raise e).
Proof. intros s. reflexivity. Qed.

Lemma quiet_emit {St} (e : event) : no_restart e = true -> quiet (St := St) (emit e).
Proof. intros H s. unfold events. simpl. rewrite H. reflexivity. Qed.

Lemma quiet_lift {St A} (r : outcome A) : quiet (St := St) (lift r).
Proof. intros s. destruct r; reflexivity. Qed.

Lemma quiet_sleep {St} (d : seconds) : quiet (St := St) (sleep d).
Proof.
  intros s. destruct (sleep_cases d s) as [[ms H]|[e H]]; rewrite H; reflexivity.
Qed.

Lemma quiet_bind {St A B} (m : M St A) (k : A -> M St B) :
  quiet m -> (forall a, quiet (k a)) -> quiet (bind m k).
Proof.
  intros Hm Hk s. unfold bind, events. specialize (Hm s). unfold events in Hm.
  destruct (m s) as [[s1 ev1] [a|e]]; cbn [fst snd] in *; [|exact Hm].
  specialize (Hk a s1). unfold events in Hk.
  destruct (k a s1) as [[s2 ev2] r]. cbn [fst snd] in *.
  rewrite forallb_app, Hm, Hk. reflexivity.
Qed.

Lemma quiet_try {St A} (body : M St A) (handler : exn -> M St A) :
  quiet body -> (forall e, quiet (handler e)) -> quiet (try_except body handler).
Proof.
  intros Hm Hk s. unfold try_except, events. specialize (Hm s). unfold events in Hm.
  destruct (body s) as [[s1 ev1] [a|e]]; cbn [fst snd] in *; [exact Hm|].
  specialize (Hk e s1). unfold events in Hk.
  destruct (handler e s1) as [[s2 ev2] r]. cbn [fst snd] in *.
  rewrite forallb_app, Hm, Hk. reflexivity.
Qed.

Lemma quiet_for_each {St X} (l : list X) (body : X -> M St unit) :
  (forall x, quiet (body x)) -> quiet (for_each l body).
Proof.
  intros Hb. induction l as [|x l IH]; [apply quiet_ret|].
  cbn [for_each]. apply quiet_bind; [apply Hb | intros _; exact IH].
Qed.

Create HintDb quiet.

#[local] Hint Resolve quiet_ret quiet_raise quiet_lift quiet_sleep : quiet.

#[local] Hint Unfold
  print get modify next_fault os_path_exists os_path_isdir open_rw mkdir_exist_ok
  copy2_path makedirs_new os_remove os_rename shutil_rmtree_ignore_errors write_text
  fresh_temp mkdtemp named_temporary_file create_file stream_to read_bytes shutil_copy2
  os_makedirs append_bytes file_write
  Utilities.is_file_locked Utilities.wait_for_file_unlock Utilities.safe_file_operation
  UpdateUtilities.is_file_locked UpdateUtilities.wait_for_file_unlock
  UpdateChecker.console_log UpdateChecker.console_set_progress
  UpdateChecker.messagebox_showerror UpdateChecker.wait_until_replaceable
  UpdateChecker.merge_walk UpdateChecker.copy_item UpdateChecker.copy_items
  UpdateChecker.extract_zip
  UpdateChecker.update_by_git_pull UpdateChecker.prepare_exe_update
  UpdateChecker.stage_new_executable
  Updater.log Updater.set_progress Updater.wait_for_main_app_closure
  Updater.create_updater_backup Updater.cleanup_updater_backup
  Updater._copy_file_with_retry Updater.merge_walk Updater._merge_directory
  Updater.download_to_temp Updater.extract_zip Updater.obtain_source Updater.copy_items
  Updater.extract_7z Updater.install_item Updater.install_items Updater.report_failure
  Updater.find_project_root
  : quiet.

(** One step of the analysis of a computation. *)
Ltac quiet_step :=
  match goal with
  | |- quiet (bind _ _) => apply quiet_bind; [|intros ?]
  | |- quiet (try_except _ _) => apply quiet_try; [|intros ?]
  | |- quiet (for_each _ _) => apply quiet_for_each; intros ?
  | |- quiet (emit _) => apply quiet_emit; reflexivity
  | |- quiet (fun _ => _) => apply quiet_silent; intros ?; reflexivity
  | |- quiet (match ?x with _ => _ end) => destruct x
  | |- quiet _ => solve [auto with quiet]
  | |- quiet _ => progress autounfold with quiet
  end.

Ltac quiet_solve := repeat quiet_step.

Lemma quiet_temp_loop tries suffix made what : quiet (temp_loop tries suffix made what).
Proof. induction tries as [|n IH]; cbn [temp_loop]; quiet_solve. Qed.
#[local] Hint Resolve quiet_temp_loop : quiet.

Lemma quiet_write_chunks {X} (report : Z -> string -> M Sys X) p base span total cs :
  (forall v m, quiet (report v m)) ->
  forall downloaded, quiet (write_chunks report p base span total cs downloaded).
Proof.
  intros Hr. induction cs as [|chunk cs IH]; intros downloaded; cbn [write_chunks].
  - apply quiet_ret.
  - destruct (String.eqb chunk ""); [apply IH|].
    quiet_solve.
Qed.

Lemma quiet_makedirs_from todo : forall done, quiet (makedirs_from done todo).
Proof.
  induction todo as [|c todo IH]; intros done; cbn [makedirs_from]; quiet_solve.
Qed.
#[local] Hint Resolve quiet_makedirs_from : quiet.

Lemma quiet_copytree t : forall dst, quiet (shutil_copytree t dst).
Proof.
  induction t as [c|entries IH] using tree_induction; intros dst; cbn [shutil_copytree].
  - quiet_solve.
  - apply quiet_bind; [quiet_solve|]. intros _. apply quiet_bind; [|intros; quiet_solve].
    induction IH as [|e es He Hes IHes]; [apply quiet_ret|].
    apply quiet_bind; [apply quiet_try; [|intros; quiet_solve]|].
    + apply quiet_bind; [apply He | intros; apply quiet_ret].
    + intros b. apply quiet_bind; [exact IHes | intros; apply quiet_ret].
Qed.
#[local] Hint Resolve quiet_copytree : quiet.

Lemma quiet_wait_loop p max_attempts delay remaining :
  forall attempt, quiet (Utilities.wait_loop p max_attempts delay remaining attempt).
Proof.
  induction remaining as [|n IH]; intros attempt; cbn [Utilities.wait_loop]; quiet_solve.
Qed.

Lemma quiet_installer_wait_loop p delay remaining :
  quiet (UpdateUtilities.wait_loop p delay remaining).
Proof.
  induction remaining as [|n IH]; cbn [UpdateUtilities.wait_loop]; quiet_solve.
Qed.
#[local] Hint Resolve quiet_wait_loop quiet_installer_wait_loop : quiet.

Lemma quiet_safe_loop {St A} (operation : M St A) max_attempts delay remaining :
  quiet operation ->
  forall attempt last_exception,
    quiet (Utilities.safe_loop operation max_attempts delay remaining attempt last_exception).
Proof.
  intros Hop. induction remaining as [|n IH]; intros attempt last_exception.
  - cbn [Utilities.safe_loop]. destruct last_exception; apply quiet_raise.
  - intros s. cbn [Utilities.safe_loop]. specialize (Hop s). unfold events in *.
    destruct (operation s) as [[s1 ev1] [a|e]]; cbn [fst snd] in *; [exact Hop|].
    destruct (is_OSError e); [|exact Hop].
    match goal with
    | |- context [let (_, _) := ?m s1 in _] =>
        assert (Hq : quiet m); [|specialize (Hq s1); unfold events in Hq;
                                 destruct (m s1) as [[s2 ev2] r]]
    end.
    + quiet_solve.
    + cbn [fst snd] in *. rewrite forallb_app, Hop, Hq. reflexivity.
Qed.

Lemma quiet_copy_retry_loop {St} self (attempt_copy : M St unit) shown max_attempts remaining :
  quiet attempt_copy ->
  forall attempt,
    quiet (Updater.copy_retry_loop self attempt_copy shown max_attempts remaining attempt).
Proof.
  intros Hop. induction remaining as [|n IH]; intros attempt; cbn [Updater.copy_retry_loop].
  - apply quiet_ret.
  - quiet_solve.
Qed.

Lemma quiet_closure_loop self env max_wait_seconds fuel :
  forall round, quiet (Updater.closure_loop self env max_wait_seconds fuel round).
Proof.
  induction fuel as [|n IH]; intros round; cbn [Updater.closure_loop]; quiet_solve.
Qed.
#[local] Hint Resolve quiet_closure_loop : quiet.

Lemma quiet_pick_7z_asset l : quiet (UpdateChecker.pick_7z_asset l).
Proof. induction l as [|a l IH]; cbn [UpdateChecker.pick_7z_asset]; quiet_solve. Qed.

Lemma quiet_choose_executable name found :
  forall new_exe, quiet (UpdateChecker.choose_executable name found new_exe).
Proof.
  induction found as [|[[p f] c] found IH]; intros new_exe;
    cbn [UpdateChecker.choose_executable]; quiet_solve.
Qed.
#[local] Hint Resolve quiet_pick_7z_asset quiet_choose_executable : quiet.

Ltac quiet_flow :=
  repeat first
    [ quiet_step
    | apply quiet_write_chunks; intros
    | apply quiet_safe_loop
    | apply quiet_copy_retry_loop ].

Lemma quiet_prepare_exe_update env : quiet (UpdateChecker.prepare_exe_update env).
Proof. unfold UpdateChecker.prepare_exe_update. quiet_flow. Qed.

Lemma quiet_stage_new_executable env c : quiet (UpdateChecker.stage_new_executable env c).
Proof. unfold UpdateChecker.stage_new_executable. quiet_flow. Qed.

(** ** The restart hook comes last *)











(** ** Failures of the flows *)





(** The loop of the standalone installer's source flow returns whatever
    its copies do. *)
Lemma installer_copy_items_return self root project_root items : forall s,
  result (Updater.copy_items self root project_root items s) = Returned tt.
Proof.
  unfold Updater.copy_items.
  induction items as [|item items IH]; intros s; [reflexivity|].
  cbn [for_each]. unfold bind at 1, result.
  match goal with
  | |- snd (match ?m s with _ => _ end) = _ =>
      assert (Hm : exists s1 ev1, m s = (s1, ev1, Returned tt))
  end.
  { destruct (child root item) as [src|].
    - unfold bind at 1.
      destruct (Updater.log self ("Copying " +:+ item +:+ "...") Info s) as [[s0 ev0] r0] eqn:Hl.
      apply log_run in Hl. destruct Hl as [-> ->].
      unfold try_except.
      match goal with
      | |- context [match ?b s with _ => _ end] => destruct (b s) as [[s1 ev1] [[]|e]]
      end.
      + eauto.
      + destruct (Updater.log self _ Error s1) as [[s2 ev2] r2] eqn:Hl.
        apply log_run in Hl. destruct Hl as [-> ->]. eauto.
    - destruct (Updater.log self _ Warning s) as [[s2 ev2] r2] eqn:Hl.
      apply log_run in Hl. destruct Hl as [-> ->]. eauto. }
  destruct Hm as (s1 & ev1 & ->). specialize (IH s1). unfold result in IH.
  destruct (for_each items _ s1) as [[s2 ev2] r]. exact IH.
Qed.



(** ** Computations that leave protected paths alone *)

Section Keeps.
Variable protected : path -> Prop.

Lemma frame_refl s : frame protected s s.
Proof. intros q _. reflexivity. Qed.

Lemma frame_trans s1 s2 s3 :
  frame protected s1 s2 -> frame protected s2 s3 -> frame protected s1 s3.
Proof. intros H12 H23 q Hq. rewrite (H23 q Hq). apply H12. exact Hq. Qed.

Lemma keeps_weaken {A} (m : M Sys A) (Q Q' : A -> Prop) :
  keeps protected m Q -> (forall a, Q a -> Q' a) -> keeps protected m Q'.
Proof. intros H HQ s s' evs r Hrun. destruct (H _ _ _ _ Hrun). split; auto. Qed.

Lemma keeps_ret {A} (a : A) (Q : A -> Prop) : Q a -> keeps protected (ret a) Q.
Proof.
  intros HQ s s' evs r H. inversion H; subst. split; [apply frame_refl|].
  intros b Hb. inversion Hb; subst. exact HQ.
Qed.

Lemma keeps_raise {A} (e : exn) (Q : A -> Prop) : keeps protected (raise e) Q.
Proof. intros s s' evs r H. inversion H; subst. split; [apply frame_refl | discriminate]. Qed.


Lemma keeps_emit (e : event) : keeps protected (emit e) (fun _ => True).
Proof. intros s s' evs r H. inversion H; subst. split; [apply frame_refl | auto]. Qed.

Lemma keeps_sleep (d : seconds) : keeps protected (sleep d) (fun _ => True).
Proof.
  intros s s' evs r H. apply sleep_run in H. subst s'. split; [|intros; exact I].
  intros q _. reflexivity.
Qed.

Lemma keeps_get : keeps protected get (fun _ => True).
Proof. intros s s' evs r H. inversion H; subst. split; [apply frame_refl | auto]. Qed.

(** A computation that does not touch the file system. *)
Lemma keeps_same_fs {A} (m : M Sys A) :
  (forall s, fs (final (m s)) = fs s) -> keeps protected m (fun _ => True).
Proof.
  intros Hm s s' evs r H. specialize (Hm s). rewrite H in Hm. unfold final in Hm.
  cbn [fst] in Hm. split; [|auto]. intros q _. rewrite Hm. reflexivity.
Qed.


Lemma keeps_bind {A B} (m : M Sys A) (k : A -> M Sys B) (Q : A -> Prop) (Q' : B -> Prop) :
  keeps protected m Q -> (forall a, Q a -> keeps protected (k a) Q') ->
  keeps protected (bind m k) Q'.
Proof.
  intros Hm Hk s s' evs r H. apply bind_run in H.
  destruct H as [(s1 & ev1 & a & ev2 & Hma & Hka & _)|(e & Hma & ->)].
  - destruct (Hm _ _ _ _ Hma) as (F1 & HQ).
    destruct (Hk a (HQ a eq_refl) _ _ _ _ Hka) as (F2 & HQ').
    split; [eapply frame_trans; eauto | exact HQ'].
  - destruct (Hm _ _ _ _ Hma) as (F1 & _). split; [exact F1 | discriminate].
Qed.

Lemma keeps_try {A} (body : M Sys A) (handler : exn -> M Sys A) (Q : A -> Prop) :
  keeps protected body Q -> (forall e, keeps protected (handler e) Q) ->
  keeps protected (try_except body handler) Q.
Proof.
  intros Hb Hh s s' evs r H. apply try_except_run in H.
  destruct H as [(a & Hba & ->)|(s1 & ev1 & e & ev2 & Hbe & Hhe & _)].
  - exact (Hb _ _ _ _ Hba).
  - destruct (Hb _ _ _ _ Hbe) as (F1 & _). destruct (Hh e _ _ _ _ Hhe) as (F2 & HQ).
    split; [eapply frame_trans; eauto | exact HQ].
Qed.

Lemma keeps_for_each {X} (l : list X) (body : X -> M Sys unit) :
  (forall x, keeps protected (body x) (fun _ => True)) ->
  keeps protected (for_each l body) (fun _ => True).
Proof.
  intros Hb. induction l as [|x l IH]; [apply keeps_ret; exact I|].
  cbn [for_each]. eapply keeps_bind; [apply Hb | intros _ _; exact IH].
Qed.


Lemma keeps_exists p : keeps protected (os_path_exists p) (fun _ => True).
Proof. apply keeps_same_fs. reflexivity. Qed.

Lemma keeps_is_file_locked p : keeps protected (Utilities.is_file_locked p) (fun _ => True).
Proof.
  apply keeps_same_fs. intros s. rewrite is_file_locked_run. apply after_poll_fs.
Qed.

Lemma keeps_wait_for_file_unlock p n d :
  keeps protected (Utilities.wait_for_file_unlock p n d) (fun _ => True).
Proof. apply keeps_same_fs. intros s. apply wait_loop_fs. Qed.





Lemma keeps_copy2 name c dst :
  ~ protected dst -> ~ protected (join dst name) ->
  keeps protected (shutil_copy2 name c dst) (fun _ => True).
Proof.
  intros Hd Hj s s' evs r. unfold shutil_copy2. cbv beta iota zeta delta [bind get].
  assert (Ht : ~ protected (if isdir_in (fs s) dst then join dst name else dst))
    by (destruct (isdir_in (fs s) dst); assumption).
  revert Ht. generalize (if isdir_in (fs s) dst then join dst name else dst).
  intros target Ht.
  destruct (fs s !! target) as [[c0|]|]; m_red;
    try (destruct (parent_is_dir (fs s) target); m_red;
         [destruct (faults s (tick s)); m_red|]);
    intros H; inversion H; subst; (split; [|auto]); try (intros q _; reflexivity);
    intros q Hq; cbn [fs set_fs]; apply lookup_insert_ne; intros ->; auto.
Qed.

Lemma keeps_safe_file_operation {A} (operation : M Sys A) n d :
  keeps protected operation (fun _ => True) ->
  keeps protected (Utilities.safe_file_operation operation n d) (fun _ => True).
Proof.
  intros Hop s s' evs r H. unfold Utilities.safe_file_operation in H.
  eapply (safe_loop_rule (fun _ => True) (frame protected)) with (Q := fun _ _ => True) in H.
  - destruct H as (_ & HF & _). split; auto.
  - apply frame_refl.
  - apply frame_trans.
  - intros s0 s1 ev0 r0 _ Hr. destruct (Hop _ _ _ _ Hr). auto.
  - exact I.
Qed.

Lemma keeps_mkdir p leaf :
  ~ protected p -> keeps protected (mkdir_exist_ok p leaf) (fun _ => True).
Proof.
  intros Hp s s' evs r H. split; [|auto]. intros q Hq.
  destruct (mkdir_exist_ok_effect _ _ _ _ _ _ H q) as [E|(-> & _)]; [exact E|].
  exfalso. exact (Hp Hq).
Qed.

Lemma keeps_makedirs p :
  (forall q, q `prefix_of` p -> q <> [] -> ~ protected q) ->
  keeps protected (os_makedirs p) (fun _ => True).
Proof.
  intros Hp s s' evs r H. split; [|auto]. intros q Hq.
  destruct (os_makedirs_effect _ _ _ _ _ H q) as [E|(_ & _ & Hpre & Hne)]; [exact E|].
  exfalso. exact (Hp q Hpre Hne Hq).
Qed.




End Keeps.

(** ** Paths beside the executable *)
















(** ** The in-application executable flow up to the staging step *)

Section Staging.
Variable env : Env.
Variable s0 : Sys.
Variable protected : path -> Prop.

(** The protected paths: the running executable with the directories
    that lead to it, which exist, and the path of the replacement
    script. *)
Hypothesis protected_spec : forall q,
  protected q <->
  (q `prefix_of` sys_executable env /\ q <> []) \/
  q = sys_executable env \/
  q = add_suffix (sys_executable env) ".update.bat".
Hypothesis executable_exists : forall p,
  p `prefix_of` sys_executable env -> p <> [] -> exists_in (fs s0) p = true.







Section BelowTemp.
Variable temp_dir : path.
Hypothesis temp_dir_fresh : forall q, protected q -> ~ temp_dir `prefix_of` q.



End BelowTemp.









End Staging.




(** ** A failed staging step leaves the running executable alone *)



(** The staged file taken away after a staging step that returned: the
    check reports it and the executable is as before. *)
Example missing_staged_file_is_reported :
  let staged := UpdateChecker.stage_new_executable windows_app staging_of_windows_app
                  (final (UpdateChecker.prepare_exe_update windows_app (installed_with []))) in
  let check := UpdateChecker.finish_exe_update staging_of_windows_app
                 (set_fs (delete ["C:"; "app"; "App.exe.new"]) (final staged)) in
  result staged = Returned tt /\
  result check = Returned tt /\
  List.last (events check) (Print "") =
    ShowError "Update Failed" "Failed to stage new executable." /\
  fs (final check) !! ["C:"; "app"; "App.exe"] = Some (FileN "OLD-EXE") /\
  fs (final check) !! ["C:"; "app"; "App.exe.update.bat"] = None /\
  forallb no_restart (events check) = true.
Proof. vm_compute. split_and!; reflexivity. Qed.

(** The run with the staging copy cut short leaves a partial file at the staged path. *)
Example truncated_staging_leaves_partial_file :
  fs (final (UpdateChecker.update_exe windows_app (installed_with truncated_staging)))
    !! ["C:"; "app"; "App.exe.new"] = Some (FileN "NEW").
Proof. vm_compute. reflexivity. Qed.


(** The backup copy and the renaming are attempts that are only logged
    when they fail: when both are refused and the copy is cut short, the
    partial file is all that is left of the executable. *)
Example installer_can_lose_executable :
  let s := installed_with refused_backup_and_rename in
  let run := Updater.update_exe (Updater.mkUpdater true true true) windows_app s in
  result run = Returned tt /\
  fs (final run) !! ["C:"; "app"; "App.exe"] = Some (FileN "NEW") /\
  fs (final run) !! ["C:"; "app"; "App.exe.old"] = None /\
  fs (final run) !! ["tmp"; "app_backup_1700000000"; "App.exe"] = None /\
  In (Log "Warning: Could not backup current executable: Permission denied: tmp/app_backup_1700000000/App.exe" Warning)
     (events run) /\
  In (Log "Could not rename old executable: Permission denied: C:/app/App.exe" Warning)
     (events run).
Proof. vm_compute. split_and!; try reflexivity; tauto. Qed.

(** ** Runs that end in failure *)


(** C3 fails in the code.  In the in-application executable flow, when
    every attempt of the staging copy is refused the flow reports the
    failure and returns with the session's temporary directory, the
    downloaded archive and the extracted files still in place.  In the
    installer's source flow, when neither archive holds the project the
    flow reports the failure and returns with the second download and its
    extraction directory still in place. *)
Theorem failed_flow_leaves_temporary_files :
  (let run := UpdateChecker.update_exe windows_app (installed_with denied_staging) in
   result run = Returned tt /\
   List.last (events run) (Print "") =
     ShowError "Update Failed"
       "Executable update failed: Permission denied: C:/app/App.exe.new" /\
   fs (installed_with denied_staging) !! ["tmp"; "tmp0"] = None /\
   fs (final run) !! ["tmp"; "tmp0"] = Some DirN /\
   fs (final run) !! ["tmp"; "tmp0"; "app.7z"] = Some (FileN "7zBYTES") /\
   fs (final run) !! ["tmp"; "tmp0"; "extracted"] = Some DirN /\
   fs (final run) !! ["tmp"; "tmp0"; "extracted"; "release"; "App.exe"] =
     Some (FileN "NEW-EXE")) /\
  (let run := Updater.update_source (Updater.mkUpdater true false true) unrecognised_archive
                (installed_with []) in
   result run = Returned tt /\
   List.last (events run) (Print "") =
     ShowError "Update Failed"
       "Standalone update failed: Could not find project structure in either release or main branch" /\
   fs (final run) !! ["tmp"; "tmp2.zip"] = Some (FileN "7zBYTES") /\
   fs (final run) !! ["tmp"; "tmp3"] = Some DirN /\
   fs (final run) !! ["tmp"; "tmp3"; "notes"; "a.txt"] = Some (FileN "a")).
Proof. split; vm_compute; split_and!; reflexivity. Qed.

(** * Properties of the rest of the code *)

(** ** [find_root] *)

Lemma prefix_snoc_inv (q p : list string) (x : string) :
  q `prefix_of` p ++ [x] -> q = p ++ [x] \/ q `prefix_of` p.
Proof.
  intros [k Hk]. induction k as [|y k' _] using rev_ind.
  - left. rewrite app_nil_r in Hk. symmetry. exact Hk.
  - right. rewrite app_assoc in Hk. apply app_inj_tail in Hk. destruct Hk as [-> _].
    exists k'. reflexivity.
Qed.

Lemma dirname_snoc (p : list string) (x : string) : dirname (p ++ [x]) = p.
Proof. unfold dirname. apply removelast_last. Qed.

Lemma nearest_holder_unique m start target r1 r2 :
  nearest_holder m start target r1 -> nearest_holder m start target r2 -> r1 = r2.
Proof.
  destruct r1 as [a|], r2 as [b|]; cbn; intros H1 H2.
  - destruct H1 as (Pa & Ea & Ma), H2 as (Pb & Eb & Mb).
    f_equal. apply (anti_symm prefix); auto.
  - destruct H1 as (Pa & Ea & _). rewrite (H2 a Pa) in Ea. discriminate.
  - destruct H2 as (Pb & Eb & _). rewrite (H1 b Pb) in Eb. discriminate.
  - reflexivity.
Qed.

Lemma nearest_holder_step m p x target r :
  exists_in m (join (p ++ [x]) target) = false ->
  nearest_holder m p target r -> nearest_holder m (p ++ [x]) target r.
Proof.
  intros Hx. destruct r as [root|]; cbn.
  - intros (Pr & Er & Mr). split_and!; [|exact Er|].
    + apply prefix_app_r. exact Pr.
    + intros q Hq Eq. destruct (prefix_snoc_inv _ _ _ Hq) as [->|Hq']; [congruence|auto].
  - intros Hn q Hq. destruct (prefix_snoc_inv _ _ _ Hq) as [->|Hq']; auto.
Qed.

Lemma nearest_holder_here m p target :
  exists_in m (join p target) = true -> nearest_holder m p target (Some p).
Proof. intros H. cbn. split_and!; [reflexivity | exact H | auto]. Qed.

Lemma utilities_find_root_loop_eq target n p :
  UtilitiesRest.find_root_loop target (S n) p =
  (do ex <- os_path_exists (join p target);
   if ex then
     print ("[find_root] Found '" +:+ target +:+ "' at: " +:+ str_path (join p target)) ;;;
     ret (Some p)
   else if bool_decide (dirname p = p) then ret None
        else UtilitiesRest.find_root_loop target n (dirname p)).
Proof. reflexivity. Qed.

Lemma installer_find_root_loop_eq target n p :
  UpdateUtilitiesRest.find_root_loop target (S n) p =
  (do ex <- os_path_exists (join (dirname p) target);
   if ex then ret (Some (dirname p))
   else if bool_decide (dirname (dirname p) = dirname p) then ret None
        else UpdateUtilitiesRest.find_root_loop target n (dirname p)).
Proof. reflexivity. Qed.

Lemma utilities_find_root_loop target s : forall p,
  exists evs r,
    UtilitiesRest.find_root_loop target (S (length p)) p s = (s, evs, Returned r) /\
    nearest_holder (fs s) p target r.
Proof.
  induction p as [|x p IH] using rev_ind.
  - cbn [length UtilitiesRest.find_root_loop]. unfold print. m_red.
    destruct (fs s !! join [] target) as [n|] eqn:E; m_red.
    + eexists _, _. split; [reflexivity|]. apply nearest_holder_here.
      unfold exists_in. rewrite E. reflexivity.
    + eexists _, _. split; [reflexivity|]. cbn. intros q Hq.
      apply prefix_nil_inv in Hq. subst q. unfold exists_in. rewrite E. reflexivity.
  - destruct IH as (evs & r & Hrun & Hr).
    rewrite length_app, Nat.add_1_r. revert Hrun. generalize (length p) as k. intros k Hrun.
    rewrite utilities_find_root_loop_eq.
    rewrite dirname_snoc. unfold print. m_red.
    destruct (fs s !! join (p ++ [x]) target) as [n|] eqn:E; m_red.
    + eexists _, _. split; [reflexivity|]. apply nearest_holder_here.
      unfold exists_in. rewrite E. reflexivity.
    + rewrite bool_decide_eq_false_2.
      2:{ intros H. apply (f_equal (@length string)) in H. rewrite length_app in H.
          cbn in H. lia. }
      rewrite Hrun.
      eexists _, _. split; [reflexivity|]. apply nearest_holder_step; [|exact Hr].
      unfold exists_in. rewrite E. reflexivity.
Qed.

Lemma installer_find_root_loop target s : forall p x,
  exists r,
    UpdateUtilitiesRest.find_root_loop target (S (length (p ++ [x]))) (p ++ [x]) s
      = (s, [], Returned r) /\
    nearest_holder (fs s) p target r.
Proof.
  induction p as [|y p IH] using rev_ind; intros x.
  - cbn [app length UpdateUtilitiesRest.find_root_loop]. m_red.
    change (dirname [x]) with (@nil string). change (dirname []) with (@nil string).
    destruct (fs s !! join [] target) as [n|] eqn:E; m_red.
    + eexists. split; [reflexivity|]. apply nearest_holder_here.
      unfold exists_in. rewrite E. reflexivity.
    + eexists. split; [reflexivity|]. cbn. intros q Hq.
      apply prefix_nil_inv in Hq. subst q. unfold exists_in. rewrite E. reflexivity.
  - destruct (IH y) as (r & Hrun & Hr).
    rewrite length_app, Nat.add_1_r. revert Hrun. generalize (length (p ++ [y])) as k.
    intros k Hrun. rewrite installer_find_root_loop_eq.
    rewrite !dirname_snoc. m_red.
    destruct (fs s !! join (p ++ [y]) target) as [n|] eqn:E; m_red.
    + eexists. split; [reflexivity|]. apply nearest_holder_here.
      unfold exists_in. rewrite E. reflexivity.
    + rewrite bool_decide_eq_false_2.
      2:{ intros H. apply (f_equal (@length string)) in H. rewrite length_app in H.
          cbn in H. lia. }
      rewrite Hrun.
      eexists. split; [reflexivity|]. apply nearest_holder_step; [|exact Hr].
      unfold exists_in. rewrite E. reflexivity.
Qed.

(** X1.  [Utilities.find_root] leaves the file system as it is, never
    raises, and returns the deepest directory among the start directory
    and its ancestors that holds the target; it returns [None] exactly
    when none of them holds it. *)
Theorem find_root_returns_nearest_holder :
  forall (here : path) (target_name : string) (s : Sys),
    let run := UtilitiesRest.find_root here target_name s in
    final run = s /\
    exists found, result run = Returned found /\
                  nearest_holder (fs s) here target_name found.
Proof.
  intros here target s run. subst run. unfold UtilitiesRest.find_root.
  destruct (utilities_find_root_loop target s here) as (evs & r & Hrun & Hr).
  rewrite Hrun. split; [reflexivity|]. exists r. split; [reflexivity | exact Hr].
Qed.

(** X2.  The installer's [UpdateUtilities.find_root], started from the
    path of its script, finds what [Utilities.find_root] finds from the
    directory of that script: the two searches agree on every file
    system. *)
Theorem find_root_searches_agree :
  forall (script_dir : path) (script_name target_name : string) (s : Sys),
    result (UpdateUtilitiesRest.find_root (join script_dir script_name) target_name s) =
    result (UtilitiesRest.find_root script_dir target_name s) /\
    final (UpdateUtilitiesRest.find_root (join script_dir script_name) target_name s) =
    final (UtilitiesRest.find_root script_dir target_name s).
Proof.
  intros dir name target s. unfold UpdateUtilitiesRest.find_root, UtilitiesRest.find_root, join.
  destruct (installer_find_root_loop target s dir name) as (r & Hrun & Hr).
  destruct (utilities_find_root_loop target s dir) as (evs' & r' & Hrun' & Hr').
  rewrite Hrun, Hrun'. cbn [result final fst snd].
  rewrite (nearest_holder_unique _ _ _ _ _ Hr Hr'). split; reflexivity.
Qed.

(** ** File names: [replace_invalid_chars] *)

Lemma rstrip_cons c s :
  rstrip (String c s) =
  match rstrip s with
  | EmptyString => if is_space c then EmptyString else String c EmptyString
  | r => String c r
  end.
Proof. reflexivity. Qed.

Lemma rstrip_chars s : forall c, In c (chars (rstrip s)) -> In c (chars s).
Proof.
  induction s as [|x s IH]; intros c; [auto|]. rewrite rstrip_cons.
  destruct (rstrip s) as [|y r] eqn:E.
  - destruct (is_space x); cbn; [tauto|]. intros [<-|[]]. left. reflexivity.
  - cbn. intros [<-|H]; [left; reflexivity|]. right. apply IH. exact H.
Qed.

Lemma rstrip_length s : (String.length (rstrip s) <= String.length s)%nat.
Proof.
  induction s as [|x s IH]; [reflexivity|]. rewrite rstrip_cons.
  destruct (rstrip s) as [|y r]; [destruct (is_space x)|]; cbn in *; lia.
Qed.

Lemma rstrip_idempotent s : rstrip (rstrip s) = rstrip s.
Proof.
  induction s as [|x s IH]; [reflexivity|]. rewrite rstrip_cons.
  destruct (rstrip s) as [|y r] eqn:E.
  - destruct (is_space x) eqn:Ex; [reflexivity|]. cbn. rewrite Ex. reflexivity.
  - rewrite rstrip_cons, IH. reflexivity.
Qed.

(** The last character of a stripped string is no white space. *)
Lemma rstrip_last s pre c : rstrip s = pre +:+ String c EmptyString -> is_space c = false.
Proof.
  revert pre. induction s as [|x s IH]; intros pre.
  - destruct pre; discriminate.
  - rewrite rstrip_cons. destruct (rstrip s) as [|y r] eqn:E.
    + destruct (is_space x) eqn:Ex; [destruct pre; discriminate|].
      destruct pre as [|p pre]; [intros [= <-]; exact Ex|].
      intros [= _ H]. destruct pre; discriminate.
    + destruct pre as [|p pre]; [discriminate|]. intros [= _ H]. exact (IH pre H).
Qed.

Lemma rstrip_map_chars (f : ascii -> ascii) s :
  (forall c, is_space (f c) = is_space c) ->
  rstrip (UtilitiesRest.map_chars f s) = UtilitiesRest.map_chars f (rstrip s).
Proof.
  intros Hf. induction s as [|x s IH]; [reflexivity|].
  cbn [UtilitiesRest.map_chars]. rewrite !rstrip_cons, IH.
  destruct (rstrip s) as [|y r]; cbn [UtilitiesRest.map_chars]; [|reflexivity].
  rewrite Hf. destruct (is_space x); reflexivity.
Qed.

Lemma map_chars_chars (f : ascii -> ascii) s :
  chars (UtilitiesRest.map_chars f s) = map f (chars s).
Proof. induction s as [|x s IH]; [reflexivity|]. cbn. f_equal. exact IH. Qed.

Lemma map_chars_length (f : ascii -> ascii) s :
  String.length (UtilitiesRest.map_chars f s) = String.length s.
Proof. induction s as [|x s IH]; [reflexivity|]. cbn. f_equal. exact IH. Qed.

Lemma map_chars_twice (f : ascii -> ascii) s :
  (forall c, f (f c) = f c) ->
  UtilitiesRest.map_chars f (UtilitiesRest.map_chars f s) = UtilitiesRest.map_chars f s.
Proof. intros Hf. induction s as [|x s IH]; [reflexivity|]. cbn. rewrite Hf, IH. reflexivity. Qed.

Lemma invalid_char_cases c :
  UtilitiesRest.invalid_char c = true -> In (nat_of_ascii c) UtilitiesRest.invalid_chars.
Proof.
  unfold UtilitiesRest.invalid_char. intros H. apply existsb_exists in H.
  destruct H as (n & Hn & Heq). apply Nat.eqb_eq in Heq. rewrite Heq. exact Hn.
Qed.

Lemma underscore_valid c :
  UtilitiesRest.invalid_char (if UtilitiesRest.invalid_char c then "_"%char else c) = false.
Proof. destruct (UtilitiesRest.invalid_char c) eqn:E; [reflexivity | exact E]. Qed.

Lemma underscore_keeps_space c :
  is_space (if UtilitiesRest.invalid_char c then "_"%char else c) = is_space c.
Proof.
  destruct (UtilitiesRest.invalid_char c) eqn:E; [|reflexivity].
  apply invalid_char_cases in E. unfold is_space.
  cbn in E. repeat (destruct E as [<-|E]; [reflexivity|]). destruct E.
Qed.

(** X3.  The name [replace_invalid_chars] returns holds none of the
    characters that are invalid in a file name, does not end in white
    space, and is not longer than the name given. *)
Theorem replace_invalid_chars_is_valid :
  forall name : string,
    let cleaned := UtilitiesRest.replace_invalid_chars name in
    (forall c, In c (chars cleaned) -> UtilitiesRest.invalid_char c = false) /\
    (forall pre c, cleaned = pre +:+ String c EmptyString -> is_space c = false) /\
    (String.length cleaned <= String.length name)%nat.
Proof.
  intros name cleaned. subst cleaned. unfold UtilitiesRest.replace_invalid_chars. split_and!.
  - intros c Hc. apply rstrip_chars in Hc. rewrite map_chars_chars in Hc.
    apply in_map_iff in Hc. destruct Hc as (x & <- & _). apply underscore_valid.
  - intros pre c. apply rstrip_last.
  - etransitivity; [apply rstrip_length|]. rewrite map_chars_length. reflexivity.
Qed.

(** X4.  [replace_invalid_chars] is idempotent, and a name that holds no
    invalid character and does not end in white space is returned as it
    is. *)
Theorem replace_invalid_chars_idempotent :
  forall name : string,
    UtilitiesRest.replace_invalid_chars (UtilitiesRest.replace_invalid_chars name)
      = UtilitiesRest.replace_invalid_chars name /\
    ((forall c, In c (chars name) -> UtilitiesRest.invalid_char c = false) ->
     rstrip name = name ->
     UtilitiesRest.replace_invalid_chars name = name).
Proof.
  intros name. unfold UtilitiesRest.replace_invalid_chars. split.
  - pose proof (fun s => rstrip_map_chars _ s underscore_keeps_space) as E.
    rewrite (E name), map_chars_twice, (E (rstrip name)), rstrip_idempotent; [reflexivity|].
    intros c. rewrite underscore_valid. reflexivity.
  - intros Hvalid Hstrip. rewrite (rstrip_map_chars _ _ underscore_keeps_space), Hstrip.
    clear Hstrip. induction name as [|x name IH]; [reflexivity|].
    cbn [UtilitiesRest.map_chars]. rewrite (Hvalid x) by (left; reflexivity).
    f_equal. apply IH. intros c Hc. apply Hvalid. right. exact Hc.
Qed.

Lemma replace_invalid_chars_idempotent_witness :
  UtilitiesRest.replace_invalid_chars "walk cycle_01" = "walk cycle_01".
Proof.
  apply (proj2 (replace_invalid_chars_idempotent "walk cycle_01")).
  - intros c Hc. cbn in Hc.
    repeat (destruct Hc as [<-|Hc]; [reflexivity|]). destruct Hc.
  - reflexivity.
Defined.

Example replace_invalid_chars_example :
  UtilitiesRest.replace_invalid_chars "idle: left/right? " = "idle_ left_right_".
Proof. vm_compute. reflexivity. Qed.

(** ** File names: [strip_trailing_digits] *)

Lemma append_assoc (a b c : string) : (a +:+ b) +:+ c = a +:+ (b +:+ c).
Proof.
  induction a as [|x a IH]; [reflexivity|].
  change (String x ((a +:+ b) +:+ c) = String x (a +:+ (b +:+ c))). rewrite IH. reflexivity.
Qed.

Lemma append_cons (x : ascii) (a b : string) : String x a +:+ b = String x (a +:+ b).
Proof. reflexivity. Qed.

Lemma append_nil_l (a : string) : EmptyString +:+ a = a.
Proof. reflexivity. Qed.

Lemma append_nil_r (a : string) : a +:+ EmptyString = a.
Proof.
  induction a as [|x a IH]; [reflexivity|]. rewrite append_cons, IH. reflexivity.
Qed.

(** What may follow the digits of a match holds no digit. *)
Lemma opt_png_dollar_digit c s :
  UtilitiesRest.is_digit c = true -> UtilitiesRest.opt_png_dollar (String c s) = None.
Proof.
  intros Hc. unfold UtilitiesRest.opt_png_dollar, UtilitiesRest.at_dollar.
  assert (Hn : (48 <= nat_of_ascii c <= 57)%nat).
  { unfold UtilitiesRest.is_digit in Hc. apply andb_true_iff in Hc.
    destruct Hc as [H1 H2]. apply Nat.leb_le in H1, H2. lia. }
  assert (Hdot : Ascii.eqb "."%char c = false).
  { apply Ascii.eqb_neq. intros <-. vm_compute in Hn. lia. }
  assert (Hnl : Ascii.eqb c (ascii_of_nat 10) = false).
  { apply Ascii.eqb_neq. intros ->. vm_compute in Hn. lia. }
  cbn [String.prefix]. destruct (ascii_dec "."%char c) as [Heq|_].
  { apply Ascii.eqb_neq in Hdot. contradiction. }
  cbn [String.eqb UtilitiesRest.newline]. rewrite Hnl. reflexivity.
Qed.

Lemma substring_all t : String.substring 0 (String.length t) t = t.
Proof. induction t as [|x t IH]; [reflexivity|]. cbn. f_equal. exact IH. Qed.

Lemma substring_after_four a b c d t :
  String.substring 4 (String.length (String a (String b (String c (String d t)))) - 4)
    (String a (String b (String c (String d t)))) = t.
Proof. cbn. rewrite Nat.sub_0_r. apply substring_all. Qed.

Lemma at_dollar_cases s r :
  UtilitiesRest.at_dollar s = Some r -> s = r /\ (r = EmptyString \/ r = UtilitiesRest.newline).
Proof.
  unfold UtilitiesRest.at_dollar.
  destruct (String.eqb_spec s "") as [->|_]; [intros [= <-]; auto|].
  destruct (String.eqb_spec s UtilitiesRest.newline) as [->|_]; [intros [= <-]; auto|].
  discriminate.
Qed.

Lemma opt_png_dollar_cases s r :
  UtilitiesRest.opt_png_dollar s = Some r ->
  (s = r \/ s = ".png" +:+ r) /\ (r = EmptyString \/ r = UtilitiesRest.newline).
Proof.
  unfold UtilitiesRest.opt_png_dollar.
  destruct (String.prefix ".png" s) eqn:Hp.
  - destruct s as [|c0 s]; [discriminate|]. cbn [String.prefix] in Hp.
    destruct (ascii_dec "."%char c0) as [<-|]; [|discriminate].
    destruct s as [|c1 s]; [discriminate|]. cbn [String.prefix] in Hp.
    destruct (ascii_dec "p"%char c1) as [<-|]; [|discriminate].
    destruct s as [|c2 s]; [discriminate|]. cbn [String.prefix] in Hp.
    destruct (ascii_dec "n"%char c2) as [<-|]; [|discriminate].
    destruct s as [|c3 t]; [discriminate|]. cbn [String.prefix] in Hp.
    destruct (ascii_dec "g"%char c3) as [<-|]; [|discriminate].
    rewrite substring_after_four.
    destruct (UtilitiesRest.at_dollar t) as [r'|] eqn:Ht.
    + intros [= <-]. apply at_dollar_cases in Ht. destruct Ht as [-> Hr]. auto.
    + intros H. apply at_dollar_cases in H. destruct H as [H Hr].
      destruct Hr as [->| ->]; discriminate.
  - intros H. apply at_dollar_cases in H. destruct H as [-> Hr]. auto.
Qed.

Lemma opt_png_dollar_sound s r :
  UtilitiesRest.opt_png_dollar s = Some r ->
  digit_after_other s = false /\ leading_digits s = O.
Proof.
  intros H. apply opt_png_dollar_cases in H.
  destruct H as [[->| ->] [->| ->]]; split; vm_compute; reflexivity.
Qed.

Lemma more_digits_sound k : forall s r,
  UtilitiesRest.more_digits k s = Some r ->
  digit_after_other s = false /\ (leading_digits s <= k)%nat.
Proof.
  induction k as [|k IH]; intros s r; cbn [UtilitiesRest.more_digits].
  - intros H. destruct (opt_png_dollar_sound s r H) as [H1 H2]. split; [exact H1 | lia].
  - destruct s as [|c s].
    + intros _. split; [reflexivity | cbn; lia].
    + destruct (UtilitiesRest.is_digit c) eqn:Hc.
      * destruct (UtilitiesRest.more_digits k s) as [r'|] eqn:Hm.
        -- intros _. destruct (IH s r' Hm) as [H1 H2]. split.
           ++ cbn [digit_after_other]. rewrite Hc, H1. reflexivity.
           ++ cbn [leading_digits]. rewrite Hc. lia.
        -- rewrite (opt_png_dollar_digit c s Hc). discriminate.
      * intros H. destruct (opt_png_dollar_sound _ r H) as [H1 H2]. split; [exact H1 | lia].
Qed.

Lemma match_here_sound s r :
  UtilitiesRest.match_here s = Some r ->
  digit_after_other s = false /\ (leading_digits s <= 4)%nat.
Proof.
  destruct s as [|c s]; [discriminate|]. cbn [UtilitiesRest.match_here].
  destruct (UtilitiesRest.is_digit c) eqn:Hc; [|discriminate].
  intros H. destruct (more_digits_sound 3 s r H) as [H1 H2]. split.
  - cbn [digit_after_other]. rewrite Hc, H1. reflexivity.
  - cbn [leading_digits]. rewrite Hc. lia.
Qed.

(** The digits, the optional extension and the optional newline are
    matched. *)
Lemma more_digits_end k ext nl :
  ext = EmptyString \/ ext = ".png" ->
  nl = EmptyString \/ nl = UtilitiesRest.newline ->
  UtilitiesRest.more_digits k (ext +:+ nl) = Some nl.
Proof.
  intros [->| ->] [->| ->]; destruct k; vm_compute; reflexivity.
Qed.

Lemma more_digits_complete ext nl :
  ext = EmptyString \/ ext = ".png" ->
  nl = EmptyString \/ nl = UtilitiesRest.newline ->
  forall cut k, all_digits cut = true -> (String.length cut <= k)%nat ->
    UtilitiesRest.more_digits k (cut +:+ ext +:+ nl) = Some nl.
Proof.
  intros He Hn. induction cut as [|c cut IH]; intros k Hd Hk.
  - rewrite append_nil_l. apply more_digits_end; assumption.
  - cbn [all_digits] in Hd. apply andb_true_iff in Hd. destruct Hd as [Hc Hd].
    destruct k as [|k]; [cbn in Hk; lia|].
    rewrite append_cons. cbn [UtilitiesRest.more_digits]. rewrite Hc.
    rewrite IH; [reflexivity | exact Hd | cbn in Hk; lia].
Qed.

Lemma match_here_complete cut ext nl :
  ext = EmptyString \/ ext = ".png" ->
  nl = EmptyString \/ nl = UtilitiesRest.newline ->
  all_digits cut = true -> (1 <= String.length cut <= 4)%nat ->
  UtilitiesRest.match_here (cut +:+ ext +:+ nl) = Some nl.
Proof.
  intros He Hn Hd Hl. destruct cut as [|c cut]; [cbn in Hl; lia|].
  cbn [all_digits] in Hd. apply andb_true_iff in Hd. destruct Hd as [Hc Hd].
  rewrite append_cons. cbn [UtilitiesRest.match_here]. rewrite Hc.
  apply more_digits_complete; [assumption..|cbn in Hl; lia].
Qed.

Lemma sub_trailing_digits_eq s :
  UtilitiesRest.sub_trailing_digits s =
  match UtilitiesRest.match_here s with
  | Some rest => rest
  | None =>
      match s with
      | EmptyString => EmptyString
      | String c s' => String c (UtilitiesRest.sub_trailing_digits s')
      end
  end.
Proof. destruct s; reflexivity. Qed.

Lemma ends_with_digit_cons c s :
  s <> EmptyString -> ends_with_digit (String c s) = ends_with_digit s.
Proof. destruct s; [congruence | reflexivity]. Qed.

Lemma digit_after_other_app b d u :
  b <> EmptyString -> ends_with_digit b = false -> UtilitiesRest.is_digit d = true ->
  digit_after_other (b +:+ String d u) = true.
Proof.
  intros Hb He Hd. induction b as [|c b IH]; [congruence|].
  rewrite append_cons. cbn [digit_after_other]. destruct b as [|c' b].
  - cbn in He. rewrite append_nil_l, He, Hd. reflexivity.
  - rewrite ends_with_digit_cons in He by discriminate.
    rewrite IH by (discriminate || exact He). apply orb_true_r.
Qed.

(** No match starts in a text that does not end in a digit when digits
    follow it. *)
Lemma sub_trailing_digits_skip pre d u :
  ends_with_digit pre = false -> UtilitiesRest.is_digit d = true ->
  UtilitiesRest.sub_trailing_digits (pre +:+ String d u) =
  pre +:+ UtilitiesRest.sub_trailing_digits (String d u).
Proof.
  intros He Hd. induction pre as [|c pre IH]; [reflexivity|].
  rewrite sub_trailing_digits_eq.
  destruct (UtilitiesRest.match_here (String c pre +:+ String d u)) as [r|] eqn:Hm.
  - apply match_here_sound in Hm. destruct Hm as [Hm _].
    rewrite digit_after_other_app in Hm by (discriminate || assumption). discriminate.
  - rewrite !append_cons. f_equal. destruct pre as [|c' pre]; [reflexivity|].
    apply IH. rewrite ends_with_digit_cons in He by discriminate. exact He.
Qed.

Lemma leading_digits_app kept t :
  all_digits kept = true ->
  leading_digits (kept +:+ t) = (String.length kept + leading_digits t)%nat.
Proof.
  intros Hd. induction kept as [|c kept IH]; [reflexivity|].
  cbn [all_digits] in Hd. apply andb_true_iff in Hd. destruct Hd as [Hc Hd].
  rewrite append_cons. cbn [leading_digits String.length]. rewrite Hc, IH by exact Hd.
  reflexivity.
Qed.

(** No match starts at a digit that four or more digits follow. *)
Lemma sub_trailing_digits_kept kept t :
  all_digits kept = true -> (4 <= leading_digits t)%nat ->
  UtilitiesRest.sub_trailing_digits (kept +:+ t) =
  kept +:+ UtilitiesRest.sub_trailing_digits t.
Proof.
  intros Hd Ht. induction kept as [|c kept IH]; [reflexivity|].
  rewrite sub_trailing_digits_eq.
  destruct (UtilitiesRest.match_here (String c kept +:+ t)) as [r|] eqn:Hm.
  - apply match_here_sound in Hm. destruct Hm as [_ Hm].
    rewrite leading_digits_app in Hm by exact Hd. cbn in Hm. lia.
  - cbn [all_digits] in Hd. apply andb_true_iff in Hd. destruct Hd as [Hc Hd].
    rewrite !append_cons. f_equal. apply IH. exact Hd.
Qed.

Lemma rstrip_app_newline s nl :
  nl = EmptyString \/ nl = UtilitiesRest.newline -> rstrip (s +:+ nl) = rstrip s.
Proof.
  intros [->| ->]; [rewrite append_nil_r; reflexivity|].
  induction s as [|c s IH]; [reflexivity|].
  rewrite append_cons, !rstrip_cons, IH. reflexivity.
Qed.

(** X5.  Let a name end in a run of digits, an optional [.png] and an
    optional newline, the run being cut off from a text that does not
    end in a digit.  [strip_trailing_digits] removes the last four digits
    of the run (the whole run when it has at most four), the extension
    and the newline, and strips the white space that then ends the
    name. *)
Theorem strip_trailing_digits_removes_last_four :
  forall (pre kept cut ext nl : string),
    ends_with_digit pre = false ->
    all_digits kept = true -> all_digits cut = true ->
    (1 <= String.length cut <= 4)%nat ->
    kept = EmptyString \/ String.length cut = 4%nat ->
    ext = EmptyString \/ ext = ".png" ->
    nl = EmptyString \/ nl = UtilitiesRest.newline ->
    UtilitiesRest.strip_trailing_digits (pre +:+ kept +:+ cut +:+ ext +:+ nl)
      = rstrip (pre +:+ kept).
Proof.
  intros pre kept cut ext nl Hpre Hkept Hcut Hlen Hfour Hext Hnl.
  unfold UtilitiesRest.strip_trailing_digits.
  assert (Hm := match_here_complete cut ext nl Hext Hnl Hcut Hlen).
  assert (Hsub : UtilitiesRest.sub_trailing_digits (kept +:+ cut +:+ ext +:+ nl)
                 = kept +:+ nl).
  { destruct Hfour as [->|H4].
    - rewrite append_nil_l, sub_trailing_digits_eq, Hm. reflexivity.
    - rewrite sub_trailing_digits_kept; [|exact Hkept|].
      + rewrite sub_trailing_digits_eq, Hm. reflexivity.
      + rewrite leading_digits_app by exact Hcut. lia. }
  assert (Hstart : exists d u, kept +:+ cut +:+ ext +:+ nl = String d u
                               /\ UtilitiesRest.is_digit d = true).
  { destruct kept as [|d kept].
    - destruct cut as [|d cut]; [cbn in Hlen; lia|].
      cbn [all_digits] in Hcut. apply andb_true_iff in Hcut.
      exists d, (cut +:+ ext +:+ nl). split; [reflexivity | apply Hcut].
    - cbn [all_digits] in Hkept. apply andb_true_iff in Hkept.
      exists d, (kept +:+ cut +:+ ext +:+ nl). split; [reflexivity | apply Hkept]. }
  destruct Hstart as (d & u & Heq & Hd).
  rewrite Heq, (sub_trailing_digits_skip pre d u Hpre Hd), <- Heq, Hsub.
  rewrite <- append_assoc. apply rstrip_app_newline. exact Hnl.
Qed.

Lemma strip_trailing_digits_removes_last_four_witness :
  UtilitiesRest.strip_trailing_digits ("walk2 " +:+ "" +:+ "0012" +:+ ".png" +:+ "")
    = rstrip ("walk2 " +:+ "").
Proof.
  apply (strip_trailing_digits_removes_last_four "walk2 " "" "0012" ".png" "");
    first [reflexivity | cbn; lia | left; reflexivity | right; reflexivity].
Defined.

Example strip_trailing_digits_examples :
  UtilitiesRest.strip_trailing_digits "walk2 0012.png" = "walk2" /\
  UtilitiesRest.strip_trailing_digits "frame123456" = "frame12" /\
  UtilitiesRest.strip_trailing_digits "idle01.gif" = "idle01.gif".
Proof. vm_compute. repeat split. Qed.

Lemma match_here_other c s :
  UtilitiesRest.is_digit c = false -> UtilitiesRest.match_here (String c s) = None.
Proof. intros Hc. cbn [UtilitiesRest.match_here]. rewrite Hc. reflexivity. Qed.

(** X6.  A name that holds no digit is only stripped of its trailing
    white space. *)
Theorem strip_trailing_digits_without_digits :
  forall name : string,
    (forall c, In c (chars name) -> UtilitiesRest.is_digit c = false) ->
    UtilitiesRest.strip_trailing_digits name = rstrip name.
Proof.
  intros name Hn. unfold UtilitiesRest.strip_trailing_digits. f_equal.
  induction name as [|c name IH]; [reflexivity|].
  rewrite sub_trailing_digits_eq, match_here_other by (apply Hn; left; reflexivity).
  f_equal. apply IH. intros x Hx. apply Hn. right. exact Hx.
Qed.

Lemma strip_trailing_digits_without_digits_witness :
  UtilitiesRest.strip_trailing_digits "idle " = "idle".
Proof.
  apply (strip_trailing_digits_without_digits "idle ").
  intros c Hc. cbn in Hc. repeat (destruct Hc as [<-|Hc]; [reflexivity|]). destruct Hc.
Defined.

(** ** File names: [format_filename] *)

Lemma chars_app (a b : string) : chars (a +:+ b) = chars a ++ chars b.
Proof.
  induction a as [|x a IH]; [reflexivity|].
  rewrite append_cons. unfold chars in *. cbn. rewrite IH. reflexivity.
Qed.

(** Replacing puts in characters of the replacement only. *)
Lemma replace_go_chars old new : forall s skip c,
  In c (chars (UtilitiesRest.replace_go old new skip s)) ->
  In c (chars s) \/ In c (chars new).
Proof.
  induction s as [|x s IH]; intros skip c; [cbn; tauto|].
  cbn [UtilitiesRest.replace_go]. destruct skip as [|k].
  - destruct (String.prefix old (String x s)).
    + rewrite chars_app, in_app_iff. intros [H|H]; [right; exact H|].
      destruct (IH _ _ H) as [H'|H']; [left; right; exact H' | right; exact H'].
    + intros [<-|H]; [left; left; reflexivity|].
      destruct (IH _ _ H) as [H'|H']; [left; right; exact H' | right; exact H'].
  - intros H. destruct (IH _ _ H) as [H'|H']; [left; right; exact H' | right; exact H'].
Qed.

Lemma interleave_chars new : forall s c,
  In c (chars (UtilitiesRest.interleave new s)) -> In c (chars s) \/ In c (chars new).
Proof.
  induction s as [|x s IH]; intros c; cbn [UtilitiesRest.interleave]; [tauto|].
  rewrite chars_app, in_app_iff. intros [H|[<-|H]].
  - right. exact H.
  - left. left. reflexivity.
  - destruct (IH _ H) as [H'|H']; [left; right; exact H' | right; exact H'].
Qed.

Lemma str_replace_chars s old new c :
  In c (chars (UtilitiesRest.str_replace s old new)) -> In c (chars s) \/ In c (chars new).
Proof.
  unfold UtilitiesRest.str_replace. destruct (String.eqb old "").
  - apply interleave_chars.
  - apply replace_go_chars.
Qed.

(** Replacing a character by nothing removes every occurrence of it. *)
Lemma str_replace_removes (x : ascii) : forall s,
  ~ In x (chars (UtilitiesRest.str_replace s (String x EmptyString) EmptyString)).
Proof.
  unfold UtilitiesRest.str_replace. cbn [String.eqb].
  induction s as [|c s IH]; [cbn; tauto|].
  cbn [UtilitiesRest.replace_go String.prefix String.length Nat.sub].
  destruct (ascii_dec x c) as [<-|Hne].
  - destruct s; exact IH.
  - intros [H|H]; [congruence | exact (IH H)].
Qed.

Section FormatFilenameFacts.
Variable splitext_root : string -> string.
Variable safe_substitute : string -> string -> string -> string.
Variable re_sub : string -> string -> string -> outcome string.

Lemma apply_rules_app rules1 : forall rules2 base_name,
  UtilitiesRest.apply_rules re_sub (rules1 ++ rules2) base_name =
  match UtilitiesRest.apply_rules re_sub rules1 base_name with
  | Returned name => UtilitiesRest.apply_rules re_sub rules2 name
  | Raised e => Raised e
  end.
Proof.
  induction rules1 as [|rule rules1 IH]; intros rules2 base_name; [reflexivity|].
  cbn [app UtilitiesRest.apply_rules]. destruct (UtilitiesRest.rule_regex rule).
  - destruct (re_sub _ _ base_name); [apply IH | reflexivity].
  - apply IH.
Qed.

(** Literal rules never raise, and bring in characters of their
    replacements only. *)
Lemma apply_literal_rules (avoid : ascii -> Prop) rules : forall base_name,
  Forall (fun rule => UtilitiesRest.rule_regex rule = false /\
                      forall c, In c (chars (UtilitiesRest.rule_replace rule)) -> ~ avoid c)
         rules ->
  (forall c, In c (chars base_name) -> ~ avoid c) ->
  exists name, UtilitiesRest.apply_rules re_sub rules base_name = Returned name /\
               forall c, In c (chars name) -> ~ avoid c.
Proof.
  induction rules as [|rule rules IH]; intros base_name Hrules Hbase.
  - exists base_name. split; [reflexivity | exact Hbase].
  - inversion Hrules as [|? ? [Hlit Hrep] Hrest]; subst.
    cbn [UtilitiesRest.apply_rules]. rewrite Hlit. apply IH; [exact Hrest|].
    intros c Hc. destruct (str_replace_chars _ _ _ _ Hc) as [H|H]; auto.
Qed.
End FormatFilenameFacts.

(** X7.  With the format [No spaces] and rules that are all literal,
    [format_filename] returns a name without a space, provided no
    replacement of a rule holds one; with [No special characters] the
    name holds no space, hyphen or underscore, provided no replacement
    holds one of them.  Literal rules never make it raise. *)
Theorem format_filename_presets_remove_characters :
  forall (splitext_root : string -> string)
         (safe_substitute : string -> string -> string -> string)
         (re_sub : string -> string -> string -> outcome string)
         (prefix : option string) (sprite_name animation_name : string)
         (replace_rules : list UtilitiesRest.replace_rule) (removed : list ascii)
         (filename_format : string),
    (filename_format = "No spaces" /\ removed = [" "%char]) \/
    (filename_format = "No special characters" /\ removed = [" "%char; "-"%char; "_"%char]) ->
    Forall (fun rule => UtilitiesRest.rule_regex rule = false /\
                        forall c, In c (chars (UtilitiesRest.rule_replace rule)) ->
                                  ~ In c removed) replace_rules ->
    exists name,
      UtilitiesRest.format_filename splitext_root safe_substitute re_sub prefix sprite_name
        animation_name (Some filename_format) replace_rules = Returned name /\
      forall c, In c (chars name) -> ~ In c removed.
Proof.
  intros splitext_root safe_substitute re_sub prefix sprite anim rules removed fmt Hfmt Hrules.
  unfold UtilitiesRest.format_filename.
  apply (apply_literal_rules re_sub (fun c => In c removed)); [exact Hrules|].
  destruct Hfmt as [[-> ->]|[-> ->]].
  - cbn [name_in existsb String.eqb Ascii.eqb Bool.eqb orb andb].
    intros c Hc [<-|[]]. exact (str_replace_removes _ _ Hc).
  - cbn [name_in existsb String.eqb Ascii.eqb Bool.eqb orb andb].
    intros c Hc [<-|[<-|[<-|[]]]].
    + apply str_replace_chars in Hc. destruct Hc as [Hc|[]].
      apply str_replace_chars in Hc. destruct Hc as [Hc|[]].
      exact (str_replace_removes _ _ Hc).
    + apply str_replace_chars in Hc. destruct Hc as [Hc|[]].
      exact (str_replace_removes _ _ Hc).
    + exact (str_replace_removes _ _ Hc).
Qed.

Lemma format_filename_presets_remove_characters_witness :
  exists name,
    UtilitiesRest.format_filename (fun s => s) (fun t _ _ => t) (fun _ _ s => Returned s)
      (Some "boy") "idle left" "walk_1" (Some "No special characters")
      [UtilitiesRest.mkRule false "boy" "girl"] = Returned name /\
    forall c, In c (chars name) -> ~ In c [" "%char; "-"%char; "_"%char].
Proof.
  apply (format_filename_presets_remove_characters (fun s => s) (fun t _ _ => t)
           (fun _ _ s => Returned s) (Some "boy") "idle left" "walk_1"
           [UtilitiesRest.mkRule false "boy" "girl"] [" "%char; "-"%char; "_"%char]
           "No special characters").
  - right. split; reflexivity.
  - constructor; [|constructor]. split; [reflexivity|].
    intros c Hc. cbn in Hc. destruct Hc as [<-|[<-|[<-|[<-|[]]]]];
      intros [H|[H|[H|[]]]]; discriminate.
Defined.

Example format_filename_examples :
  UtilitiesRest.format_filename (fun s => s) (fun t _ _ => t) (fun _ _ s => Returned s)
    (Some "boy") "idle left" "walk_1" (Some "No special characters")
    [UtilitiesRest.mkRule false "boy" "girl"] = Returned "girlidleleftwalk1" /\
  UtilitiesRest.format_filename (fun s => s) (fun t _ _ => t) (fun _ _ s => Returned s)
    None "idle left" "walk_1" None [] = Returned "idle left - walk_1" /\
  UtilitiesRest.str_replace "aaa" "aa" "b" = "ba" /\
  UtilitiesRest.str_replace "ab" "" "-" = "-a-b-".
Proof. vm_compute. repeat split. Qed.

(** X8.  The rules of [format_filename] apply in order, each to the
    result of the one before: formatting with two lists of rules in a row
    is formatting with the first and applying the second to the name
    returned, and a rule that raises ends the formatting with its
    exception, whatever rules follow. *)
Theorem format_filename_rules_compose :
  forall (splitext_root : string -> string)
         (safe_substitute : string -> string -> string -> string)
         (re_sub : string -> string -> string -> outcome string)
         (prefix : option string) (sprite_name animation_name : string)
         (filename_format : option string)
         (rules1 rules2 : list UtilitiesRest.replace_rule),
    UtilitiesRest.format_filename splitext_root safe_substitute re_sub prefix sprite_name
      animation_name filename_format (rules1 ++ rules2) =
    match UtilitiesRest.format_filename splitext_root safe_substitute re_sub prefix
            sprite_name animation_name filename_format rules1 with
    | Returned name => UtilitiesRest.apply_rules re_sub rules2 name
    | Raised e => Raised e
    end.
Proof.
  intros. unfold UtilitiesRest.format_filename. apply apply_rules_app.
Qed.

(** ** Downloads *)

Lemma concat_empty_cons (h : string) (t : list string) :
  String.concat "" (h :: t) = h +:+ String.concat "" t.
Proof.
  destruct t as [|h' t]; [cbn [String.concat]; rewrite append_nil_r; reflexivity|].
  reflexivity.
Qed.

Lemma substring_take_drop (n : nat) : forall s,
  String.substring 0 n s +:+ String.substring n (String.length s - n) s = s.
Proof.
  induction n as [|n IH]; intros s.
  - rewrite Nat.sub_0_r, substring_all. destruct s; reflexivity.
  - destruct s as [|c s]; [reflexivity|].
    cbn [String.substring String.length Nat.sub]. rewrite append_cons, IH. reflexivity.
Qed.

Lemma substring_take_length (n : nat) : forall s,
  String.length (String.substring 0 n s) = Nat.min n (String.length s).
Proof.
  induction n as [|n IH]; intros s; [destruct s; reflexivity|].
  destruct s as [|c s]; [reflexivity|]. cbn [String.substring String.length Nat.min].
  rewrite IH. reflexivity.
Qed.

Lemma substring_drop_length (n : nat) : forall s,
  String.length (String.substring n (String.length s - n) s) = (String.length s - n)%nat.
Proof.
  induction n as [|n IH]; intros s.
  - rewrite Nat.sub_0_r, substring_all. reflexivity.
  - destruct s as [|c s]; [reflexivity|].
    cbn [String.substring String.length Nat.sub]. apply IH.
Qed.

Lemma slices_concat (chunk_size : nat) : (0 < chunk_size)%nat ->
  forall rounds payload, (String.length payload <= rounds)%nat ->
    String.concat "" (ManualUpdaterUi.slices rounds chunk_size payload) = payload /\
    Forall (fun chunk => (1 <= String.length chunk <= chunk_size)%nat)
           (ManualUpdaterUi.slices rounds chunk_size payload).
Proof.
  intros Hpos. induction rounds as [|rounds IH]; intros payload Hlen.
  - destruct payload; [split; [reflexivity | constructor] | cbn in Hlen; lia].
  - destruct payload as [|c payload]; [split; [reflexivity | constructor]|].
    cbn [ManualUpdaterUi.slices].
    set (whole := String c payload) in *.
    assert (Hrest : (String.length (String.substring chunk_size
                       (String.length whole - chunk_size) whole) <= rounds)%nat).
    { rewrite substring_drop_length. cbn [String.length whole] in *. lia. }
    destruct (IH _ Hrest) as [Hc Hf]. split.
    + rewrite concat_empty_cons, Hc. apply substring_take_drop.
    + constructor; [|exact Hf]. rewrite substring_take_length.
      cbn [String.length whole]. lia.
Qed.

(** X9.  The chunks of [_FakeResponse.iter_content] with a positive
    chunk size are not empty, not longer than the chunk size, and
    concatenate to the payload; a chunk size of zero raises [ValueError]
    and a negative one yields nothing. *)
Theorem iter_content_chunks_payload :
  forall (payload : string) (chunk_size : Z),
    (0 < chunk_size ->
     exists l, ManualUpdaterUi.iter_content payload chunk_size = Returned l /\
               String.concat "" l = payload /\
               Forall (fun chunk => 1 <= Z.of_nat (String.length chunk) <= chunk_size) l) /\
    (chunk_size = 0 ->
     ManualUpdaterUi.iter_content payload chunk_size =
       Raised (mkExn ValueError "range() arg 3 must not be zero")) /\
    (chunk_size < 0 -> ManualUpdaterUi.iter_content payload chunk_size = Returned []).
Proof.
  intros payload n. unfold ManualUpdaterUi.iter_content. split_and!.
  - intros Hn. destruct (Z.eqb_spec n 0); [lia|]. destruct (Z.ltb_spec n 0); [lia|].
    eexists. split; [reflexivity|].
    destruct (slices_concat (Z.to_nat n) ltac:(lia) (String.length payload) payload
                ltac:(lia)) as [Hc Hf].
    split; [exact Hc|]. eapply Forall_impl; [exact Hf|]. cbn. intros chunk Hchunk. lia.
  - intros ->. reflexivity.
  - intros Hn. destruct (Z.eqb_spec n 0); [lia|]. destruct (Z.ltb_spec n 0); [|lia].
    reflexivity.
Qed.

Lemma iter_content_chunks_payload_witness :
  exists l, ManualUpdaterUi.iter_content "release bytes" 5 = Returned l /\
            String.concat "" l = "release bytes" /\
            Forall (fun chunk => 1 <= Z.of_nat (String.length chunk) <= 5) l.
Proof.
  apply (proj1 (iter_content_chunks_payload "release bytes" 5)). lia.
Defined.

Example iter_content_example :
  ManualUpdaterUi.iter_content "release bytes" 5 = Returned ["relea"; "se by"; "tes"].
Proof. vm_compute. reflexivity. Qed.

(** The loop over the candidate names stops at the first one that does
    not exist, and gives up when none of the names tried is free. *)
Lemma temp_loop_first_free suffix made what (k : nat) : forall tries s,
  (k < tries)%nat ->
  (forall j, (j < k)%nat -> exists_in (fs s) (temp_name (temps s + j) suffix) = true) ->
  exists_in (fs s) (temp_name (temps s + k) suffix) = false ->
  temp_loop tries suffix made what s =
    (mkSys (<[temp_name (temps s + k) suffix := made]> (fs s)) (tick s) (faults s)
           (S (temps s + k)), [], Returned (temp_name (temps s + k) suffix)).
Proof.
  induction k as [|k IH]; intros tries s Hk Hbusy Hfree;
    (destruct tries as [|tries]; [lia|]); cbn [temp_loop]; m_red.
  - rewrite Nat.add_0_r in Hfree |- *. unfold exists_in in Hfree.
    destruct (fs s !! temp_name (temps s) suffix); [discriminate|]. reflexivity.
  - pose proof (Hbusy O ltac:(lia)) as H0. rewrite Nat.add_0_r in H0. unfold exists_in in H0.
    destruct (fs s !! temp_name (temps s) suffix); [|discriminate].
    rewrite (IH tries (mkSys (fs s) (tick s) (faults s) (S (temps s)))); cbn [fs tick faults temps].
    + replace (S (temps s) + k)%nat with (temps s + S k)%nat by lia. reflexivity.
    + lia.
    + intros j Hj. replace (S (temps s) + j)%nat with (temps s + S j)%nat by lia.
      apply Hbusy. lia.
    + replace (S (temps s) + k)%nat with (temps s + S k)%nat by lia. exact Hfree.
Qed.

Lemma temp_loop_gives_up suffix made what (tries : nat) : forall s,
  (forall j, (j < tries)%nat -> exists_in (fs s) (temp_name (temps s + j) suffix) = true) ->
  temp_loop tries suffix made what s =
    (mkSys (fs s) (tick s) (faults s) (temps s + tries), [],
     Raised (mkExn FileExistsError ("No usable temporary " +:+ what +:+ " name found"))).
Proof.
  induction tries as [|tries IH]; intros s Hbusy; cbn [temp_loop].
  - rewrite Nat.add_0_r. destruct s; reflexivity.
  - m_red. pose proof (Hbusy O ltac:(lia)) as H0. rewrite Nat.add_0_r in H0.
    unfold exists_in in H0.
    destruct (fs s !! temp_name (temps s) suffix); [|discriminate].
    rewrite IH; cbn [fs tick faults temps].
    + replace (S (temps s) + tries)%nat with (temps s + S tries)%nat by lia. reflexivity.
    + intros j Hj. replace (S (temps s) + j)%nat with (temps s + S j)%nat by lia.
      apply Hbusy. lia.
Qed.

Section WriteChunks.
Context {X : Type}.
Variable report : Z -> string -> M Sys X.
Hypothesis report_silent :
  forall v m s s' evs r, report v m s = (s', evs, r) -> s' = s /\ exists x, r = Returned x.
Variable p : path.
Variables base span total_size : Z.

Lemma report_step (v : Z) (m : string) (s s' : Sys) evs r :
  (if total_size =? 0 then ret tt else report v m ;;; ret tt) s = (s', evs, r) ->
  s' = s /\ r = Returned tt.
Proof.
  destruct (total_size =? 0); [intros H; inversion H; auto|].
  intros H. apply bind_run in H.
  destruct H as [(s3 & ? & ? & ? & Hr & Hret & _)|(e & Hr & _)].
  - apply report_silent in Hr. destruct Hr as [-> _]. inversion Hret. auto.
  - apply report_silent in Hr. destruct Hr as [_ [x Hx]]. discriminate.
Qed.

(** What the loop of a download leaves in the file: the bytes that were
    there and a prefix of the bytes of the chunks, all of them when the
    loop returns; nothing else changes; and the loop returns when no
    write is refused. *)
Lemma write_chunks_content cs : forall downloaded s c0 s' evs r,
  fs s !! p = Some (FileN c0) ->
  write_chunks report p base span total_size cs downloaded s = (s', evs, r) ->
  (exists written rest,
     fs s' !! p = Some (FileN (c0 +:+ written)) /\
     String.concat "" cs = written +:+ rest /\
     (r = Returned tt -> rest = "")) /\
  (forall q, q <> p -> fs s' !! q = fs s !! q) /\
  ((forall i, faults s (tick s + i)%nat = NoFault) -> r = Returned tt) /\
  (forall e, r = Raised e -> e = mkExn OSError ("write failed: " +:+ str_path p)).
Proof.
  induction cs as [|chunk cs IH]; intros downloaded s c0 s' evs r Hp.
  - cbn [write_chunks String.concat].
    intros H. inversion H; subst. split_and!; auto; [|discriminate].
    exists "", "". rewrite append_nil_r. auto.
  - rewrite concat_empty_cons. cbn [write_chunks].
    destruct (String.eqb_spec chunk "") as [->|Hne].
    + rewrite append_nil_l. apply IH. exact Hp.
    + cbv zeta. intros H.
      apply bind_run in H. destruct H as [(s1 & ev1 & [] & ev2 & Hw & H & _)|(e & Hw & ->)].
      * (* the write went through *)
        unfold file_write, append_bytes in Hw. revert Hw. m_red.
        destruct (faults s (tick s)) eqn:Ef; m_red; try discriminate.
        intros Hw. inversion Hw; subst s1 ev1. clear Hw.
        set (s1 := set_fs _ _) in H.
        assert (Hp1 : fs s1 !! p = Some (FileN (c0 +:+ chunk))).
        { subst s1. cbn [fs set_fs]. rewrite Hp. apply lookup_insert_eq. }
        assert (Hq1 : forall q, q <> p -> fs s1 !! q = fs s !! q).
        { intros q Hq. subst s1. cbn [fs set_fs]. rewrite Hp.
          apply lookup_insert_ne. congruence. }
        apply bind_run in H.
        destruct H as [(s2 & ev3 & [] & ev4 & Hrep & H & _)|(e & Hrep & _)];
          apply report_step in Hrep; destruct Hrep as [-> Hrep]; [|discriminate].
        destruct (IH _ _ _ _ _ _ Hp1 H) as ((written & rest & K1 & K2 & K3) & IH2 & IH3 & IH4).
        split_and!.
        -- exists (chunk +:+ written), rest. split_and!.
           ++ rewrite K1, append_assoc. reflexivity.
           ++ rewrite K2, append_assoc. reflexivity.
           ++ exact K3.
        -- intros q Hq. rewrite IH2 by exact Hq. apply Hq1. exact Hq.
        -- intros Hall. apply IH3. intros i. subst s1. cbn [faults tick set_fs].
           replace (S (tick s) + i)%nat with (tick s + S i)%nat by lia. apply Hall.
        -- exact IH4.
      * (* the write was refused *)
        unfold file_write, append_bytes in Hw. revert Hw. m_red.
        destruct (faults s (tick s)) eqn:Ef; m_red; try discriminate;
          intros Hw; inversion Hw; subst; cbn [fs set_fs]; split_and!.
        -- exists "", (chunk +:+ String.concat "" cs). rewrite append_nil_r.
           split_and!; [exact Hp | reflexivity | discriminate].
        -- reflexivity.
        -- intros Hall. specialize (Hall O). rewrite Nat.add_0_r in Hall. congruence.
        -- intros e [= <-]. reflexivity.
        -- exists (String.substring 0 n chunk),
             (String.substring n (String.length chunk - n) chunk +:+ String.concat "" cs).
           rewrite Hp. split_and!; [apply lookup_insert_eq | | discriminate].
           rewrite <- append_assoc, substring_take_drop. reflexivity.
        -- intros q Hq. rewrite Hp. apply lookup_insert_ne. congruence.
        -- intros Hall. specialize (Hall O). rewrite Nat.add_0_r in Hall. congruence.
        -- intros e [= <-]. reflexivity.
Qed.
End WriteChunks.

Lemma set_progress_silent self v m (s s' : Sys) evs r :
  Updater.set_progress self v m s = (s', evs, r) -> s' = s /\ exists x, r = Returned x.
Proof.
  unfold Updater.set_progress, print. destruct (Updater.console self);
    intros H; inversion H; eauto.
Qed.

(** X10.  A download of the installer goes to a fresh file of the
    temporary directory: the first candidate name that does not exist,
    whatever else is there.  Nothing but that file changes.  The file
    holds a prefix of the bytes of the chunks, in order and with nothing
    between them.  The path is returned only when every chunk was
    written and the stream ended without an error, and it is returned
    then if no write is refused; a refused write raises [OSError], an
    error of the stream is raised as it is, and in both cases the file
    stays with what was written.  Without a temporary directory, or
    when none of the [TMP_MAX] names tried is free, the download raises
    and changes nothing. *)
Theorem download_stores_the_chunks :
  forall (self : Updater.updater) (suffix : string) (base span total_size : Z)
         (resp : response) (s : Sys),
    let run := Updater.download_to_temp self suffix base span total_size resp s in
    (isdir_in (fs s) gettempdir = false ->
     result run = Raised (mkExn FileNotFoundError "No usable temporary directory found") /\
     fs (final run) = fs s) /\
    (isdir_in (fs s) gettempdir = true ->
     (forall j, (j < TMP_MAX)%nat ->
                exists_in (fs s) (temp_name (temps s + j) suffix) = true) ->
     result run = Raised (mkExn FileExistsError "No usable temporary file name found") /\
     fs (final run) = fs s) /\
    (forall k : nat,
       isdir_in (fs s) gettempdir = true -> (k < TMP_MAX)%nat ->
       (forall j, (j < k)%nat -> exists_in (fs s) (temp_name (temps s + j) suffix) = true) ->
       exists_in (fs s) (temp_name (temps s + k) suffix) = false ->
       let tmp_path := temp_name (temps s + k) suffix in
       (forall q, q <> tmp_path -> fs (final run) !! q = fs s !! q) /\
       (exists written rest,
          fs (final run) !! tmp_path = Some (FileN written) /\
          String.concat "" (chunks resp) = written +:+ rest /\
          (forall p, result run = Returned p ->
                     p = tmp_path /\ rest = "" /\ stream_error resp = None)) /\
       ((forall i, faults s (tick s + i)%nat = NoFault) ->
        result run = match stream_error resp with
                     | None => Returned tmp_path
                     | Some e => Raised e
                     end) /\
       (forall e, result run = Raised e ->
                  e = mkExn OSError ("write failed: " +:+ str_path tmp_path) \/
                  stream_error resp = Some e)).
Proof.
  intros self suffix base span total resp s run. subst run.
  unfold Updater.download_to_temp, named_temporary_file, fresh_temp.
  split_and!.
  - intros Hdir. m_red. unfold isdir_in in Hdir.
    destruct (fs s !! gettempdir) as [[c|]|]; try discriminate; split; reflexivity.
  - intros Hdir Hbusy.
    assert (Hloop := temp_loop_gives_up suffix (FileN "") "file" TMP_MAX s Hbusy).
    match goal with
    | |- result ?run = _ /\ _ =>
        assert (Hrun : run =
                  (mkSys (fs s) (tick s) (faults s) (temps s + TMP_MAX), [],
                   Raised (mkExn FileExistsError "No usable temporary file name found")))
    end.
    { unfold bind at 1. unfold bind at 1. unfold get at 1. rewrite Hdir, Hloop.
      reflexivity. }
    rewrite Hrun. split; reflexivity.
  - intros k Hdir Hk Hbusy Hfree. set (tmp_path := temp_name (temps s + k) suffix).
    assert (Hloop := temp_loop_first_free suffix (FileN "") "file" k TMP_MAX s Hk Hbusy Hfree).
    fold tmp_path in Hloop.
    set (s1 := mkSys (<[tmp_path := FileN ""]> (fs s)) (tick s) (faults s) (S (temps s + k)))
      in Hloop.
    assert (Hp1 : fs s1 !! tmp_path = Some (FileN "")) by apply lookup_insert_eq.
    assert (Hq1 : forall q, q <> tmp_path -> fs s1 !! q = fs s !! q).
    { intros q Hq. subst s1. cbn [fs]. apply lookup_insert_ne. congruence. }
    assert (Hrun : exists s2 evs r2 evs',
               write_chunks (Updater.set_progress self) tmp_path base span total
                 (chunks resp) 0 s1 = (s2, evs, r2) /\
               (do tmp_path <- (do s <- get;
                                if isdir_in (fs s) gettempdir
                                then temp_loop TMP_MAX suffix (FileN "") "file"
                                else raise (mkExn FileNotFoundError
                                              "No usable temporary directory found"));
                stream_to (Updater.set_progress self) tmp_path base span total resp ;;;
                ret tmp_path) s =
               (s2, evs',
                match r2 with
                | Returned _ => match stream_error resp with
                                | None => Returned tmp_path
                                | Some e => Raised e
                                end
                | Raised e => Raised e
                end)).
    { destruct (write_chunks (Updater.set_progress self) tmp_path base span total
                  (chunks resp) 0 s1) as [[s2 evs] r2] eqn:Hw.
      exists s2, evs, r2.
      unfold bind at 1. unfold bind at 1. unfold get at 1. rewrite Hdir, Hloop.
      unfold stream_to. unfold bind at 1. unfold bind at 1. rewrite Hw.
      destruct r2 as [[]|e]; [|eexists; split; reflexivity].
      destruct (stream_error resp); eexists; split; reflexivity. }
    destruct Hrun as (s2 & evs & r2 & evs' & Hw & Hrun). rewrite Hrun.
    cbn [final result fst snd].
    destruct (write_chunks_content _ (set_progress_silent self) _ _ _ _ _ _ _ _ _ _ _ Hp1 Hw)
      as ((written & rest & K1 & K2 & K3) & K4 & K5 & K6).
    rewrite append_nil_l in K1.
    split_and!.
    + intros q Hq. rewrite K4 by exact Hq. apply Hq1. exact Hq.
    + exists written, rest. split_and!; [exact K1 | exact K2 |].
      intros p0 Hp0. destruct r2 as [[]|e]; [|discriminate].
      destruct (stream_error resp); [discriminate|]. injection Hp0 as <-.
      split_and!; [reflexivity | apply K3; reflexivity | reflexivity].
    + intros Hall. rewrite (K5 Hall). reflexivity.
    + intros e He. destruct r2 as [[]|e2].
      * right. destruct (stream_error resp); [congruence | discriminate].
      * left. injection He as <-. apply K6. reflexivity.
Qed.

Lemma download_stores_the_chunks_witness :
  let run := Updater.download_to_temp (Updater.mkUpdater true false true) ".zip" 20 40 7
               (mkResponse 7 ["7zB"; ""; "YTES"] None)
               (mkSys (<[["tmp"; "tmp0.zip"] := FileN "mine"]> installed_app) 0
                      (schedule []) 0) in
  result run = Returned ["tmp"; "tmp1.zip"] /\
  fs (final run) !! ["tmp"; "tmp0.zip"] = Some (FileN "mine").
Proof.
  set (s := mkSys (<[["tmp"; "tmp0.zip"] := FileN "mine"]> installed_app) 0 (schedule []) 0).
  assert (Hdir : isdir_in (fs s) gettempdir = true) by (vm_compute; reflexivity).
  assert (Hk : (1 < TMP_MAX)%nat) by (unfold TMP_MAX; lia).
  assert (Hbusy : forall j, (j < 1)%nat ->
                    exists_in (fs s) (temp_name (temps s + j) ".zip") = true).
  { intros j Hj. replace j with O by lia. vm_compute. reflexivity. }
  assert (Hfree : exists_in (fs s) (temp_name (temps s + 1) ".zip") = false)
    by (vm_compute; reflexivity).
  destruct (proj2 (proj2 (download_stores_the_chunks (Updater.mkUpdater true false true)
                            ".zip" 20 40 7 (mkResponse 7 ["7zB"; ""; "YTES"] None) s))
              1%nat Hdir Hk Hbusy Hfree) as (Hframe & _ & Hres & _).
  split.
  - apply Hres. intros i. unfold s, schedule. cbn [faults]. destruct (tick _ + i)%nat as [|[|?]]; reflexivity.
  - rewrite Hframe; [vm_compute; reflexivity | discriminate].
Defined.

(** The fake response of the manual harness is stored byte for byte. *)
Lemma fake_response_chunks payload :
  String.concat "" (chunks (ManualUpdaterUi.fake_response payload)) = payload.
Proof.
  unfold ManualUpdaterUi.fake_response. cbn [chunks].
  unfold ManualUpdaterUi.iter_content. cbn [Z.eqb Z.ltb Z.compare].
  apply (slices_concat (Z.to_nat 8192) ltac:(lia) (String.length payload) payload); lia.
Qed.

(** ** The archive-root locators: which directory wins *)

Lemma checker_scan_first extract_dir extracted items found root :
  UpdateChecker.scan_for_root extract_dir extracted items = Some (found, root) ->
  exists before item after,
    items = before ++ item :: after /\
    found = join extract_dir item /\
    child extracted item = Some (Dir root) /\
    UpdateChecker._detect_project_root root = true /\
    (forall b sub, In b before -> child extracted b = Some (Dir sub) ->
                   UpdateChecker._detect_project_root sub = false).
Proof.
  induction items as [|item items IH]; [discriminate|].
  cbn [UpdateChecker.scan_for_root].
  destruct (child extracted item) as [[c|sub]|] eqn:Hc.
  - intros H. destruct (IH H) as (before & it & after & -> & Hf & Hch & Hd & Hb).
    exists (item :: before), it, after. split_and!; auto.
    intros b sub' [<-|Hin] Hsub; [congruence | eauto].
  - destruct (UpdateChecker._detect_project_root sub) eqn:Hd.
    + intros [= <- <-]. exists [], item, items. split_and!; auto. intros ? ? [].
    + intros H. destruct (IH H) as (before & it & after & -> & Hf & Hch & Hd' & Hb).
      exists (item :: before), it, after. split_and!; auto.
      intros b sub' [<-|Hin] Hsub; [congruence | eauto].
  - intros H. destruct (IH H) as (before & it & after & -> & Hf & Hch & Hd & Hb).
    exists (item :: before), it, after. split_and!; auto.
    intros b sub' [<-|Hin] Hsub; [congruence | eauto].
Qed.

Lemma installer_scan_first extract_dir extracted items found root :
  Updater.scan_for_root extract_dir extracted items = Some (found, root) ->
  exists before item after,
    items = before ++ item :: after /\
    found = join extract_dir item /\
    child extracted item = Some (Dir root) /\
    Updater._detect_project_root root false = true /\
    (forall b sub, In b before -> child extracted b = Some (Dir sub) ->
                   Updater._detect_project_root sub false = false).
Proof.
  induction items as [|item items IH]; [discriminate|].
  cbn [Updater.scan_for_root].
  destruct (child extracted item) as [[c|sub]|] eqn:Hc.
  - intros H. destruct (IH H) as (before & it & after & -> & Hf & Hch & Hd & Hb).
    exists (item :: before), it, after. split_and!; auto.
    intros b sub' [<-|Hin] Hsub; [congruence | eauto].
  - destruct (Updater._detect_project_root sub false) eqn:Hd.
    + intros [= <- <-]. exists [], item, items. split_and!; auto. intros ? ? [].
    + intros H. destruct (IH H) as (before & it & after & -> & Hf & Hch & Hd' & Hb).
      exists (item :: before), it, after. split_and!; auto.
      intros b sub' [<-|Hin] Hsub; [congruence | eauto].
  - intros H. destruct (IH H) as (before & it & after & -> & Hf & Hch & Hd & Hb).
    exists (item :: before), it, after. split_and!; auto.
    intros b sub' [<-|Hin] Hsub; [congruence | eauto].
Qed.

(** X11.  What a locator returns is either the single entry of the
    extraction directory, when that is a directory with the minimal
    marks of the project ([src] and [README.md] for the application, one
    of [src], [README.md], [assets], [ImageMagick] for the installer),
    or the first directory in listing order that has the complete
    project structure: every directory listed before it fails the
    detection. *)
Theorem locator_first_match_wins :
  forall (extract_dir : path) (extracted : list (string * tree))
         (found : path) (root : list (string * tree)),
    (UpdateChecker._find_github_zipball_root extract_dir extracted = Some (found, root) ->
     (exists only, listdir extracted = [only] /\ found = join extract_dir only /\
                   child extracted only = Some (Dir root) /\
                   name_in "src" (listdir root) = true /\
                   name_in "README.md" (listdir root) = true) \/
     (exists before item after,
        listdir extracted = before ++ item :: after /\ found = join extract_dir item /\
        child extracted item = Some (Dir root) /\
        UpdateChecker._detect_project_root root = true /\
        forall b sub, In b before -> child extracted b = Some (Dir sub) ->
                      UpdateChecker._detect_project_root sub = false)) /\
    (Updater._find_github_zipball_root extract_dir extracted = Some (found, root) ->
     (exists only, listdir extracted = [only] /\ found = join extract_dir only /\
                   child extracted only = Some (Dir root) /\
                   existsb (fun item => name_in item (listdir root))
                           ["src"; "README.md"; "assets"; "ImageMagick"] = true) \/
     (exists before item after,
        listdir extracted = before ++ item :: after /\ found = join extract_dir item /\
        child extracted item = Some (Dir root) /\
        Updater._detect_project_root root false = true /\
        forall b sub, In b before -> child extracted b = Some (Dir sub) ->
                      Updater._detect_project_root sub false = false)).
Proof.
  intros extract_dir extracted found root. split.
  - unfold UpdateChecker._find_github_zipball_root. cbv zeta.
    destruct (listdir extracted) as [|only [|second rest]] eqn:El;
      try (intros H; right; exact (checker_scan_first _ _ _ _ _ H)).
    destruct (child extracted only) as [[c|sub]|] eqn:Hc;
      try (intros H; right; exact (checker_scan_first _ _ _ _ _ H)).
    destruct (forallb _ _) eqn:Hf;
      [|intros H; right; exact (checker_scan_first _ _ _ _ _ H)].
    intros [= <- <-]. left. exists only.
    cbn [forallb] in Hf. apply andb_true_iff in Hf. destruct Hf as [H1 Hf].
    apply andb_true_iff in Hf. destruct Hf as [H2 _]. auto.
  - unfold Updater._find_github_zipball_root. cbv zeta.
    destruct (listdir extracted) as [|only [|second rest]] eqn:El;
      try (intros H; right; exact (installer_scan_first _ _ _ _ _ H)).
    destruct (child extracted only) as [[c|sub]|] eqn:Hc;
      try (intros H; right; exact (installer_scan_first _ _ _ _ _ H)).
    destruct (List.filter _ _) as [|ind inds] eqn:Hf;
      [intros H; right; exact (installer_scan_first _ _ _ _ _ H)|].
    intros [= <- <-]. left. exists only. split_and!; auto.
    assert (Hin : In ind (List.filter (fun item => name_in item (listdir sub))
                            ["src"; "README.md"; "assets"; "ImageMagick"]))
      by (rewrite Hf; left; reflexivity).
    apply filter_In in Hin. destruct Hin as [Hin Hn].
    apply existsb_exists. exists ind. auto.
Qed.

Lemma locator_first_match_wins_witness :
  (exists only, listdir notes_then_project = [only] /\
                join ["tmp"; "tmp1"] "project" = join ["tmp"; "tmp1"] only /\
                child notes_then_project only = Some (Dir flat_archive) /\
                name_in "src" (listdir flat_archive) = true /\
                name_in "README.md" (listdir flat_archive) = true) \/
  (exists before item after,
     listdir notes_then_project = before ++ item :: after /\
     join ["tmp"; "tmp1"] "project" = join ["tmp"; "tmp1"] item /\
     child notes_then_project item = Some (Dir flat_archive) /\
     UpdateChecker._detect_project_root flat_archive = true /\
     forall b sub, In b before -> child notes_then_project b = Some (Dir sub) ->
                   UpdateChecker._detect_project_root sub = false).
Proof.
  apply (proj1 (locator_first_match_wins ["tmp"; "tmp1"] notes_then_project
                  (join ["tmp"; "tmp1"] "project") flat_archive)).
  vm_compute. reflexivity.
Defined.

Lemma forallb_incl {A} (f : A -> bool) (l l' : list A) :
  (forall x, In x l' -> In x l) -> forallb f l = true -> forallb f l' = true.
Proof.
  intros Hincl H. rewrite forallb_forall in *. auto.
Qed.

Lemma checker_detect_installer_detect directory :
  UpdateChecker._detect_project_root directory = true ->
  Updater._detect_project_root directory false = true.
Proof.
  unfold UpdateChecker._detect_project_root, Updater._detect_project_root.
  intros H. apply andb_true_iff in H. destruct H as [Hd Hf]. rewrite Hf, andb_true_r.
  revert Hd. apply forallb_incl. cbn. tauto.
Qed.

Lemma installer_scan_follows extract_dir extracted items :
  UpdateChecker.scan_for_root extract_dir extracted items <> None ->
  Updater.scan_for_root extract_dir extracted items <> None.
Proof.
  induction items as [|item items IH]; [auto|].
  cbn [UpdateChecker.scan_for_root Updater.scan_for_root].
  destruct (child extracted item) as [[c|sub]|]; auto.
  destruct (UpdateChecker._detect_project_root sub) eqn:Hd.
  - rewrite (checker_detect_installer_detect _ Hd). discriminate.
  - destruct (Updater._detect_project_root sub false); [discriminate | exact IH].
Qed.

(** X12.  A directory with the structure the application looks for has
    the structure the installer looks for, and an archive in which the
    application's locator finds a root is one in which the installer's
    locator finds a root. *)
Theorem installer_locates_what_application_locates :
  forall (extract_dir : path) (extracted directory : list (string * tree)),
    (UpdateChecker._detect_project_root directory = true ->
     Updater._detect_project_root directory false = true) /\
    (UpdateChecker._find_github_zipball_root extract_dir extracted <> None ->
     Updater._find_github_zipball_root extract_dir extracted <> None).
Proof.
  intros extract_dir extracted directory. split; [apply checker_detect_installer_detect|].
  unfold UpdateChecker._find_github_zipball_root, Updater._find_github_zipball_root.
  cbv zeta.
  destruct (listdir extracted) as [|only [|second rest]] eqn:El;
    try apply installer_scan_follows.
  destruct (child extracted only) as [[c|sub]|] eqn:Hc; try apply installer_scan_follows.
  destruct (forallb _ _) eqn:Hf.
  - intros _. cbn [forallb] in Hf. apply andb_true_iff in Hf. destruct Hf as [H1 _].
    cbn [List.filter]. rewrite H1. discriminate.
  - intros H. destruct (List.filter _ _); [|discriminate].
    apply installer_scan_follows. exact H.
Qed.

Lemma installer_locates_what_application_locates_witness :
  Updater._find_github_zipball_root ["tmp"; "tmp1"] source_package <> None.
Proof.
  apply (proj2 (installer_locates_what_application_locates ["tmp"; "tmp1"]
                  source_package [])).
  vm_compute. discriminate.
Defined.

(** ** The backup of the installer script *)

Lemma log_returns {St} (self : Updater.updater) message lvl (s : St) :
  exists evs, Updater.log self message lvl s = (s, evs, Returned tt).
Proof. unfold Updater.log, print. destruct (Updater.console self); eexists; reflexivity. Qed.

Lemma copy2_path_run src dst s s' evs r :
  copy2_path src dst s = (s', evs, r) ->
  (exists c, fs s !! src = Some (FileN c) /\
             shutil_copy2 (basename src) c dst s = (s', evs, r)) \/
  (s' = s /\ exists e, r = Raised e).
Proof.
  unfold copy2_path. unfold bind at 1. unfold get at 1. cbv beta iota.
  destruct (fs s !! src) as [[c|]|].
  - intros H. left. exists c. split; [reflexivity|].
    destruct (shutil_copy2 (basename src) c dst s) as [[s2 ev2] r2].
    inversion H; subst. reflexivity.
  - intros H. inversion H; subst. right. eauto.
  - intros H. inversion H; subst. right. eauto.
Qed.

Lemma shutil_copy2_faults name c dst s s' evs r :
  shutil_copy2 name c dst s = (s', evs, r) -> faults s' = faults s.
Proof.
  unfold shutil_copy2. cbv beta iota zeta delta [bind get].
  generalize (if isdir_in (fs s) dst then join dst name else dst). intros target.
  destruct (fs s !! target) as [[c0|]|]; m_red;
    try (destruct (parent_is_dir (fs s) target); m_red;
         [destruct (faults s (tick s)); m_red|]);
    intros H; inversion H; subst; reflexivity.
Qed.

Lemma os_remove_run p s s' evs r :
  os_remove p s = (s', evs, r) ->
  faults s (tick s) = NoFault -> fs s !! p <> Some DirN ->
  fs s' = delete p (fs s).
Proof.
  unfold os_remove. m_red. intros H Hf Hd. revert H.
  destruct (fs s !! p) as [[c|]|] eqn:E; m_red; [|congruence|].
  - rewrite Hf. m_red. intros H. inversion H; subst. reflexivity.
  - intros H. inversion H; subst. symmetry. apply delete_id. exact E.
Qed.

Section UpdaterBackup.
Variable self : Updater.updater.
Variable env : Env.

Lemma create_updater_backup_returns s :
  result (Updater.create_updater_backup self env s) = Returned None \/
  result (Updater.create_updater_backup self env s) = Returned (Some (add_suffix (updater_script env) ".backup")).
Proof.
  destruct (Updater.create_updater_backup self env s) as [[s1 evs1] r1] eqn:Hc.
  cbn [result snd]. unfold Updater.create_updater_backup in Hc.
  apply try_except_run in Hc. destruct Hc as [(a & Hb & ->)|(? & ? & e & ? & _ & Hh & _)].
  - right. apply bind_returned in Hb. destruct Hb as (? & ? & ? & ? & _ & Hb & _).
    apply bind_returned in Hb. destruct Hb as (? & ? & ? & ? & _ & Hb & _).
    inversion Hb. reflexivity.
  - left. apply bind_run in Hh. destruct Hh as [(? & ? & ? & ? & _ & Hret & _)|(? & Hl & _)].
    + inversion Hret. reflexivity.
    + apply log_run in Hl. destruct Hl as [_ Hl]. discriminate.
Qed.

Lemma create_updater_backup_effect s s1 evs r :
  Updater.create_updater_backup self env s = (s1, evs, r) ->
  fs s !! (add_suffix (updater_script env) ".backup") <> Some DirN ->
  (forall q, q <> (add_suffix (updater_script env) ".backup") -> fs s1 !! q = fs s !! q) /\
  fs s1 !! (add_suffix (updater_script env) ".backup") <> Some DirN /\
  faults s1 = faults s /\
  (r = Returned (Some (add_suffix (updater_script env) ".backup")) ->
   exists c, fs s !! updater_script env = Some (FileN c) /\
             fs s1 !! (add_suffix (updater_script env) ".backup") = Some (FileN c)).
Proof.
  intros Hc Hnd. unfold Updater.create_updater_backup in Hc.
  assert (Hcopy : forall s2 ev r2,
    copy2_path (updater_script env) (add_suffix (updater_script env) ".backup") s = (s2, ev, r2) ->
    (forall q, q <> (add_suffix (updater_script env) ".backup") -> fs s2 !! q = fs s !! q) /\
    fs s2 !! (add_suffix (updater_script env) ".backup") <> Some DirN /\ faults s2 = faults s /\
    (forall t, r2 = Returned t ->
       exists c, fs s !! updater_script env = Some (FileN c) /\
                 fs s2 !! (add_suffix (updater_script env) ".backup") = Some (FileN c))).
  { intros s2 ev r2 Hcp. apply copy2_path_run in Hcp.
    destruct Hcp as [(c & Hs & Hcp)|(-> & e & ->)].
    - destruct (shutil_copy2_effect _ _ _ _ _ _ _ Hnd Hcp) as (H1 & H2 & H3).
      split_and!; [exact H1 | exact H2 | exact (shutil_copy2_faults _ _ _ _ _ _ _ Hcp)|].
      intros t Ht. exists c. split; [exact Hs | exact (H3 t Ht)].
    - split_and!; auto. discriminate. }
  apply try_except_run in Hc. destruct Hc as [(a & Hb & ->)|(s0 & ? & e & ? & Hb & Hh & _)].
  - apply bind_returned in Hb. destruct Hb as (s2 & ? & t & ? & Hcp & Hb & _).
    apply bind_returned in Hb. destruct Hb as (? & ? & ? & ? & Hl & Hb & _).
    apply log_run in Hl. destruct Hl as [-> _]. inversion Hb; subst.
    destruct (Hcopy _ _ _ Hcp) as (H1 & H2 & H3 & H4). split_and!; auto.
    intros _. exact (H4 t eq_refl).
  - apply bind_run in Hh. destruct Hh as [(? & ? & ? & ? & Hl & Hret & _)|(? & Hl & _)];
      [|apply log_run in Hl; destruct Hl as [_ Hl]; discriminate].
    apply log_run in Hl. destruct Hl as [-> _]. inversion Hret; subst.
    apply bind_run in Hb. destruct Hb as [(s2 & ? & t & ? & Hcp & Hb & _)|(? & Hcp & _)].
    + exfalso. apply bind_run in Hb.
      destruct Hb as [(? & ? & ? & ? & _ & Hb & _)|(? & Hl & _)]; [inversion Hb|].
      apply log_run in Hl. destruct Hl as [_ Hl]. discriminate.
    + destruct (Hcopy _ _ _ Hcp) as (H1 & H2 & H3 & _). split_and!; auto. discriminate.
Qed.

Lemma cleanup_updater_backup_effect s1 s2 evs r :
  Updater.cleanup_updater_backup self env s1 = (s2, evs, r) ->
  r = Returned tt /\
  (faults s1 (tick s1) = NoFault -> fs s1 !! (add_suffix (updater_script env) ".backup") <> Some DirN ->
   fs s2 = delete (add_suffix (updater_script env) ".backup") (fs s1)).
Proof.
  intros Hc. unfold Updater.cleanup_updater_backup in Hc.
  apply try_except_run in Hc. destruct Hc as [([] & Hb & ->)|(s0 & ? & e & ? & Hb & Hh & _)].
  - split; [reflexivity|]. intros Hf Hnd.
    apply bind_returned in Hb. destruct Hb as (sx & evx & ex & evy & Hex & Hb & _).
    unfold os_path_exists in Hex. injection Hex as <- <- <-.
    destruct (exists_in (fs s1) (add_suffix (updater_script env) ".backup")) eqn:Eex.
    + apply bind_returned in Hb. destruct Hb as (s3 & ? & ? & ? & Hrm & Hl & _).
      apply log_run in Hl. destruct Hl as [-> _].
      exact (os_remove_run _ _ _ _ _ Hrm Hf Hnd).
    + inversion Hb; subst. symmetry. apply delete_id.
      unfold exists_in in Eex. destruct (fs s2 !! (add_suffix (updater_script env) ".backup")); [discriminate | reflexivity].
  - apply log_run in Hh. destruct Hh as [-> ->]. split; [reflexivity|]. intros Hf Hnd.
    exfalso. apply bind_run in Hb.
    destruct Hb as [(sx & evx & ex & evy & Hex & Hb & _)|(? & Hex & _)]; [|inversion Hex].
    unfold os_path_exists in Hex. injection Hex as <- <- <-.
    destruct (exists_in (fs s1) (add_suffix (updater_script env) ".backup")) eqn:Eex; [|inversion Hb].
    apply bind_run in Hb. destruct Hb as [(? & ? & ? & ? & _ & Hl & _)|(? & Hrm & _)].
    + apply log_run in Hl. destruct Hl as [_ Hl]. discriminate.
    + revert Hrm Eex. unfold os_remove, exists_in. m_red.
      destruct (fs s1 !! (add_suffix (updater_script env) ".backup")) as [[c|]|]; m_red; [rewrite Hf; m_red| |];
        try discriminate; congruence.
Qed.
End UpdaterBackup.

Lemma shutil_copy2_into_directory name c dst s s' evs t :
  fs s !! dst = Some DirN ->
  shutil_copy2 name c dst s = (s', evs, Returned t) ->
  t = join dst name /\ fs s' = <[join dst name := FileN c]> (fs s).
Proof.
  intros Hd. unfold shutil_copy2. cbv beta iota zeta delta [bind get].
  unfold isdir_in. rewrite Hd.
  destruct (fs s !! join dst name) as [[c0|]|]; m_red;
    try (destruct (parent_is_dir (fs s) (join dst name)); m_red;
         [destruct (faults s (tick s)); m_red|]);
    intros H; inversion H; subst; split; reflexivity.
Qed.

Lemma create_updater_backup_into_directory self env s :
  let backup := add_suffix (updater_script env) ".backup" in
  let created := Updater.create_updater_backup self env s in
  fs s !! backup = Some DirN ->
  result created = Returned (Some backup) ->
  exists c, fs s !! updater_script env = Some (FileN c) /\
            fs (final created) = <[join backup (basename (updater_script env)) := FileN c]> (fs s).
Proof.
  intros backup created Hd Hr. subst created.
  destruct (Updater.create_updater_backup self env s) as [[s1 evs1] r1] eqn:Hc.
  cbn [final result fst snd] in *. subst r1.
  unfold Updater.create_updater_backup in Hc.
  apply try_except_run in Hc. destruct Hc as [(a & Hb & Ha)|(s0 & ? & e & ? & Hb & Hh & _)].
  - apply bind_returned in Hb. destruct Hb as (s2 & ? & t & ? & Hcp & Hb & _).
    apply bind_returned in Hb. destruct Hb as (? & ? & ? & ? & Hl & Hb & _).
    apply log_run in Hl. destruct Hl as [-> _]. inversion Hb; subst.
    apply copy2_path_run in Hcp. destruct Hcp as [(c & Hs & Hcp)|(_ & e & He)]; [|discriminate].
    exists c. split; [exact Hs|].
    exact (proj2 (shutil_copy2_into_directory _ _ _ _ _ _ _ Hd Hcp)).
  - exfalso. apply bind_run in Hh. destruct Hh as [(? & ? & ? & ? & _ & Hret & _)|(? & Hl & _)].
    + inversion Hret.
    + apply log_run in Hl. destruct Hl as [_ Hl]. discriminate.
Qed.

(** X13.  [create_updater_backup] and [cleanup_updater_backup] never
    raise.  A backup that is reported as created holds the content of the
    installer script, unless the backup path is a directory: then the
    copy is written inside that directory, under the name of the script,
    and the reported path holds no copy.  And when nothing was at the
    backup path and no file operation fails, creating the backup and
    cleaning it up leaves the file system as it was. *)
Theorem updater_backup_round_trip :
  forall (self : Updater.updater) (env : Env) (s : Sys),
    let backup := add_suffix (updater_script env) ".backup" in
    let created := Updater.create_updater_backup self env s in
    let cleaned := Updater.cleanup_updater_backup self env (final created) in
    (result created = Returned None \/ result created = Returned (Some backup)) /\
    result cleaned = Returned tt /\
    (result created = Returned (Some backup) -> fs s !! backup <> Some DirN ->
     exists c, fs s !! updater_script env = Some (FileN c) /\
               fs (final created) !! backup = Some (FileN c)) /\
    (result created = Returned (Some backup) -> fs s !! backup = Some DirN ->
     exists c, fs s !! updater_script env = Some (FileN c) /\
               fs (final created) !! backup = Some DirN /\
               fs (final created) !! join backup (basename (updater_script env))
                 = Some (FileN c)) /\
    (fs s !! backup = None -> (forall i, faults s i = NoFault) ->
     fs (final cleaned) = fs s).
Proof.
  intros self env s backup created cleaned.
  assert (Hdir : result created = Returned (Some backup) -> fs s !! backup = Some DirN ->
     exists c, fs s !! updater_script env = Some (FileN c) /\
               fs (final created) !! backup = Some DirN /\
               fs (final created) !! join backup (basename (updater_script env))
                 = Some (FileN c)).
  { intros Hr Hd.
    destruct (create_updater_backup_into_directory self env s Hd Hr) as (c & Hs & Hfs).
    exists c. fold created in Hfs. rewrite Hfs. split_and!; [exact Hs | |].
    - rewrite lookup_insert_ne; [exact Hd|].
      apply join_not_self.
    - apply lookup_insert_eq. }
  subst created cleaned.
  pose proof (create_updater_backup_returns self env s) as Hret.
  destruct (Updater.create_updater_backup self env s) as [[s1 evs1] r1] eqn:Hc.
  cbn [final result fst snd] in *.
  destruct (Updater.cleanup_updater_backup self env s1) as [[s2 evs2] r2] eqn:Hd.
  cbn [final result fst snd].
  destruct (cleanup_updater_backup_effect self env _ _ _ _ Hd) as (Hr2 & Hdel).
  split_and!.
  - exact Hret.
  - exact Hr2.
  - intros Hr Hnd.
    destruct (create_updater_backup_effect self env _ _ _ _ Hc Hnd) as (_ & _ & _ & H4).
    exact (H4 Hr).
  - exact Hdir.
  - intros Hnone Hfaults.
    assert (Hnd : fs s !! backup <> Some DirN) by (rewrite Hnone; discriminate).
    destruct (create_updater_backup_effect self env _ _ _ _ Hc Hnd) as (H1 & H2 & H3 & _).
    rewrite Hdel; [|rewrite H3; apply Hfaults|exact H2].
    apply map_eq. intros q. destruct (decide (q = backup)) as [->|Hq].
    + rewrite lookup_delete_eq, Hnone. reflexivity.
    + rewrite lookup_delete_ne by (intros E; apply Hq; symmetry; exact E).
      apply H1. exact Hq.
Qed.

Lemma updater_backup_round_trip_witness :
  fs (final (Updater.cleanup_updater_backup (Updater.mkUpdater true false true) windows_app
               (final (Updater.create_updater_backup (Updater.mkUpdater true false true)
                         windows_app installed_with_script))))
  = fs installed_with_script.
Proof.
  apply (proj2 (proj2 (proj2 (proj2 (updater_backup_round_trip
                                       (Updater.mkUpdater true false true)
                                       windows_app installed_with_script))))).
  - vm_compute. reflexivity.
  - intros i. unfold installed_with_script, schedule. cbn [faults].
    destruct i; reflexivity.
Defined.

Example updater_backup_is_a_copy :
  fs (final (Updater.create_updater_backup (Updater.mkUpdater true false true)
               windows_app installed_with_script))
    !! ["C:"; "app"; "updater.py.backup"] = Some (FileN "installer").
Proof. vm_compute. reflexivity. Qed.

(** With a directory at the backup path the backup is reported as
    created, the copy lies inside the directory and the cleanup, which
    cannot remove a directory, leaves both. *)
Example updater_backup_into_directory :
  let s := set_fs (insert ["C:"; "app"; "updater.py.backup"] DirN) installed_with_script in
  let created := Updater.create_updater_backup (Updater.mkUpdater true false true)
                   windows_app s in
  let cleaned := Updater.cleanup_updater_backup (Updater.mkUpdater true false true)
                   windows_app (final created) in
  result created = Returned (Some ["C:"; "app"; "updater.py.backup"]) /\
  fs (final created) !! ["C:"; "app"; "updater.py.backup"; "updater.py"]
    = Some (FileN "installer") /\
  fs (final cleaned) !! ["C:"; "app"; "updater.py.backup"] = Some DirN /\
  fs (final cleaned) !! ["C:"; "app"; "updater.py.backup"; "updater.py"]
    = Some (FileN "installer").
Proof. vm_compute. split_and!; reflexivity. Qed.

(** ** Waiting for the application to close *)

Lemma log_no_sleep {St} self message lvl (s : St) :
  exists evs, Updater.log self message lvl s = (s, evs, Returned tt) /\
              sleeps evs = O /\ slept evs = 0.
Proof.
  unfold Updater.log, print, emit. destruct (Updater.console self);
    eexists; split_and!; reflexivity.
Qed.

(** The loop from the test that follows [round] sleeps on: it returns,
    leaves the files alone, sleeps two seconds at a time and only after a
    test of the clock that showed time left; and when it gives up with
    fuel left, the clock showed that the time was over. *)
Lemma closure_loop_bounded self env max_wait_seconds : forall fuel round s,
  exists closed s' evs,
    Updater.closure_loop self env max_wait_seconds fuel round s = (s', evs, Returned closed) /\
    fs s' = fs s /\
    slept evs = 2000 * Z.of_nat (sleeps evs) /\
    (sleeps evs <= fuel)%nat /\
    (forall j, (j < sleeps evs)%nat ->
               Updater.elapsed env (round + j) < max_wait_seconds * 1000) /\
    (closed = false -> (sleeps evs < fuel)%nat ->
     max_wait_seconds * 1000 <= Updater.elapsed env (round + sleeps evs)).
Proof.
  assert (Htimeout : forall s : Sys, exists evs,
             (Updater.log self "Timeout waiting for application closure" Warning ;;;
              ret false) s = (s, evs, Returned false) /\ sleeps evs = O /\ slept evs = 0).
  { intros s.
    destruct (log_no_sleep self "Timeout waiting for application closure" Warning s)
      as (evs & Hl & Hn & Ht).
    exists (evs ++ []). unfold bind. rewrite Hl. cbn [ret].
    rewrite sleeps_app, slept_app, Hn, Ht. split_and!; reflexivity. }
  induction fuel as [|fuel IH]; intros round s.
  - cbn [Updater.closure_loop]. destruct (Htimeout s) as (evs & Hrun & Hn & Ht).
    exists false, s, evs. rewrite Hrun, Hn, Ht.
    split_and!; first [reflexivity | lia | intros; lia].
  - cbn [Updater.closure_loop].
    destruct (Z.ltb_spec (Updater.elapsed env round) (max_wait_seconds * 1000)) as [Hlt|Hge].
    2:{ destruct (Htimeout s) as (evs & Hrun & Hn & Ht).
        exists false, s, evs. rewrite Hrun, Hn, Ht. rewrite Nat.add_0_r.
        split_and!; first [reflexivity | lia | intros; lia]. }
    set (poll := if Updater.exe_mode self && is_frozen env
                 then UpdateUtilities.is_file_locked (sys_executable env)
                 else match Updater.find_project_root env with
                      | Some project_root =>
                          do ex <- os_path_exists (project_root ++ ["src"; "Main.py"]);
                          if ex then UpdateUtilities.is_file_locked
                                       (project_root ++ ["src"; "Main.py"])
                          else ret false
                      | None => ret false
                      end).
    assert (Hpoll : exists s1 locked, poll s = (s1, [], Returned locked) /\ fs s1 = fs s).
    { subst poll. destruct (Updater.exe_mode self && is_frozen env).
      - rewrite installer_is_file_locked_run. eexists _, _. split; [reflexivity|].
        apply after_poll_fs.
      - destruct (Updater.find_project_root env) as [root|];
          [|eexists _, _; split; reflexivity].
        unfold bind at 1. unfold os_path_exists at 1. cbv beta iota.
        destruct (exists_in (fs s) (root ++ ["src"; "Main.py"])).
        + rewrite installer_is_file_locked_run. eexists _, _. split; [reflexivity|].
          apply after_poll_fs.
        + eexists _, _. split; reflexivity. }
    destruct Hpoll as (s1 & locked & Hpoll & Hfs1).
    unfold bind at 1. rewrite Hpoll. destruct locked; cbn [negb].
    + destruct (IH (S round) s1) as (closed & s' & evs & Hrun & Hfs & Hsl & Hle & Hin & Hcl).
      unfold bind at 1. rewrite sleep_two_seconds. rewrite Hrun.
      exists closed, s', ([] ++ [Sleep 2000] ++ evs). split; [reflexivity|].
      cbn [app sleeps slept]. split_and!; [congruence | lia | lia | |].
      * intros j Hj. destruct j as [|j]; [rewrite Nat.add_0_r; exact Hlt|].
        replace (round + S j)%nat with (S round + j)%nat by lia. apply Hin. lia.
      * intros Hc Hf. replace (round + S (sleeps evs))%nat with (S round + sleeps evs)%nat by lia.
        apply Hcl; [exact Hc | lia].
    + destruct (log_no_sleep self "Application appears to be closed" Success s1)
        as (evs & Hl & Hn & Ht).
      unfold bind. rewrite Hl. cbn [ret].
      exists true, s1, ([] ++ evs ++ []). cbn [app]. rewrite sleeps_app, slept_app, Hn, Ht.
      split_and!; first [reflexivity | exact Hfs1 | discriminate | cbn; lia | cbn; intros; lia].
Qed.

(** X14.  [wait_for_main_app_closure] never raises and leaves the file
    system as it is.  It sleeps two seconds after each poll that finds
    the application's file locked, and only after the clock showed that
    time is left; it reports a timeout only when the clock shows that
    the time allowed is over.  As the clock, taken not to be set back
    during the wait, shows at least the time slept, the sleeps are at
    most one per two seconds of the time allowed (rounded up). *)
Theorem closure_wait_is_bounded :
  forall (self : Updater.updater) (env : Env) (max_wait_seconds : Z) (s : Sys),
    let run := Updater.wait_for_main_app_closure self env max_wait_seconds s in
    exists closed,
      result run = Returned closed /\ fs (final run) = fs s /\
      slept (events run) = 2000 * Z.of_nat (sleeps (events run)) /\
      (forall j, (j < sleeps (events run))%nat ->
                 Updater.elapsed env j < max_wait_seconds * 1000) /\
      (sleeps (events run) <= Z.to_nat ((max_wait_seconds + 1) / 2))%nat /\
      (closed = false ->
       max_wait_seconds * 1000 <= Updater.elapsed env (sleeps (events run))).
Proof.
  intros self env max s run.
  set (bound := Z.to_nat ((max + 1) / 2)).
  destruct (closure_loop_bounded self env max (S bound) O s)
    as (closed & s' & evs & Hrun & Hfs & Hsl & Hle & Hin & Hcl).
  destruct (log_no_sleep self "Waiting for main application to close..." Info s)
    as (ev1 & Hl1 & Hn1 & Ht1).
  assert (Hp : exists ev2, Updater.set_progress self 5 "Waiting for application closure..." s
                           = (s, ev2, Returned tt) /\ sleeps ev2 = O /\ slept ev2 = 0).
  { unfold Updater.set_progress, print, emit. destruct (Updater.console self);
      eexists; split_and!; reflexivity. }
  destruct Hp as (ev2 & Hp & Hn2 & Ht2).
  assert (Hfull : run = (s', ev1 ++ ev2 ++ evs, Returned closed)).
  { subst run. unfold Updater.wait_for_main_app_closure. fold bound.
    unfold bind. rewrite Hl1, Hp, Hrun. reflexivity. }
  assert (Hbound : (sleeps evs <= bound)%nat).
  { destruct (sleeps evs) as [|k] eqn:Ek; [lia|].
    specialize (Hin k ltac:(lia)). cbn [Nat.add] in Hin. unfold Updater.elapsed in Hin.
    subst bound. assert (2 * Z.of_nat k < max) by lia.
    apply Nat2Z.inj_le. rewrite Z2Nat.id by (apply Z.div_pos; lia).
    apply Z.div_le_lower_bound; lia. }
  rewrite Hfull. exists closed. cbn [result final events fst snd].
  rewrite !sleeps_app, !slept_app, Hn1, Ht1, Hn2, Ht2. cbn [Nat.add Z.add].
  split_and!; auto.
  intros Hc. apply (Hcl Hc). lia.
Qed.

(** With the default of thirty seconds the wait sleeps at most fifteen
    times; a clock that runs ahead of the sleeps ends it earlier. *)
Example closure_wait_default_bound :
  Z.to_nat ((30 + 1) / 2) = 15%nat /\
  Updater.elapsed windows_app 15 = 30000.
Proof. split; reflexivity. Qed.

(** ** Merges stay at the destination *)

Section AwayFrom.
Variable dst : path.

Lemma below_not_away q : dst `prefix_of` q -> ~ away_from dst q.
Proof. intros H [H1 _]. exact (H1 H). Qed.

Lemma on_the_way_not_away p q :
  dst `prefix_of` p -> q `prefix_of` p -> ~ away_from dst q.
Proof.
  intros Hd Hq [H1 H2]. destruct (prefix_weak_total _ _ _ Hd Hq); auto.
Qed.

Lemma keeps_away_makedirs p :
  dst `prefix_of` p -> keeps (away_from dst) (os_makedirs p) (fun _ => True).
Proof.
  intros Hp. apply keeps_makedirs. intros q Hq _. exact (on_the_way_not_away p q Hp Hq).
Qed.

Lemma keeps_away_copy2 name c p :
  dst `prefix_of` p -> keeps (away_from dst) (shutil_copy2 name c p) (fun _ => True).
Proof.
  intros Hp. apply keeps_copy2; apply below_not_away; [exact Hp|].
  etransitivity; [exact Hp|]. apply prefix_app_r. reflexivity.
Qed.

Lemma keeps_log (protected : list string -> Prop) self message lvl :
  keeps protected (Updater.log self message lvl) (fun _ => True).
Proof.
  unfold Updater.log, print. destruct (Updater.console self); apply keeps_emit.
Qed.

Lemma keeps_copy_retry_loop (protected : list string -> Prop) self
    (attempt_copy : M Sys unit) shown max_attempts remaining :
  keeps protected attempt_copy (fun _ => True) ->
  forall attempt,
    keeps protected
      (Updater.copy_retry_loop self attempt_copy shown max_attempts remaining attempt)
      (fun _ => True).
Proof.
  intros Hop. induction remaining as [|n IH]; intros attempt; cbn [Updater.copy_retry_loop].
  - apply keeps_ret. exact I.
  - apply keeps_try; [exact Hop|]. intros e.
    destruct (is_OSError e); [|apply keeps_raise].
    destruct (attempt <? max_attempts - 1); [|apply keeps_raise].
    apply (keeps_bind _ _ _ (fun _ => True)); [apply keeps_log|]. intros _ _.
    apply (keeps_bind _ _ _ (fun _ => True)); [apply keeps_sleep|]. intros _ _. apply IH.
Qed.

Lemma keeps_away_copy_file_with_retry self name c target_dir f n :
  dst `prefix_of` target_dir ->
  keeps (away_from dst) (Updater._copy_file_with_retry self name c (join target_dir f) n)
    (fun _ => True).
Proof.
  intros Hp. unfold Updater._copy_file_with_retry. apply keeps_copy_retry_loop.
  rewrite dirname_join.
  apply (keeps_bind _ _ _ (fun _ => True)); [apply keeps_away_makedirs; exact Hp|].
  intros _ _. apply (keeps_bind _ _ _ (fun _ => True)).
  - apply keeps_away_copy2. etransitivity; [exact Hp|]. apply prefix_app_r. reflexivity.
  - intros _ _. apply keeps_ret. exact I.
Qed.

Lemma target_dir_below (rel : list string) :
  dst `prefix_of` match rel with [] => dst | _ => dst ++ rel end.
Proof. destruct rel; [reflexivity|]. apply prefix_app_r. reflexivity. Qed.

Lemma keeps_away_installer_merge self src :
  keeps (away_from dst) (Updater._merge_directory self src dst) (fun _ => True).
Proof.
  unfold Updater._merge_directory, Updater.merge_walk.
  apply keeps_for_each. intros step. cbv zeta.
  apply (keeps_bind _ _ _ (fun _ => True));
    [apply keeps_away_makedirs; apply target_dir_below|].
  intros _ _. apply keeps_for_each. intros f.
  apply keeps_away_copy_file_with_retry. apply target_dir_below.
Qed.

Lemma keeps_away_wait_until_replaceable env p :
  keeps (away_from dst) (UpdateChecker.wait_until_replaceable env p) (fun _ => True).
Proof.
  unfold UpdateChecker.wait_until_replaceable, UpdateChecker.console_log.
  repeat first
    [ apply keeps_ret; exact I | apply keeps_raise | apply keeps_emit
    | apply keeps_is_file_locked | apply keeps_wait_for_file_unlock | apply keeps_exists
    | apply keeps_for_each; intros ?
    | apply (keeps_bind _ _ _ (fun _ => True)); [|intros ? _]
    | match goal with |- keeps _ (if ?x then _ else _) _ => destruct x end ].
Qed.

Lemma keeps_away_copytree t : forall p,
  dst `prefix_of` p -> keeps (away_from dst) (shutil_copytree t p) (fun _ => True).
Proof.
  induction t as [c|entries IH] using tree_induction; intros p Hp; cbn [shutil_copytree].
  - apply (keeps_bind _ _ _ (fun _ => True)); [apply keeps_away_copy2; exact Hp|].
    intros _ _. apply keeps_ret. exact I.
  - apply (keeps_bind _ _ _ (fun _ => True)).
    { unfold makedirs_new. apply (keeps_bind _ _ _ (fun _ => True)); [apply keeps_exists|].
      intros ex _. destruct ex; [apply keeps_raise | apply keeps_away_makedirs; exact Hp]. }
    intros _ _. apply (keeps_bind _ _ _ (fun _ => True)).
    2:{ intros bad _. destruct bad; [apply keeps_raise | apply keeps_ret; exact I]. }
    induction IH as [|e es He Hes IHes]; [apply keeps_ret; exact I|].
    apply (keeps_bind _ _ _ (fun _ => True)).
    + apply keeps_try.
      * apply (keeps_bind _ _ _ (fun _ => True)); [|intros _ _; apply keeps_ret; exact I].
        apply He. etransitivity; [exact Hp|]. apply prefix_app_r. reflexivity.
      * intros ex. destruct (is_OSError ex); [apply keeps_ret; exact I | apply keeps_raise].
    + intros b _. apply (keeps_bind _ _ _ (fun _ => True)); [exact IHes|].
      intros b' _. apply keeps_ret. exact I.
Qed.

Lemma keeps_away_copy_item env name src :
  keeps (away_from dst) (UpdateChecker.copy_item env name src dst) (fun _ => True).
Proof.
  unfold UpdateChecker.copy_item, UpdateChecker.console_log. destruct src as [content|entries].
  - apply (keeps_bind _ _ _ (fun _ => True)); [apply keeps_emit|]. intros _ _.
    apply (keeps_bind _ _ _ (fun _ => True)); [apply keeps_away_wait_until_replaceable|].
    intros _ _. apply (keeps_bind _ _ _ (fun _ => True)); [|intros; apply keeps_ret; exact I].
    apply keeps_safe_file_operation. apply keeps_away_copy2. reflexivity.
  - apply (keeps_bind _ _ _ (fun _ => True)); [apply keeps_exists|]. intros ex _.
    destruct ex.
    + apply (keeps_bind _ _ _ (fun _ => True)); [apply keeps_emit|]. intros _ _.
      unfold UpdateChecker.merge_walk. apply keeps_for_each. intros step. cbv zeta.
      apply (keeps_bind _ _ _ (fun _ => True));
        [apply keeps_away_makedirs; apply target_dir_below|].
      intros _ _. apply (keeps_bind _ _ _ (fun _ => True)); [apply keeps_emit|].
      intros _ _. apply keeps_for_each. intros f.
      apply (keeps_bind _ _ _ (fun _ => True)); [apply keeps_away_wait_until_replaceable|].
      intros _ _.
      apply (keeps_bind _ _ _ (fun _ => True)); [|intros; apply keeps_ret; exact I].
      apply keeps_safe_file_operation. apply keeps_away_copy2.
      etransitivity; [apply target_dir_below|]. apply prefix_app_r. reflexivity.
    + apply (keeps_bind _ _ _ (fun _ => True)); [apply keeps_emit|]. intros _ _.
      apply keeps_safe_file_operation. apply keeps_away_copytree. reflexivity.
Qed.
End AwayFrom.

(** X15.  Whatever happens during a merge, whether it returns or raises,
    [_merge_directory] and [copy_item] change nothing but the
    destination, what lies below it and the directories on the way to
    it: every other path holds afterwards what it held before. *)
Theorem merge_stays_at_destination :
  forall (self : Updater.updater) (env : Env) (name : string) (src : tree)
         (dst : path) (s : Sys) (q : path),
    away_from dst q ->
    fs (final (Updater._merge_directory self src dst s)) !! q = fs s !! q /\
    fs (final (UpdateChecker.copy_item env name src dst s)) !! q = fs s !! q.
Proof.
  intros self env name src dst s q Hq. split.
  - destruct (Updater._merge_directory self src dst s) as [[s' evs] r] eqn:E.
    destruct (keeps_away_installer_merge dst self src _ _ _ _ E) as [F _].
    exact (F q Hq).
  - destruct (UpdateChecker.copy_item env name src dst s) as [[s' evs] r] eqn:E.
    destruct (keeps_away_copy_item dst env name src _ _ _ _ E) as [F _].
    exact (F q Hq).
Qed.

Lemma merge_stays_at_destination_witness :
  fs (final (Updater._merge_directory (Updater.mkUpdater true false true)
               (Dir two_levels) ["app"; "src"] older_copy)) !! ["app"; "notes.txt"]
    = fs older_copy !! ["app"; "notes.txt"] /\
  fs (final (UpdateChecker.copy_item no_env "src" (Dir two_levels) ["app"; "src"] older_copy))
    !! ["app"; "notes.txt"] = fs older_copy !! ["app"; "notes.txt"].
Proof.
  apply (merge_stays_at_destination (Updater.mkUpdater true false true) no_env "src"
           (Dir two_levels) ["app"; "src"] older_copy ["app"; "notes.txt"]).
  split; intros [k Hk]; discriminate.
Defined.

(** ** The install loop of the executable flow *)

(** X16.  In the installer's executable flow a failure to install an
    item that is no executable is logged and the loop goes on: the loop
    over items none of which names an executable of the release returns,
    whatever the file operations do.  Only an item whose name ends in
    [.exe], in any case of the letters, can end the loop with an
    exception. *)
Theorem install_loop_raises_only_for_executables :
  forall (self : Updater.updater) (release : list (string * tree)) (app_root : path)
         (items_to_copy : list string) (s : Sys),
    (forall item, In item items_to_copy -> endswith (lower item) ".exe" = true ->
                  child release item = None) ->
    result (Updater.install_items self release app_root items_to_copy s) = Returned tt.
Proof.
  intros self release app_root items. unfold Updater.install_items.
  induction items as [|item items IH]; intros s Hitems; [reflexivity|].
  cbn [for_each]. unfold bind at 1, result.
  match goal with
  | |- snd (match ?m s with _ => _ end) = _ =>
      assert (Hm : exists s1 ev1, m s = (s1, ev1, Returned tt))
  end.
  { cbv zeta. destruct (child release item) as [src|] eqn:Hc.
    - unfold bind at 1.
      destruct (Updater.log self ("Installing " +:+ item +:+ "...") Info s)
        as [[s0 ev0] r0] eqn:Hl.
      apply log_run in Hl. destruct Hl as [-> ->].
      unfold try_except.
      match goal with
      | |- context [match ?b s with _ => _ end] => destruct (b s) as [[s1 ev1] [[]|e]]
      end.
      + eauto.
      + unfold bind at 1.
        destruct (Updater.log self _ Error s1) as [[s2 ev2] r2] eqn:Hl.
        apply log_run in Hl. destruct Hl as [-> ->].
        destruct (endswith (lower item) ".exe") eqn:He.
        * rewrite (Hitems item (or_introl eq_refl) He) in Hc. discriminate.
        * eauto.
    - destruct (Updater.log self _ Warning s) as [[s2 ev2] r2] eqn:Hl.
      apply log_run in Hl. destruct Hl as [-> ->]. eauto. }
  destruct Hm as (s1 & ev1 & ->).
  specialize (IH s1 (fun item' Hin => Hitems item' (or_intror Hin))). unfold result in IH.
  destruct (for_each items _ s1) as [[s2 ev2] r]. exact IH.
Qed.

Lemma install_loop_raises_only_for_executables_witness :
  result (Updater.install_items (Updater.mkUpdater true true true) exe_release ["C:"; "app"]
            ["assets"; "ImageMagick"; "LICENSE"; "README.md"] installed_all_denied)
    = Returned tt.
Proof.
  apply (install_loop_raises_only_for_executables (Updater.mkUpdater true true true)
           exe_release ["C:"; "app"] ["assets"; "ImageMagick"; "LICENSE"; "README.md"]
           installed_all_denied).
  intros item [<-|[<-|[<-|[<-|[]]]]]; vm_compute; discriminate.
Defined.

Example install_loop_stops_at_executable :
  result (Updater.install_items (Updater.mkUpdater true true true) exe_release ["C:"; "app"]
            ["assets"; "App.exe"; "LICENSE"] installed_all_denied)
    = Raised (mkExn PermissionError "Permission denied: C:/app/App.exe").
Proof. vm_compute. reflexivity. Qed.

(** ** Flows that stop before they write *)




Lemma set_progress_returns {St} (self : Updater.updater) v m (s : St) :
  exists evs, Updater.set_progress self v m s = (s, evs, Returned tt).
Proof.
  unfold Updater.set_progress, print. destruct (Updater.console self); eexists; reflexivity.
Qed.



(** The installer accepts the archive the application passes over: the
    two flows do not agree on the case of the extension. *)
Example installer_accepts_capital_extension :
  Updater.first_7z_asset (assets release_without_archive) = Some (mkAsset "App.7Z" 7 "u1") /\
  result (UpdateChecker.pick_7z_asset (assets release_without_archive) (installed_with []))
    = Returned None.
Proof. vm_compute. split; reflexivity. Qed.



(** ** The update check: consent and the hidden window *)

Ltac check_cases :=
  check_red;
  cbn [UpdateChecker.fetch_latest UpdateChecker.frozen UpdateChecker.tk_root
       UpdateChecker.askyesno UpdateChecker.start_flow];
  repeat (break_match; check_red).

(** X19.  [check_for_updates] starts an update only when the marker read
    is greater than the current version and either automatic updates are
    on or the user answered yes to the dialog; the flow it starts is the
    executable flow for a frozen application and the source flow
    otherwise. *)
Theorem update_starts_only_with_consent :
  forall (St : Type) (env : UpdateChecker.CheckEnv) (current_version : string)
         (auto_update parent_window : bool) (s : St) (f : flow),
    In (StartUpdate f)
       (events (UpdateChecker.check_for_updates env current_version auto_update
                  parent_window s)) ->
    (exists text, UpdateChecker.fetch_latest env = Returned text /\
                  str_gt (strip text) current_version = true) /\
    (auto_update = true \/ UpdateChecker.askyesno env = Returned true) /\
    f = (if UpdateChecker.frozen env then ExeFlow else SourceFlow) /\
    UpdateChecker.start_flow env f = Returned tt.
Proof.
  intros St [fetch frozen tk ask start] cur auto_update parent_window s f.
  cbn [UpdateChecker.fetch_latest UpdateChecker.frozen UpdateChecker.tk_root
       UpdateChecker.askyesno UpdateChecker.start_flow].
  destruct fetch as [text|e].
  - destruct (str_gt (strip text) cur) eqn:Hgt.
    + check_red.
      cbn [UpdateChecker.fetch_latest UpdateChecker.frozen UpdateChecker.tk_root
           UpdateChecker.askyesno UpdateChecker.start_flow].
      rewrite Hgt. check_red.
      repeat (break_match; check_red);
        intros H; cbn [In] in H; decompose [or] H; try discriminate; try contradiction;
        match goal with
        | Hf : StartUpdate _ = StartUpdate f |- _ => injection Hf as <-
        end;
        (split_and!;
         [ exists text; auto | auto | reflexivity
         | match goal with
           | Hs : start _ = Returned ?u |- _ => destruct u; exact Hs
           end ]).
    + check_red. cbn [UpdateChecker.fetch_latest]. check_red. rewrite Hgt. check_red.
      intros H; cbn [In] in H; decompose [or] H; try discriminate; contradiction.
  - check_cases; intros H; cbn [In] in H; decompose [or] H; try discriminate; contradiction.
Qed.

Lemma update_starts_only_with_consent_witness :
  (exists text, UpdateChecker.fetch_latest (scenario_a "2.0.0") = Returned text /\
                str_gt (strip text) "1.9.0" = true) /\
  (true = true \/ UpdateChecker.askyesno (scenario_a "2.0.0") = Returned true) /\
  SourceFlow = (if UpdateChecker.frozen (scenario_a "2.0.0") then ExeFlow else SourceFlow) /\
  UpdateChecker.start_flow (scenario_a "2.0.0") SourceFlow = Returned tt.
Proof.
  apply (update_starts_only_with_consent unit (scenario_a "2.0.0") "1.9.0" true false tt
           SourceFlow).
  vm_compute. tauto.
Defined.

(** X20.  With a parent window [check_for_updates] neither creates nor
    destroys a Tk root.  Without one, a run whose steps all succeed and
    that created the hidden root ends by destroying it; an exception
    after the root was created skips the destruction. *)
Theorem hidden_root_is_destroyed :
  forall (St : Type) (env : UpdateChecker.CheckEnv) (current_version : string)
         (auto_update parent_window : bool) (s : St),
    let run := UpdateChecker.check_for_updates env current_version auto_update
                 parent_window s in
    let body := UpdateChecker.check_for_updates_body env current_version auto_update
                  parent_window s in
    (parent_window = true ->
     ~ In TkCreate (events run) /\ ~ In TkWithdraw (events run) /\
     ~ In TkDestroy (events run)) /\
    (result body = Returned tt -> In TkCreate (events run) ->
     last (events run) = Some TkDestroy) /\
    (forall e, result body = Raised e -> ~ In TkDestroy (events run)).
Proof.
  intros St [fetch frozen tk ask start] cur auto_update parent_window s run body.
  subst run body. check_cases; split_and!;
    try (intros; discriminate);
    try (intros; reflexivity);
    try (intros Hp; split_and!);
    intros; try discriminate; try reflexivity;
    repeat match goal with
           | H : In _ _ |- _ => cbn [In] in H; decompose [or] H; clear H
           | |- ~ In _ _ => let H := fresh in intros H; cbn [In] in H; decompose [or] H; clear H
           end;
    try discriminate; try contradiction.
Qed.

Lemma hidden_root_is_destroyed_witness :
  last (events (UpdateChecker.check_for_updates (scenario_a "2.0.0") "1.9.0" true false tt))
    = Some TkDestroy.
Proof.
  apply (proj1 (proj2 (hidden_root_is_destroyed unit (scenario_a "2.0.0") "1.9.0" true
                         false tt))).
  - vm_compute. reflexivity.
  - vm_compute. tauto.
Defined.

(** ** The restart hook is enabled once, at the end *)

Lemma restart_at_end_quiet {St A} (m : M St A) : quiet m -> restart_at_end m.
Proof. intros H s. left. apply H. Qed.

Lemma restart_at_end_bind {St A B} (m : M St A) (k : A -> M St B) :
  quiet m -> (forall a, restart_at_end (k a)) -> restart_at_end (bind m k).
Proof.
  intros Hm Hk s. unfold bind, events, result. specialize (Hm s). unfold events in Hm.
  destruct (m s) as [[s1 ev1] [a|e1]]; cbn [fst snd] in *; [|left; exact Hm].
  specialize (Hk a s1). unfold events, result in Hk.
  destruct (k a s1) as [[s2 ev2] r]. cbn [fst snd] in *.
  destruct Hk as [Hq|(evs & cb & b & -> & Hq & ->)].
  - left. rewrite forallb_app, Hm, Hq. reflexivity.
  - right. exists (ev1 ++ evs), cb, b. rewrite app_assoc, forallb_app, Hm, Hq. auto.
Qed.

Lemma restart_at_end_try {St A} (body : M St A) (handler : exn -> M St A) :
  restart_at_end body -> (forall e, quiet (handler e)) ->
  restart_at_end (try_except body handler).
Proof.
  intros Hb Hh s. unfold try_except, events, result.
  specialize (Hb s). unfold events, result in Hb.
  destruct (body s) as [[s1 ev1] [a|e1]]; cbn [fst snd] in *; [exact Hb|].
  destruct Hb as [Hq|(evs & cb & b & _ & _ & Hr)]; [|discriminate].
  specialize (Hh e1 s1). unfold events in Hh.
  destruct (handler e1 s1) as [[s2 ev2] r]. cbn [fst snd] in *.
  left. rewrite forallb_app, Hq, Hh. reflexivity.
Qed.

Lemma restart_at_end_enable {St} (cb : restart_action) :
  restart_at_end (St := St) (UpdateChecker.console_enable_restart cb).
Proof. intros s. right. exists [], cb, tt. auto. Qed.

Lemma restart_at_end_installer_enable {St} self (cb : restart_action) :
  restart_at_end (St := St) (Updater.enable_restart self cb).
Proof.
  intros s. unfold Updater.enable_restart, print. destruct (Updater.console self).
  - right. exists [], cb, tt. auto.
  - left. reflexivity.
Qed.

Ltac end_step :=
  match goal with
  | |- restart_at_end (UpdateChecker.console_enable_restart _) => apply restart_at_end_enable
  | |- restart_at_end (Updater.enable_restart _ _) => apply restart_at_end_installer_enable
  | |- restart_at_end (bind _ _) => apply restart_at_end_bind; [solve [quiet_flow] | intros ?]
  | |- restart_at_end (try_except _ _) =>
      apply restart_at_end_try; [|intros ?; solve [quiet_flow]]
  | |- restart_at_end (match ?x with _ => _ end) => destruct x
  | |- restart_at_end _ => apply restart_at_end_quiet; solve [quiet_flow]
  end.

(** X21.  Each of the four flows enables the restart hook at most once,
    and when it does, enabling it is the last thing the flow does and
    the flow returns: no event follows it. *)
Theorem restart_enabled_once_at_the_end :
  forall (self : Updater.updater) (env : Env),
    restart_at_end (UpdateChecker.update_source env) /\
    restart_at_end (UpdateChecker.update_exe env) /\
    restart_at_end (Updater.update_source self env) /\
    restart_at_end (Updater.update_exe self env).
Proof.
  intros self env. split_and!.
  - unfold UpdateChecker.update_source, UpdateChecker.update_source_body,
      UpdateChecker.update_from_archive, UpdateChecker.update_by_git_pull.
    repeat end_step.
  - unfold UpdateChecker.update_exe, UpdateChecker.update_exe_body.
    apply restart_at_end_try; [|intros ?; solve [quiet_flow]].
    apply restart_at_end_bind; [apply quiet_prepare_exe_update|].
    intros [c|]; [|repeat end_step].
    apply restart_at_end_bind; [apply quiet_stage_new_executable|]. intros _.
    unfold UpdateChecker.finish_exe_update. repeat end_step.
  - unfold Updater.update_source, Updater.update_source_body. repeat end_step.
  - unfold Updater.update_exe, Updater.update_exe_body. repeat end_step.
Qed.

(** ** The installer without a window *)

Lemma console_only_silent {St A} (m : M St A) :
  (forall s, events (m s) = []) -> console_only m.
Proof. intros H s. rewrite H. reflexivity. Qed.

Lemma console_only_ret {St A} (a : A) : console_only (St := St) (ret a).
Proof. intros s. reflexivity. Qed.

Lemma console_only_raise {St A} (e : exn) : console_only (St := St) (A := A) (raise e).
Proof. intros s. reflexivity. Qed.

Lemma console_only_emit {St} (e : event) :
  console_output e = true -> console_only (St := St) (emit e).
Proof. intros H s. unfold events. simpl. rewrite H. reflexivity. Qed.

Lemma console_only_lift {St A} (r : outcome A) : console_only (St := St) (lift r).
Proof. intros s. destruct r; reflexivity. Qed.

Lemma console_only_sleep {St} (d : seconds) : console_only (St := St) (sleep d).
Proof.
  intros s. destruct (sleep_cases d s) as [[ms H]|[e H]]; rewrite H; reflexivity.
Qed.

Lemma console_only_bind {St A B} (m : M St A) (k : A -> M St B) :
  console_only m -> (forall a, console_only (k a)) -> console_only (bind m k).
Proof.
  intros Hm Hk s. unfold bind, events. specialize (Hm s). unfold events in Hm.
  destruct (m s) as [[s1 ev1] [a|e]]; cbn [fst snd] in *; [|exact Hm].
  specialize (Hk a s1). unfold events in Hk.
  destruct (k a s1) as [[s2 ev2] r]. cbn [fst snd] in *.
  rewrite forallb_app, Hm, Hk. reflexivity.
Qed.

Lemma console_only_try {St A} (body : M St A) (handler : exn -> M St A) :
  console_only body -> (forall e, console_only (handler e)) ->
  console_only (try_except body handler).
Proof.
  intros Hm Hk s. unfold try_except, events. specialize (Hm s). unfold events in Hm.
  destruct (body s) as [[s1 ev1] [a|e]]; cbn [fst snd] in *; [exact Hm|].
  specialize (Hk e s1). unfold events in Hk.
  destruct (handler e s1) as [[s2 ev2] r]. cbn [fst snd] in *.
  rewrite forallb_app, Hm, Hk. reflexivity.
Qed.

Lemma console_only_for_each {St X} (l : list X) (body : X -> M St unit) :
  (forall x, console_only (body x)) -> console_only (for_each l body).
Proof.
  intros Hb. induction l as [|x l IH]; [apply console_only_ret|].
  cbn [for_each]. apply console_only_bind; [apply Hb | intros _; exact IH].
Qed.

Create HintDb console.

#[local] Hint Resolve console_only_ret console_only_raise console_only_lift
  console_only_sleep : console.

#[local] Hint Unfold
  print get modify next_fault os_path_exists os_path_isdir open_rw mkdir_exist_ok
  copy2_path makedirs_new os_remove os_rename shutil_rmtree_ignore_errors write_text
  fresh_temp mkdtemp named_temporary_file create_file stream_to read_bytes shutil_copy2
  os_makedirs append_bytes file_write
  UpdateUtilities.is_file_locked UpdateUtilities.wait_for_file_unlock
  Updater.log Updater.set_progress Updater.enable_restart
  Updater.wait_for_main_app_closure
  Updater.create_updater_backup Updater.cleanup_updater_backup
  Updater._copy_file_with_retry Updater.merge_walk Updater._merge_directory
  Updater.download_to_temp Updater.extract_zip Updater.obtain_source Updater.copy_items
  Updater.extract_7z Updater.install_item Updater.install_items Updater.report_failure
  Updater.find_project_root
  : console.

Ltac console_step :=
  match goal with
  | |- _ => progress cbn [Updater.console Updater.exe_mode Updater.use_gui andb]
  | |- console_only (bind _ _) => apply console_only_bind; [|intros ?]
  | |- console_only (try_except _ _) => apply console_only_try; [|intros ?]
  | |- console_only (for_each _ _) => apply console_only_for_each; intros ?
  | |- console_only (emit _) => apply console_only_emit; reflexivity
  | |- console_only (fun _ => _) => apply console_only_silent; intros ?; reflexivity
  | |- console_only (match ?x with _ => _ end) => destruct x
  | |- console_only _ => solve [auto with console]
  | |- console_only _ => progress autounfold with console
  end.

Ltac console_solve := repeat console_step.

Lemma console_only_temp_loop suffix made what :
  forall tries, console_only (temp_loop tries suffix made what).
Proof.
  induction tries as [|n IH]; cbn [temp_loop]; [apply console_only_raise|].
  apply console_only_bind; [console_solve|]. intros s0.
  apply console_only_bind; [console_solve|]. intros _.
  destruct (exists_in (fs s0) (temp_name (temps s0) suffix)); [exact IH | console_solve].
Qed.
#[local] Hint Resolve console_only_temp_loop : console.

Lemma console_only_write_chunks {X} (report : Z -> string -> M Sys X) p base span total cs :
  (forall v m, console_only (report v m)) ->
  forall downloaded, console_only (write_chunks report p base span total cs downloaded).
Proof.
  intros Hr. induction cs as [|chunk cs IH]; intros downloaded; cbn [write_chunks].
  - apply console_only_ret.
  - destruct (String.eqb chunk ""); [apply IH|].
    console_solve.
Qed.

Lemma console_only_makedirs_from todo : forall done, console_only (makedirs_from done todo).
Proof.
  induction todo as [|c todo IH]; intros done; cbn [makedirs_from]; console_solve.
Qed.
#[local] Hint Resolve console_only_makedirs_from : console.

Lemma console_only_copytree t : forall dst, console_only (shutil_copytree t dst).
Proof.
  induction t as [c|entries IH] using tree_induction; intros dst; cbn [shutil_copytree].
  - console_solve.
  - apply console_only_bind; [console_solve|]. intros _.
    apply console_only_bind; [|intros; console_solve].
    induction IH as [|e es He Hes IHes]; [apply console_only_ret|].
    apply console_only_bind; [apply console_only_try; [|intros; console_solve]|].
    + apply console_only_bind; [apply He | intros; apply console_only_ret].
    + intros b. apply console_only_bind; [exact IHes | intros; apply console_only_ret].
Qed.
#[local] Hint Resolve console_only_copytree : console.

Lemma console_only_copy_retry_loop {St} g x (attempt_copy : M St unit) shown max_attempts
    remaining :
  console_only attempt_copy ->
  forall attempt,
    console_only (Updater.copy_retry_loop (Updater.mkUpdater g x false) attempt_copy shown
                    max_attempts remaining attempt).
Proof.
  intros Hop. induction remaining as [|n IH]; intros attempt; cbn [Updater.copy_retry_loop].
  - apply console_only_ret.
  - console_solve.
Qed.

Lemma console_only_closure_loop g x env max_wait_seconds fuel :
  forall round,
    console_only (Updater.closure_loop (Updater.mkUpdater g x false) env max_wait_seconds
                    fuel round).
Proof.
  induction fuel as [|n IH]; intros round; cbn [Updater.closure_loop]; console_solve.
Qed.
#[local] Hint Resolve console_only_closure_loop : console.

Ltac console_flow :=
  repeat first
    [ console_step
    | apply console_only_write_chunks; intros
    | apply console_only_copy_retry_loop ].

Lemma console_only_installer_flows (use_gui exe_mode : bool) (env : Env) :
  console_only (Updater.update_source (Updater.mkUpdater use_gui exe_mode false) env) /\
  console_only (Updater.update_exe (Updater.mkUpdater use_gui exe_mode false) env).
Proof.
  split.
  - unfold Updater.update_source, Updater.update_source_body. console_flow.
  - unfold Updater.update_exe, Updater.update_exe_body. console_flow.
Qed.

(** X22.  An installer without a window shows nothing but printed lines:
    every event of its source flow and of its executable flow is a
    printed line or a pause.  It opens no dialog, also when the update
    fails, and never enables a restart hook. *)
Theorem windowless_installer_only_prints :
  forall (use_gui exe_mode : bool) (env : Env) (s : Sys),
    let self := Updater.mkUpdater use_gui exe_mode false in
    forallb console_output (events (Updater.update_source self env s)) = true /\
    forallb console_output (events (Updater.update_exe self env s)) = true.
Proof.
  intros g x env s self. subst self.
  destruct (console_only_installer_flows g x env) as [H1 H2].
  split; [apply H1 | apply H2].
Qed.





(** A [--wait] of 9223372037 seconds is more than [time.sleep] takes:
    the installer prints the line about waiting and ends with the
    [OverflowError]; nothing is installed. *)
Example main_with_huge_wait :
  let run := UpdaterMain.main windows_app (Returned tt)
               (UpdaterMain.mkArgs true true 9223372037) (installed_with []) in
  events run = [Print "Waiting 9223372037 seconds for main application to close..."] /\
  (exists e, result run = Raised e /\ exn_cls e = OverflowError) /\
  final run = installed_with [].
Proof.
  vm_compute. split_and!; [reflexivity | eexists; split; reflexivity | reflexivity].
Qed.

